(** * fabber_core: option parsing, run data, transforms and the polynomial model

    A shallow embedding of the parts of fabber_core that its specification
    makes checkable statements about:

    - [dataset.cc]: [trim], [FabberRunData::AddKeyEqualsValue],
      [ParseParamFile], [ParseOldStyleParamFile], [Parse], [GetBool],
      [GetStringDefault], [GetOutputDir], [GetMainVoxelDataMultiple];
    - [transforms.h]: [IdentityTransform], [LogTransform],
      [SoftPlusTransform];
    - [fwdmodel_poly.cc]: [PolynomialFwdModel];
    - [fabber_io_newimage.cc]: [FabberIoNewimage::SaveVoxelData].

    Conventions.  [std::string] is [string]; [size_t] is a [Z] in
    [0, 2^64) with the wrap-around of unsigned subtraction written out;
    a C++ [int] that is multiplied repeatedly is a [Z] wrapped to 32 bits;
    [double] is read over exact real arithmetic ([R]); [std::map] is a
    [gmap]; code that mutates the run data or the file system and throws
    is a state-and-exception monad whose state survives a throw, as the
    state of a C++ object does. *)

From Stdlib Require Import ZArith Lia String Ascii List Reals Lra DecimalString.
From Stdlib Require DecimalPos DecimalZ.
From stdpp Require Import gmap strings list.
Import ListNotations.

(** ** Part I: the model *)

(** *** [size_t] and [std::string] *)

Definition size_t_modulus : Z := (2 ^ 64)%Z.

(** [std::string::npos], the largest [size_t]. *)
Definition npos : Z := (2 ^ 64 - 1)%Z.

(** Unsigned arithmetic on [size_t] is modulo 2^64. *)
Definition size_t_wrap (z : Z) : Z := (z mod size_t_modulus)%Z.

Definition str_size (s : string) : Z := Z.of_nat (String.length s).

(** Index of the first character satisfying [p]. *)
Fixpoint first_index (p : ascii -> bool) (s : string) : option nat :=
  match s with
  | EmptyString => None
  | String c s' => if p c then Some O else option_map S (first_index p s')
  end.

(** Index of the last character satisfying [p]. *)
Fixpoint last_index (p : ascii -> bool) (s : string) : option nat :=
  match s with
  | EmptyString => None
  | String c s' =>
      match last_index p s' with
      | Some i => Some (S i)
      | None => if p c then Some O else None
      end
  end.

Definition index_or_npos (o : option nat) : Z :=
  match o with
  | Some i => Z.of_nat i
  | None => npos
  end.

(** [s.find(c)] for a one-character pattern. *)
Definition find (s : string) (c : ascii) : Z :=
  index_or_npos (first_index (Ascii.eqb c) s).

(** [s.find_first_not_of(c)]. *)
Definition find_first_not_of (s : string) (c : ascii) : Z :=
  index_or_npos (first_index (fun x => negb (Ascii.eqb x c)) s).

(** [s.find_last_not_of(c)]. *)
Definition find_last_not_of (s : string) (c : ascii) : Z :=
  index_or_npos (last_index (fun x => negb (Ascii.eqb x c)) s).

(** [s.substr(pos, count)], also the constructor [string(s, pos, count)]:
    the characters from [pos], at most [count] of them and at most up to the
    end.  The library throws [out_of_range] when [pos > s.size()]; the calls
    below have [pos <= s.size()]: [pos] is 0, or an index that a search
    returned (plus one, see [find_lt_size]), or 2 after the first two
    characters were compared. *)
Definition substr (s : string) (pos count : Z) : string :=
  let rlen := Z.min count (str_size s - pos) in
  substring (Z.to_nat pos) (Z.to_nat rlen) s.

Definition space : ascii := " "%char.
Definition newline : ascii := ascii_of_nat 10.
Definition hash : ascii := "#"%char.
Definition equals : ascii := "="%char.

(** [isspace] in the C locale: space, and the control characters 9 to 13. *)
Definition isspace (c : ascii) : bool :=
  let n := nat_of_ascii c in
  (n =? 32)%nat || ((9 <=? n)%nat && (n <=? 13)%nat).

Definition string_eqb (a b : string) : bool := bool_decide (a = b).

(** [static string trim(string const &str)] of dataset.cc. *)
Definition trim (str : string) : string :=
  if string_eqb str "" then str
  else
    let firstScan := find_first_not_of str space in
    let first := if (firstScan =? npos)%Z then str_size str else firstScan in
    let last := find_last_not_of str space in
    substr str first (size_t_wrap (last - first + 1)).

(** *** Exceptions, the world and the monad *)

Inductive exn : Type :=
| FabberRunDataError (msg : string)
| InvalidOptionValue (key value reason : string)
| FabberInternalError (msg : string)
| DataNotFound (key : string)
| NewmatException (what : string)
| AssertionFailure (what : string)
| NullString.

Inductive outcome (A : Type) : Type :=
| Return (a : A)
| Throw (e : exn).
Arguments Return {A} a.
Arguments Throw {A} e.

(** A path of the file system holds a directory or a readable regular file. *)
Inductive node : Type :=
| Dir
| File (content : string).

Inductive errno_t : Type :=
| EEXIST
| EOTHER.

(** The members of [FabberRunData] that the modelled methods touch
    ([m_params], [m_outdir]), the libraries handed to
    [FwdModel::LoadFromDynamicLibrary], and the part of the operating system
    they see: the file system, the paths at which [mkdir] fails for a reason
    other than the path existing (missing parent, no permission), and the
    commands passed to [system]. *)
Record World : Type := mkWorld {
  m_params : gmap string string;
  m_outdir : string;
  loaded_libraries : list string;
  fs : gmap string node;
  mkdir_denied : gset string;
  shell_log : list string;
}.

Definition M (A : Type) : Type := World -> outcome A * World.

Definition ret {A} (a : A) : M A := fun w => (Return a, w).

Definition throw {A} (e : exn) : M A := fun w => (Throw e, w).

Definition bind {A B} (c : M A) (k : A -> M B) : M B :=
  fun w =>
    match c w with
    | (Return a, w') => k a w'
    | (Throw e, w') => (Throw e, w')
    end.

#[global] Instance M_ret : MRet M := @ret.
#[global] Instance M_bind : MBind M := fun A B k c => bind c k.

Definition get_world : M World := fun w => (Return w, w).

Definition set_params (p : gmap string string) : M unit :=
  fun w => (Return tt,
            mkWorld p (m_outdir w) (loaded_libraries w) (fs w)
                    (mkdir_denied w) (shell_log w)).

Definition set_outdir (d : string) : M unit :=
  fun w => (Return tt,
            mkWorld (m_params w) d (loaded_libraries w) (fs w)
                    (mkdir_denied w) (shell_log w)).

Definition set_fs (f : gmap string node) : M unit :=
  fun w => (Return tt,
            mkWorld (m_params w) (m_outdir w) (loaded_libraries w) f
                    (mkdir_denied w) (shell_log w)).

(** [FwdModel::LoadFromDynamicLibrary(value, m_log)]: the loader is outside
    the modelled code; the call is recorded. *)
Definition LoadFromDynamicLibrary (lib : string) : M unit :=
  fun w => (Return tt,
            mkWorld (m_params w) (m_outdir w) (loaded_libraries w ++ [lib])
                    (fs w) (mkdir_denied w) (shell_log w)).

(** [system(cmd)]: the command is recorded. *)
Definition system (cmd : string) : M unit :=
  fun w => (Return tt,
            mkWorld (m_params w) (m_outdir w) (loaded_libraries w) (fs w)
                    (mkdir_denied w) (shell_log w ++ [cmd])).

(** *** Options: [AddKeyEqualsValue], [GetBool], [GetStringDefault] *)

(** [void FabberRunData::AddKeyEqualsValue(const string &exp, bool trim_comments)]. *)
Definition AddKeyEqualsValue (exp : string) (trim_comments : bool) : M unit :=
  let eqPos := find exp equals in
  let key := trim (substr exp 0 eqPos) in
  if negb (eqPos =? npos)%Z then
    let end_ := if trim_comments then find exp hash else npos in
    let value :=
      trim (substr exp (eqPos + 1) (size_t_wrap (end_ - (eqPos + 1)))) in
    w ← get_world;
    match m_params w !! key with
    | Some old =>
        throw (InvalidOptionValue key value ("Already has a value: " +:+ old))
    | None =>
        if string_eqb key "loadmodels" then LoadFromDynamicLibrary value
        else set_params (<[key := value]> (m_params w))
    end
  else
    w ← get_world;
    set_params (<[exp := ""]> (m_params w)).

(** Modelled from the spec: the default of [trim_comments] is declared in
    rundata.h, which is not among the sources; the legacy file format has no
    comments, so the default does not trim them. *)
Definition trim_comments_default : bool := false.

(** [string FabberRunData::GetStringDefault(const string &key, const string &def) const]. *)
Definition GetStringDefault (key def : string) : M string :=
  w ← get_world;
  match m_params w !! key with
  | None => ret def
  | Some v => ret v
  end.

(** [bool FabberRunData::GetBool(const string &key)]. *)
Definition GetBool (key : string) : M bool :=
  w ← get_world;
  match m_params w !! key with
  | None => ret false
  | Some v =>
      if string_eqb v "" then ret true
      else throw (InvalidOptionValue key v
                    "Value should not be given for boolean option")
  end.

(** *** Parameter files and the command line *)

(** The lines that successive [std::getline] calls deliver: the text between
    newline characters.  After a final newline [getline] delivers one more,
    empty, string while setting the failure bits; the loop body still runs
    on it. *)
Fixpoint getlines (content : string) : list string :=
  match content with
  | EmptyString => [EmptyString]
  | String c rest =>
      if Ascii.eqb c newline then EmptyString :: getlines rest
      else
        match getlines rest with
        | [] => [String c EmptyString]
        | l :: ls => String c l :: ls
        end
  end.

(** [input[0]], for a non-empty string. *)
Definition first_char_is (c : ascii) (s : string) : bool :=
  match s with
  | EmptyString => false
  | String c' _ => Ascii.eqb c' c
  end.

(** The body of the loop of [ParseParamFile] on one line. *)
Definition ParseParamFile_line (line : string) : M unit :=
  let input := trim line in
  if (0 <? str_size input)%Z then
    if first_char_is hash input then ret tt
    else AddKeyEqualsValue input true
  else ret tt.

Fixpoint ParseParamFile_lines (lines : list string) : M unit :=
  match lines with
  | [] => ret tt
  | line :: rest => ParseParamFile_line line ;; ParseParamFile_lines rest
  end.

(** [void FabberRunData::ParseParamFile(const string &filename)].  Only a
    path that holds a regular file gives a stream that is good. *)
Definition ParseParamFile (filename : string) : M unit :=
  w ← get_world;
  match fs w !! filename with
  | Some (File content) => ParseParamFile_lines (getlines content)
  | _ => throw (FabberRunDataError
                  ("Couldn't read input options file:" +:+ filename))
  end.

(** Where control is in [ParseOldStyleParamFile] when the next character is
    read: in the outer loop, or in the inner loop that discards the rest of a
    comment line. *)
Inductive old_style_pc : Type :=
| InWords
| InComment.

(** The body of the outer loop after [is.get(c)]: the new [param], and
    whether the comment branch was taken. *)
Definition OldStyle_body (filename : string) (c : ascii) (param : string)
  : M (string * bool) :=
  if negb (isspace c) then ret (param +:+ String c EmptyString, false)
  else if string_eqb param "" then ret (param, false)
  else if string_eqb (substr param 0 2) "--" then
    AddKeyEqualsValue (substr param 2 npos) trim_comments_default ;;
    ret (EmptyString, false)
  else if string_eqb (substr param 0 1) "#" then ret (EmptyString, true)
  else if string_eqb (substr param 0 2) "-@" then
    throw (FabberRunDataError "Can only use -@ on the command line")
  else
    throw (FabberRunDataError
             ("Invalid data '" +:+ param +:+ "' found in file '"
              +:+ filename +:+ "'")).

(** The two loops of [ParseOldStyleParamFile] over the unread [input].
    [is.get(c)] at the end of the input leaves [c] as it was and makes the
    stream bad: the outer body runs once more on the old [c], then both
    loops stop. *)
Fixpoint OldStyle_loop (filename : string) (input : string) (c : ascii)
    (param : string) (pc : old_style_pc) : M unit :=
  match input with
  | EmptyString =>
      match pc with
      | InWords => OldStyle_body filename c param ;; ret tt
      | InComment => ret tt
      end
  | String c' rest =>
      match pc with
      | InWords =>
          r ← OldStyle_body filename c' param;
          OldStyle_loop filename rest c' (fst r)
            (if snd r && negb (Ascii.eqb c' newline) then InComment
             else InWords)
      | InComment =>
          OldStyle_loop filename rest c' param
            (if Ascii.eqb c' newline then InWords else InComment)
      end
  end.

(** [void FabberRunData::ParseOldStyleParamFile(const string &filename)].
    [c] is declared without a value; [c0] is whatever it holds. *)
Definition ParseOldStyleParamFile (c0 : ascii) (filename : string) : M unit :=
  w ← get_world;
  match fs w !! filename with
  | Some (File content) => OldStyle_loop filename content c0 EmptyString InWords
  | _ => throw (FabberRunDataError
                  ("Couldn't read input file: -@ " +:+ filename))
  end.

(** The loop of [Parse] with [args] the arguments from index [a] on.
    [argv[argc]] is the null pointer, from which no string can be built. *)
Fixpoint Parse_args (c0 : ascii) (args : list string) : M unit :=
  match args with
  | [] => ret tt
  | arg :: rest =>
      if string_eqb arg "-f" then
        match rest with
        | [] => throw NullString
        | file :: rest' =>
            ParseParamFile file ;;
            match rest' with
            | [] => ret tt
            | _ :: rest'' => Parse_args c0 rest''
            end
        end
      else if string_eqb (substr arg 0 2) "--" then
        AddKeyEqualsValue (substr arg 2 npos) trim_comments_default ;;
        Parse_args c0 rest
      else if string_eqb arg "-@" then
        match rest with
        | [] => throw NullString
        | file :: rest' =>
            ParseOldStyleParamFile c0 file ;;
            Parse_args c0 rest'
        end
      else
        throw (FabberRunDataError
                 ("Option '" +:+ arg +:+ "' doesn't begin with --"))
  end.

(** [void FabberRunData::Parse(int argc, char **argv)]. *)
Definition Parse (c0 : ascii) (argv : list string) : M unit :=
  match argv with
  | [] => throw NullString
  | argv0 :: args =>
      w ← get_world;
      set_params (<["" := argv0]> (m_params w)) ;;
      Parse_args c0 args
  end.

(** *** The output directory *)

(** [mkdir(path, 0777)]: [None] for success, else the [errno]. *)
Definition mkdir (path : string) : M (option errno_t) :=
  w ← get_world;
  match fs w !! path with
  | Some _ => ret (Some EEXIST)
  | None =>
      if bool_decide (path ∈ mkdir_denied w) then ret (Some EOTHER)
      else set_fs (<[path := Dir]> (fs w)) ;; ret None
  end.

(** [static bool is_dir(string path)]. *)
Definition is_dir (path : string) : M bool :=
  w ← get_world;
  match fs w !! path with
  | Some Dir => ret true
  | _ => ret false
  end.

Definition errno_is_EEXIST (e : errno_t) : bool :=
  match e with
  | EEXIST => true
  | EOTHER => false
  end.

(** The [while (true)] loop of [GetOutputDir]; [count] is 50 minus
    [attempts_left]. *)
Fixpoint GetOutputDir_loop (attempts_left : nat) (overwrite : bool) : M unit :=
  match attempts_left with
  | O =>
      w ← get_world;
      throw (FabberInternalError
               ("Cannot create output directory (bad path, or too many + signs?): "
                +:+ m_outdir w))
  | S n =>
      w ← get_world;
      r ← mkdir (m_outdir w);
      match r with
      | None => ret tt
      | Some e =>
          if overwrite then
            d ← is_dir (m_outdir w);
            if errno_is_EEXIST e && d then ret tt
            else
              throw (FabberInternalError
                       ("Unexpected problem creating output directory in overwrite mode: "
                        +:+ m_outdir w))
          else
            set_outdir (m_outdir w +:+ "+") ;;
            GetOutputDir_loop n overwrite
      end
  end.

(** The end of [GetOutputDir], after the loop: the two [system] calls of
    the non-Windows build and the [return]. *)
Definition GetOutputDir_finish (basename : string) : M string :=
  w1 ← get_world;
  system ("uname -a > " +:+ m_outdir w1 +:+ "/uname.txt") ;;
  link ← GetBool "link-to-latest";
  (if link : bool then
     system ("ln -sfn '" +:+ m_outdir w1 +:+ "' '" +:+ basename
             +:+ "_latest'")
   else (ret tt : M unit)) ;;
  ret (m_outdir w1).

(** [string FabberRunData::GetOutputDir()]. *)
Definition GetOutputDir : M string :=
  w ← get_world;
  if negb (string_eqb (m_outdir w) "") then ret (m_outdir w)
  else
    basename ← GetStringDefault "output" "";
    if string_eqb basename "" then set_outdir "." ;; ret "."
    else
      overwrite ← GetBool "overwrite";
      set_outdir basename ;;
      GetOutputDir_loop 50 overwrite ;;
      GetOutputDir_finish basename.

(** *** Voxel data from several files *)

(** A NEWMAT matrix: its number of columns and its rows.  Rows and columns
    are numbered from 1. *)
Record Matrix (A : Type) : Type := mkMatrix {
  Ncols : nat;
  rows : list (list A);
}.
Arguments mkMatrix {A} Ncols rows.
Arguments Ncols {A} m.
Arguments rows {A} m.

Definition Nrows {A} (m : Matrix A) : nat := length (rows m).

(** [m.ReSize(r, c)]: the elements are not initialised; [uninit] stands for
    what they hold. *)
Definition ReSize {A} (uninit : A) (r c : nat) : Matrix A :=
  mkMatrix c (replicate r (replicate c uninit)).

Definition obind {A B} (o : outcome A) (k : A -> outcome B) : outcome B :=
  match o with
  | Return a => k a
  | Throw e => Throw e
  end.

(** [dst.Row(k) = src.Row(i)]; NEWMAT throws on an index out of range and on
    rows of different widths. *)
Definition assign_Row {A} (dst : Matrix A) (k : nat) (src : Matrix A) (i : nat)
  : outcome (Matrix A) :=
  match rows src !! (i - 1)%nat with
  | None => Throw (NewmatException "index out of range")
  | Some r =>
      if (i =? 0)%nat || (k =? 0)%nat || (Nrows dst <? k)%nat then
        Throw (NewmatException "index out of range")
      else if negb (Ncols src =? Ncols dst)%nat then
        Throw (NewmatException "incompatible dimensions")
      else Return (mkMatrix (Ncols dst) (<[(k - 1)%nat := r]> (rows dst)))
  end.

(** [m &= d]: [d] stacked below [m]. *)
Definition vconcat {A} (m d : Matrix A) : outcome (Matrix A) :=
  if negb (Ncols m =? Ncols d)%nat then
    Throw (NewmatException "incompatible dimensions")
  else Return (mkMatrix (Ncols m) (rows m ++ rows d)).

(** [for (int i = from; i < from + count; i++) body]. *)
Fixpoint for_loop {A} (body : nat -> A -> outcome A) (from count : nat) (a : A)
  : outcome A :=
  match count with
  | O => Return a
  | S n => obind (body from a) (for_loop body (S from) n)
  end.

(** The body of the inner loop of the interleave branch. *)
Definition interleave_assign {A} (dataSets : list (Matrix A))
    (nSets nTimes i j : nat) (m : Matrix A) : outcome (Matrix A) :=
  match dataSets !! j with
  | None => Throw (NewmatException "index out of range")
  | Some d =>
      if negb (Nrows d =? nTimes)%nat then
        Throw (InvalidOptionValue "data-order" "interleave"
                 "Data sets must all have the same number of time points")
      else assign_Row m (nSets * i + j + 1) d (i + 1)
  end.

Definition interleave {A} (uninit : A) (dataSets : list (Matrix A))
    (d0 : Matrix A) : outcome (Matrix A) :=
  let nSets := length dataSets in
  let nTimes := Nrows d0 in
  for_loop
    (fun i => for_loop (interleave_assign dataSets nSets nTimes i) 0 nSets)
    0 nTimes (ReSize uninit (nTimes * nSets) (Ncols d0)).

Fixpoint concatenate {A} (m : Matrix A) (others : list (Matrix A))
  : outcome (Matrix A) :=
  match others with
  | [] => Return m
  | d :: rest => obind (vconcat m d) (fun m' => concatenate m' rest)
  end.

Definition lift {A} (o : outcome A) : M A := fun w => (o, w).

(** [const Matrix &FabberRunData::GetMainVoxelDataMultiple()], from the point
    where [dataSets] holds the matrices of data1, data2, ... in that order. *)
Definition GetMainVoxelDataMultiple {A} (uninit : A)
    (dataSets : list (Matrix A)) : M (Matrix A) :=
  order ← GetStringDefault "data-order" "interleave";
  let nSets := length dataSets in
  match dataSets with
  | [] => throw (DataNotFound "data")
  | d0 :: others =>
      if string_eqb order "singlefile" && (1 <? nSets)%nat then
        throw (InvalidOptionValue "data-order" "singlefile"
                 "More than one file specified")
      else if string_eqb order "interleave" then
        lift (interleave uninit dataSets d0)
      else if string_eqb order "concatenate" then
        lift (concatenate d0 others)
      else if string_eqb order "singlefile" then ret d0
      else throw (InvalidOptionValue "data-order" order "Value not recognized")
  end.

(** *** Parameter transforms (transforms.h) *)

(** The calls a transform makes into the mathematical library. *)
Inductive libm_call : Type :=
| libm_exp (x : R)
| libm_log (x : R).

(** A value together with the library calls made to compute it. *)
Definition traced (A : Type) : Type := (A * list libm_call)%type.

Definition tret {A} (a : A) : traced A := (a, []).

Definition tbind {A B} (t : traced A) (k : A -> traced B) : traced B :=
  let r := k (fst t) in (fst r, snd t ++ snd r).

Definition call_exp (x : R) : traced R := (exp x, [libm_exp x]).

Definition call_log (x : R) : traced R := (ln x, [libm_log x]).

Definition value {A} (t : traced A) : A := fst t.

Definition calls {A} (t : traced A) : list libm_call := snd t.

(** [class Transform]: the two pure virtual scalar maps. *)
Record Transform : Type := mkTransform {
  ToModel : R -> traced R;
  ToFabber : R -> traced R;
}.

Definition IdentityTransform : Transform :=
  {| ToModel := fun val => tret val;
     ToFabber := fun val => tret val |}.

Definition LogTransform : Transform :=
  {| ToModel := fun val => call_exp val;
     ToFabber := fun val => call_log val |}.

Definition SoftPlusTransform : Transform :=
  {| ToModel := fun val => tbind (call_exp val) (fun e => call_log (1 + e)%R);
     ToFabber := fun val => tbind (call_exp val) (fun e => call_log (e - 1)%R) |}.

(** *** The polynomial forward model (fwdmodel_poly.cc) *)

(** A 32-bit two's-complement [int] after an arithmetic operation. *)
Definition int_wrap (z : Z) : Z := ((z + 2 ^ 31) mod 2 ^ 32 - 2 ^ 31)%Z.

(** Modelled from the spec: [stringify] is declared in a header that is not
    among the sources; it renders an integer in decimal, as the parameter
    names c0, c1, ... require. *)
Definition stringify (i : Z) : string := NilZero.string_of_int (Z.to_int i).

(** One round of the inner loop of [Evaluate]: [res += params(n + 1) * p;
    p *= i;]. *)
Definition Evaluate_step (params : list R) (i : Z) (st : R * Z) (n : nat)
  : R * Z :=
  ((fst st + nth n params 0%R * IZR (snd st))%R, int_wrap (snd st * i)).

(** The inner loop, [for (int n = 0; n <= m_degree; n++)], from
    [res = 0; p = 1]. *)
Definition Evaluate_at (m_degree : Z) (params : list R) (i : Z) : R :=
  fst (fold_left (Evaluate_step params i)
         (seq 0 (Z.to_nat (m_degree + 1))) (0%R, 1%Z)).

(** [void PolynomialFwdModel::Evaluate(params, result) const], for data with
    [data_Nrows] rows. *)
Definition Evaluate (m_degree : Z) (data_Nrows : nat) (params : list R)
  : outcome (list R) :=
  if negb (Z.of_nat (length params) =? m_degree + 1)%Z then
    Throw (AssertionFailure "params.Nrows() == m_degree+1")
  else
    Return (map (fun i => Evaluate_at m_degree params (Z.of_nat i))
              (seq 1 data_Nrows)).

(** [int PolynomialFwdModel::NumParams() const]. *)
Definition NumParams (m_degree : Z) : Z := (m_degree + 1)%Z.

(** [void PolynomialFwdModel::NameParams(vector<string> &names) const]. *)
Definition NameParams (m_degree : Z) : list string :=
  map (fun i => "c" +:+ stringify (Z.of_nat i))
    (seq 0 (Z.to_nat (m_degree + 1))).

(** *** Saving a volume (fabber_io_newimage.cc) *)

(** Modelled from the spec: the enumeration [VoxelDataType] is declared in a
    header that is not among the sources; it distinguishes the final MVN
    output from scalar outputs. *)
Inductive VoxelDataType : Type :=
| VDT_SCALAR
| VDT_MVN.

(** The intent codes of nifti1.h. *)
Definition NIFTI_INTENT_NONE : Z := 0%Z.
Definition NIFTI_INTENT_SYMMATRIX : Z := 1005%Z.

(** What [save_volume4D] is given: the file name, the intent code and
    parameters set on the volume, and its number of volumes. *)
Record SavedVolume : Type := mkSavedVolume {
  sv_filename : string;
  sv_intent_code : Z;
  sv_intent_params : Z * Z * Z;
  sv_tsize : nat;
}.

(** [void FabberIoNewimage::SaveVoxelData(data, filename, data_type)], with
    the member [m_outdir] of the I/O object. *)
Definition SaveVoxelData {A} (io_outdir : string) (data : Matrix A)
    (filename : string) (data_type : VoxelDataType) : SavedVolume :=
  let nifti_intent_code :=
    match data_type with
    | VDT_MVN => NIFTI_INTENT_SYMMATRIX
    | _ => NIFTI_INTENT_NONE
    end in
  let data_size := Nrows data in
  let filename' :=
    if negb (string_eqb io_outdir "") then io_outdir +:+ "/" +:+ filename
    else filename in
  mkSavedVolume filename' nifti_intent_code (0, 0, 0)%Z data_size.

(** *** Further methods of [FabberRunData] (dataset.cc) *)

(** [void FabberRunData::Set(const string &key, const string &value)]. *)
Definition Set_ (key value : string) : M unit :=
  w ← get_world;
  set_params (<[key := value]> (m_params w)).

(** [void FabberRunData::SetBool(const string &key, bool value)]. *)
Definition SetBool (key : string) (value : bool) : M unit :=
  w ← get_world;
  if value then set_params (<[key := ""]> (m_params w))
  else set_params (delete key (m_params w)).

(** [void FabberRunData::Unset(const std::string &key)]. *)
Definition Unset (key : string) : M unit :=
  w ← get_world;
  set_params (delete key (m_params w)).

(** [bool FabberRunData::HaveKey(const string &key)]. *)
Definition HaveKey (key : string) : M bool :=
  w ← get_world;
  ret (bool_decide (is_Some (m_params w !! key))).

(** The exceptions of [Read], which adds one to those met so far. *)
Inductive read_exn : Type :=
| MandatoryOptionMissing (msg : string)
| ReadError (e : exn).

(** [string FabberRunData::Read(const string &key, const string &msg)]; it
    changes nothing, the [erase] that would consume the option being
    commented out. *)
Definition Read (key msg : string) (params : gmap string string)
  : read_exn + string :=
  match params !! key with
  | None => inl (MandatoryOptionMissing msg)
  | Some v =>
      if string_eqb v "" then
        inl (ReadError (InvalidOptionValue key "<no value>"
                          "Value must be given"))
      else inr v
  end.

(** [string FabberRunData::GetString(const string &key)]. *)
Definition GetString (key : string) (params : gmap string string)
  : read_exn + string :=
  Read key key params.

(** [void FabberRunData::init(bool compat_options)], after
    [FabberSetup::SetupDefaults()], which registers models and methods and
    leaves the options alone.  [SetBool(key)] is [SetBool(key, true)]. *)
Definition init (compat_options : bool) : M unit :=
  if compat_options then
    SetBool "save-mean" true ;;
    SetBool "save-std" true ;;
    SetBool "save-zstat" true ;;
    SetBool "save-noise-mean" true ;;
    SetBool "save-noise-std" true ;;
    SetBool "save-free-energy" true ;;
    SetBool "save-mvn" true
  else ret tt.

(** *** The voxel data store (dataset.cc) *)

(** [const Matrix &FabberRunData::LoadVoxelData(const std::string &key)], on
    the member [m_voxel_data]. *)
Definition LoadVoxelData {A} (vd : gmap string (Matrix A)) (key : string)
  : outcome (Matrix A) :=
  match vd !! key with
  | None => Throw (DataNotFound key)
  | Some m => Return m
  end.

(** The loop of [GetVoxelData] that follows an option to the option or file
    it names: [Some data_key] when the loop ends, [None] when [fuel] rounds
    did not end it. *)
Fixpoint GetVoxelData_loop (fuel : nat) (key key_cur data_key : string)
  : M (option string) :=
  if string_eqb key_cur "" then ret (Some data_key)
  else
    match fuel with
    | O => ret None
    | S fuel' =>
        next ← GetStringDefault key_cur "";
        if string_eqb next key then ret (Some key_cur)
        else GetVoxelData_loop fuel' key next key_cur
    end.

(** [const Matrix &FabberRunData::GetVoxelData(const std::string &key)]. *)
Definition GetVoxelData {A} (fuel : nat) (vd : gmap string (Matrix A))
    (key : string) : M (option (Matrix A)) :=
  r ← GetVoxelData_loop fuel key key "";
  match r with
  | None => ret None
  | Some data_key => m ← lift (LoadVoxelData vd data_key); ret (Some m)
  end.

(** The first entry of a [std::map] with string keys: the one whose key is
    least in the order of [std::string]. *)
Definition least_key (keys : list string) : option string :=
  foldr (fun k acc =>
           match acc with
           | None => Some k
           | Some k' => if String.ltb k k' then Some k else Some k'
           end) None keys.

Definition map_begin {V} (m : gmap string V) : option (string * V) :=
  match least_key (map fst (map_to_list m)) with
  | None => None
  | Some k =>
      match m !! k with
      | None => None
      | Some v => Some (k, v)
      end
  end.

(** [void FabberRunData::CheckSize(std::string key, const Matrix &mat)]. *)
Definition CheckSize {A} (vd : gmap string (Matrix A)) (key : string)
    (mat : Matrix A) : outcome unit :=
  match map_begin vd with
  | None => Return tt
  | Some (_, first) =>
      let nvoxels := Ncols first in
      if negb (Ncols mat =? nvoxels)%nat then
        Throw (InvalidOptionValue ("Voxels in " +:+ key)
                 (stringify (Z.of_nat (Ncols mat)))
                 ("Incorrect size - should contain "
                  +:+ stringify (Z.of_nat nvoxels)))
      else Return tt
  end.

(** [void FabberRunData::SetVoxelData(string key, const Matrix &data)]. *)
Definition SetVoxelData {A} (key : string) (data : Matrix A)
    (vd : gmap string (Matrix A)) : outcome (gmap string (Matrix A)) :=
  obind (CheckSize vd key data) (fun _ => Return (<[key := data]> vd)).

(** [void FabberRunData::ClearVoxelData(string key)]. *)
Definition ClearVoxelData {A} (key : string) (vd : gmap string (Matrix A))
  : gmap string (Matrix A) :=
  if negb (string_eqb key "") then delete key vd else ∅.

(** [try { c } catch (DataNotFound &e) { handler }]. *)
Definition catch_DataNotFound {A} (c : M A) (handler : string -> M A) : M A :=
  fun w =>
    match c w with
    | (Throw (DataNotFound key), w') => handler key w'
    | r => r
    end.

(** The first loop of [GetMainVoxelDataMultiple], from [n]: it loads data[n],
    data[n+1], ... until one is not found.  [None]: [rounds] did not
    suffice, or a [GetVoxelData] did not end. *)
Fixpoint collect_dataSets {A} (rounds fuel : nat) (vd : gmap string (Matrix A))
    (n : Z) : M (option (list (Matrix A))) :=
  match rounds with
  | O => ret None
  | S rounds' =>
      r ← catch_DataNotFound
            (d ← GetVoxelData fuel vd ("data" +:+ stringify n); ret (Some d))
            (fun _ => ret None);
      match r with
      | None => ret (Some [])
      | Some None => ret None
      | Some (Some d) =>
          rest ← collect_dataSets rounds' fuel vd (n + 1);
          ret (option_map (cons d) rest)
      end
  end.

(** [GetMainVoxelDataMultiple] from its start. *)
Definition GetMainVoxelDataMultiple_whole {A} (uninit : A) (rounds fuel : nat)
    (vd : gmap string (Matrix A)) : M (option (Matrix A)) :=
  dataSets ← collect_dataSets rounds fuel vd 1;
  match dataSets with
  | None => ret None
  | Some ds => m ← GetMainVoxelDataMultiple uninit ds; ret (Some m)
  end.

(** [const Matrix &FabberRunData::GetMainVoxelData()]. *)
Definition GetMainVoxelData {A} (uninit : A) (rounds fuel : nat)
    (vd : gmap string (Matrix A)) : M (option (Matrix A)) :=
  catch_DataNotFound (GetVoxelData fuel vd "data")
    (fun e =>
       r ← catch_DataNotFound (GetVoxelData fuel vd "data1")
             (fun _ => throw (DataNotFound e));
       match r with
       | None => ret None
       | Some _ => GetMainVoxelDataMultiple_whole uninit rounds fuel vd
       end).

(** [const Matrix &FabberRunData::GetVoxelSuppData()], with the member
    [m_empty], a matrix without rows or columns. *)
Definition GetVoxelSuppData {A} (fuel : nat) (vd : gmap string (Matrix A))
  : M (option (Matrix A)) :=
  catch_DataNotFound (GetVoxelData fuel vd "suppdata")
    (fun _ => ret (Some (mkMatrix 0 []))).

(** *** Progress in percent (dataset.cc) *)

Definition backspace : ascii := ascii_of_nat 8.

(** [void PercentProgressCheck::Progress(int voxel, int nVoxels)] on the
    member [m_last] and the text written to [cout]. *)
Definition Progress (voxel nVoxels : Z) (st : Z * list string)
  : Z * list string :=
  let m_last := fst st in
  let out := snd st in
  if (nVoxels =? 0)%Z then (m_last, out ++ ["100%"; String newline ""])
  else
    let percent := Z.quot (int_wrap (100 * voxel)) nVoxels in
    if (m_last <? percent)%Z then
      let out1 := out ++ [String backspace (String backspace
                                              (String backspace ""))] in
      let out2 := if (percent =? 0)%Z then out1 ++ [" "] else out1 in
      let out3 := out2 ++ [stringify percent; "%"] in
      let out4 := if (percent =? 100)%Z then out3 ++ [String newline ""]
                  else out3 in
      (percent, out4)
    else (m_last, out).

(** *** The output directory of the image I/O (fabber_io_newimage.cc) *)


(** *** Vocabulary of the statements *)

(** Some character of [s] satisfies [p]. *)
Fixpoint string_exists (p : ascii -> bool) (s : string) : bool :=
  match s with
  | EmptyString => false
  | String c s' => p c || string_exists p s'
  end.

Definition has_char (c : ascii) (s : string) : bool :=
  string_exists (Ascii.eqb c) s.

Definition not_space (c : ascii) : bool := negb (Ascii.eqb c space).

(** [s] without its leading spaces. *)
Fixpoint lstrip (s : string) : string :=
  match s with
  | EmptyString => EmptyString
  | String c s' => if Ascii.eqb c space then lstrip s' else s
  end.

(** [s] without its trailing spaces. *)
Fixpoint rstrip (s : string) : string :=
  match s with
  | EmptyString => EmptyString
  | String c s' =>
      match rstrip s' with
      | EmptyString => if Ascii.eqb c space then EmptyString
                       else String c EmptyString
      | r => String c r
      end
  end.

(** Stripping leading and trailing spaces, as the specification words it. *)
Definition strip (s : string) : string := rstrip (lstrip s).

(** [n] copies of [c]. *)
Fixpoint repeat_char (c : ascii) (n : nat) : string :=
  match n with
  | O => EmptyString
  | S n' => String c (repeat_char c n')
  end.

(** The text of [s] before its first [c]; all of [s] when there is none. *)
Fixpoint before_char (c : ascii) (s : string) : string :=
  match s with
  | EmptyString => EmptyString
  | String c' s' => if Ascii.eqb c c' then EmptyString
                    else String c' (before_char c s')
  end.

(** [s] without its first [n] characters. *)
Fixpoint string_drop (n : nat) (s : string) : string :=
  match n, s with
  | O, _ => s
  | S n', EmptyString => EmptyString
  | S n', String _ s' => string_drop n' s'
  end.

(** The text that [AddKeyEqualsValue] takes the value from, for the
    expression [k=v]: with comment trimming the value stops at the first
    '#', unless a '#' stands before the '=' sign. *)
Definition value_text (trim_comments : bool) (k v : string) : string :=
  if trim_comments then
    if has_char hash k then v
    else before_char hash v
  else v.

(** Recording the option [key=value]: refused when [key] has a value,
    handed to the model loader when [key] is loadmodels, stored otherwise. *)
Definition record_option (key value : string) (w : World) : outcome unit * World :=
  match m_params w !! key with
  | Some old =>
      (Throw (InvalidOptionValue key value ("Already has a value: " +:+ old)), w)
  | None =>
      if string_eqb key "loadmodels" then LoadFromDynamicLibrary value w
      else set_params (<[key := value]> (m_params w)) w
  end.

(** The text of [s] after its first [c]; empty when there is none. *)
Fixpoint after_char (c : ascii) (s : string) : string :=
  match s with
  | EmptyString => EmptyString
  | String c' s' => if Ascii.eqb c c' then s' else after_char c s'
  end.


(** Computing [f x] makes no call of the library exponential on [x]. *)
Definition avoids_exp_of (f : R -> traced R) (x : R) : Prop :=
  ~ In (libm_exp x) (calls (f x)).

(** A world with the given options and nothing else. *)
Definition world_with_params (params : list (string * string)) : World :=
  mkWorld (list_to_map params) "" [] ∅ ∅ [].

(** A world with the given readable files and nothing else. *)
Definition world_with_files (files : list (string * string)) : World :=
  mkWorld ∅ "" [] (list_to_map (map (fun p => (fst p, File (snd p))) files))
    ∅ [].

(** The lines of an option file, as the specification describes them: a
    blank line of [n] spaces; a comment, [n] spaces before a '#' and its
    text; an option [k=v] between [n] leading and [m] trailing spaces. *)
Inductive param_line : Type :=
| BlankLine (n : nat)
| CommentLine (n : nat) (text : string)
| OptionLine (n : nat) (k v : string) (m : nat).

Definition spaces (n : nat) : string := repeat_char space n.

Definition render_line (l : param_line) : string :=
  match l with
  | BlankLine n => spaces n
  | CommentLine n text => spaces n +:+ String hash text
  | OptionLine n k v m => spaces n +:+ (k +:+ String equals v) +:+ spaces m
  end.

(** The text of a file of such lines, each ended by a newline. *)
Fixpoint render_file (ls : list param_line) : string :=
  match ls with
  | [] => EmptyString
  | l :: rest => render_line l +:+ String newline (render_file rest)
  end.

Fixpoint ends_with_space (s : string) : bool :=
  match s with
  | EmptyString => false
  | String c EmptyString => Ascii.eqb c space
  | String _ s' => ends_with_space s'
  end.

(** A key: no '=', '#' or newline in it, no space at either end. *)
Definition plain_key (k : string) : bool :=
  negb (has_char equals k) && negb (has_char hash k)
  && negb (has_char newline k)
  && negb (first_char_is space k) && negb (ends_with_space k).

(** A value: no '#' or newline in it, no space at either end. *)
Definition plain_value (v : string) : bool :=
  negb (has_char hash v) && negb (has_char newline v)
  && negb (first_char_is space v) && negb (ends_with_space v).

Definition well_formed_line (l : param_line) : bool :=
  (str_size (render_line l) <=? npos)%Z
  && match l with
     | BlankLine _ => true
     | CommentLine _ text => negb (has_char newline text)
     | OptionLine _ k v _ => plain_key k && plain_value v
     end.

(** The options a file of such lines spells, in order. *)
Fixpoint options_of (ls : list param_line) : list (string * string) :=
  match ls with
  | [] => []
  | OptionLine _ k v _ :: rest => (k, v) :: options_of rest
  | _ :: rest => options_of rest
  end.

(** Recording options one after the other, up to the first that throws. *)
Fixpoint record_options (kvs : list (string * string)) : M unit :=
  match kvs with
  | [] => ret tt
  | kv :: rest => record_option (fst kv) (snd kv) ;; record_options rest
  end.


(** A word of a legacy option file: no whitespace character in it. *)
Definition is_word (s : string) : bool :=
  negb (string_eqb s "") && negb (string_exists isspace s)
  && (str_size s <=? npos)%Z.

(** The text of a legacy option file that spells the options [kvs], one
    word --k=v per line. *)
Fixpoint render_old_style (kvs : list (string * string)) : string :=
  match kvs with
  | [] => EmptyString
  | kv :: rest =>
      ("--" +:+ (fst kv +:+ String equals (snd kv)))
      +:+ String newline (render_old_style rest)
  end.

(** What the outer loop of [ParseOldStyleParamFile] does with the complete
    word [word] when the whitespace character [s] ends it and [rest] is
    still unread. *)
Definition old_style_dispatch (filename word : string) (s : ascii)
    (rest : string) : M unit :=
  if String.prefix "--" word then
    AddKeyEqualsValue (string_drop 2 word) false ;;
    OldStyle_loop filename rest s EmptyString InWords
  else if String.prefix "#" word then
    OldStyle_loop filename rest s EmptyString
      (if Ascii.eqb s newline then InWords else InComment)
  else if String.prefix "-@" word then
    throw (FabberRunDataError "Can only use -@ on the command line")
  else
    throw (FabberRunDataError
             ("Invalid data '" +:+ word +:+ "' found in file '"
              +:+ filename +:+ "'")).

(** [base] followed by [k] plus signs. *)
Definition plus_suffix (base : string) (k : nat) : string :=
  base +:+ repeat_char "+"%char k.

(** [mkdir] of [path] fails in [w]: the path exists, or creating it is
    denied. *)
Definition mkdir_fails (w : World) (path : string) : bool :=
  bool_decide (is_Some (fs w !! path)) || bool_decide (path ∈ mkdir_denied w).

(** The boolean option [key] is absent or given as a bare flag. *)
Definition flag_or_absent (w : World) (key : string) : bool :=
  match m_params w !! key with
  | None => true
  | Some v => string_eqb v ""
  end.

(** A new run with the options [params] on the file system that the run
    [w] left behind. *)
Definition next_run (params : gmap string string) (w : World) : World :=
  mkWorld params "" [] (fs w) (mkdir_denied w) (shell_log w).

(** The world [w] with [d] as the output directory of the run. *)
Definition with_outdir (d : string) (w : World) : World :=
  mkWorld (m_params w) d (loaded_libraries w) (fs w) (mkdir_denied w)
    (shell_log w).

(** A world with the given options and existing directories. *)
Definition world_with_dirs (params : list (string * string))
    (dirs : list string) : World :=
  mkWorld (list_to_map params) "" []
    (list_to_map (map (fun d => (d, Dir)) dirs)) ∅ [].

(** The row that interleaving puts at the 0-based index [idx] of the
    combined matrix: row [idx / nSets] of file [idx mod nSets]. *)
Definition interleaved_row {A} (dataSets : list (Matrix A)) (idx : nat)
  : option (list A) :=
  match dataSets !! (idx mod length dataSets)%nat with
  | Some d => rows d !! (idx / length dataSets)%nat
  | None => None
  end.

(** The invariant of the two loops of the interleave branch after [k] rows
    have been assigned. *)
Definition interleave_invariant {A} (dataSets : list (Matrix A))
    (d0 : Matrix A) (k : nat) (m : Matrix A) : Prop :=
  Ncols m = Ncols d0
  /\ Nrows m = (Nrows d0 * length dataSets)%nat
  /\ forall idx, (idx < k)%nat ->
                 rows m !! idx = interleaved_row dataSets idx.

(** [f 0 + f 1 + ... + f (n - 1)], added in this order. *)
Fixpoint sum_upto (f : nat -> R) (n : nat) : R :=
  match n with
  | O => 0%R
  | S n' => (sum_upto f n' + f n')%R
  end.

(** The value of the [int] variable [p] of [Evaluate] at the start of round
    [n] of the inner loop, for the row index [i]. *)
Fixpoint wrapped_power (i : Z) (n : nat) : Z :=
  match n with
  | O => 1%Z
  | S n' => int_wrap (wrapped_power i n' * i)
  end.

(** The indices of the argument vector at which the loop of [Parse]
    examines an argument, when [args] are the arguments from index [a] on
    and nothing throws before. *)
Fixpoint Parse_indices (args : list string) (a : nat) : list nat :=
  match args with
  | [] => []
  | arg :: rest =>
      a :: (if string_eqb arg "-f" then
              match rest with
              | _ :: _ :: rest'' => Parse_indices rest'' (a + 3)
              | _ => []
              end
            else if string_eqb (substr arg 0 2) "--" then
              Parse_indices rest (a + 1)
            else if string_eqb arg "-@" then
              match rest with
              | _ :: rest' => Parse_indices rest' (a + 2)
              | [] => []
              end
            else [])
  end.

(** The command-line argument that spells the option [k=v]. *)
Definition option_arg (kv : string * string) : string :=
  "--" +:+ (fst kv +:+ String equals (snd kv)).

(** An option as it is recorded: key and value stripped. *)
Definition stripped (kv : string * string) : string * string :=
  (strip (fst kv), strip (snd kv)).

(** The key has no '=', and [k=v] has a size that is a [size_t]. *)
Definition sized_option (kv : string * string) : bool :=
  negb (has_char equals (fst kv))
  && (str_size (fst kv +:+ String equals (snd kv)) <=? npos)%Z.

(** The world [w] with the options [p]. *)
Definition with_params (p : gmap string string) (w : World) : World :=
  mkWorld p (m_outdir w) (loaded_libraries w) (fs w) (mkdir_denied w)
    (shell_log w).

(** An option whose key and value hold no whitespace and no '#', the key no
    '=' either. *)
Definition simple_option (kv : string * string) : bool :=
  negb (string_exists isspace (fst kv))
  && negb (string_exists isspace (snd kv))
  && negb (has_char hash (fst kv)) && negb (has_char hash (snd kv))
  && negb (has_char equals (fst kv))
  && (str_size (option_arg kv) <=? npos)%Z.

(** The line of a -f file that spells the option, with no space around. *)
Definition option_line (kv : string * string) : param_line :=
  OptionLine 0 (fst kv) (snd kv) 0.

(** From the option [cur] the values lead, option by option through
    [rest], to [last], whose value is absent, empty or [key] again. *)
Fixpoint leads_to (params : gmap string string) (key cur : string)
    (rest : list string) (last : string) : Prop :=
  match rest with
  | [] =>
      cur = last
      /\ (params !! cur = None \/ params !! cur = Some ""
          \/ params !! cur = Some key)
  | next :: rest' =>
      params !! cur = Some next /\ next <> "" /\ next <> key
      /\ leads_to params key next rest' last
  end.

(** Every stored matrix has [n] columns. *)
Definition uniform_voxels {A} (vd : gmap string (Matrix A)) (n : nat) : Prop :=
  forall k m, vd !! k = Some m -> Ncols m = n.

(** The polynomial with the coefficients [params], at [t]. *)
Definition polynomial (params : list R) (t : R) : R :=
  sum_upto (fun n => nth n params 0 * t ^ n)%R (length params).


(** *** Voxel coordinates and extent (dataset.cc) *)

(** The members [m_extent] and [m_dims]. *)
Record Extent : Type := mkExtent {
  m_extent : list Z;
  m_dims : list R;
}.

Definition Rleb (x y : R) : bool := if Rle_dec x y then true else false.

(** [void FabberRunData::SetExtent(int nx, int ny, int nz, float sx,
    float sy, float sz)]. *)
Definition SetExtent (nx ny nz : Z) (sx sy sz : R) : outcome Extent :=
  if (nx <? 0)%Z || (ny <? 0)%Z || (nz <? 0)%Z
     || Rleb sx 0 || Rleb sy 0 || Rleb sz 0 then
    Throw (InvalidOptionValue "extent" "negative values"
             "Extent and voxel sizes must be positive")
  else Return (mkExtent [nx; ny; nz] [sx; sy; sz]).

(** [row.Maximum()] and [row.Minimum()] of NEWMAT, for a row with entries. *)
Definition Maximum (row : list R) : R := fold_right Rmax (hd 0%R row) row.
Definition Minimum (row : list R) : R := fold_right Rmin (hd 0%R row) row.

(** The conversion of a [double] to [int]: towards zero. *)
Definition double_to_int (x : R) : Z :=
  if Rle_dec 0 x then Int_part x else (- Int_part (- x))%Z.

(** [void FabberRunData::SetVoxelCoords(const NEWMAT::Matrix &coords)], on
    the voxel store and the extent. *)
Definition SetVoxelCoords (coords : Matrix R)
    (st : gmap string (Matrix R) * Extent)
  : outcome (gmap string (Matrix R) * Extent) :=
  if (0 <? Ncols coords)%nat && negb (Nrows coords =? 3)%nat then
    Throw (InvalidOptionValue "Coordinates dimensions"
             (stringify (Z.of_nat (Nrows coords)))
             "Co-ordinates must be 3 dimensional")
  else
    obind (SetVoxelData "coords" coords (fst st))
      (fun vd =>
         if (length (m_extent (snd st)) =? 0)%nat then
           Return
             (vd,
              mkExtent
                (map (fun i =>
                        if (0 <? Ncols coords)%nat then
                          let row := nth i (rows coords) [] in
                          double_to_int (Maximum row - Minimum row + 1)
                        else 0%Z)
                   (seq 0 3))
                (map (fun _ => 1%R) (seq 0 3)))
         else Return (vd, snd st)).

(** *** The file of parameter names (dataset.cc) *)

(** The block of [FabberRunData::Run] that writes paramnames.txt, with
    [paramNames] as [NameParams] filled it: the name given to the
    [ofstream] and the text written to it, or nothing when
    dump-param-names is not set. *)
Definition Run_dump_param_names (paramNames : list string)
  : M (option (string * string)) :=
  dump ← GetBool "dump-param-names";
  if dump : bool then
    d ← GetStringDefault "output" ".";
    ret (Some (d +:+ "/paramnames.txt",
               fold_right (fun name text => name +:+ String newline text)
                 EmptyString paramNames))
  else ret None.

(** *** The model evaluation script *)

(** [s.split(sep)] of Python, for a separator of one character. *)
Fixpoint split (sep : ascii) (s : string) : list string :=
  match s with
  | EmptyString => [EmptyString]
  | String c rest =>
      if Ascii.eqb c sep then EmptyString :: split sep rest
      else
        match split sep rest with
        | [] => [String c EmptyString]
        | p :: ps => String c p :: ps
        end
  end.

(** The body of [for arg in sys.argv] on the dictionary [rundata];
    [s[2:]] is [string_drop 2 s]. *)
Definition script_arg (rundata : gmap string string) (arg : string)
  : gmap string string :=
  if String.prefix "--" arg then
    let parts := split equals arg in
    if (length parts =? 2)%nat then
      match parts with
      | p0 :: p1 :: _ => <[string_drop 2 p0 := p1]> rundata
      | _ => rundata
      end
    else if (length parts =? 1)%nat then <[string_drop 2 arg := ""]> rundata
    else rundata
  else rundata.

(** [rundata] after the loop over [sys.argv]. *)
Definition script_rundata (argv : list string) : gmap string string :=
  fold_left script_arg argv ∅.

(** The body of [for key, value in rundata.items()], on [params] and
    [rundata]; [model_params] is what [fab.get_model_params] returned. *)
Definition script_move (model_params : list string)
    (st : gmap string string * gmap string string) (item : string * string)
  : gmap string string * gmap string string :=
  if bool_decide (fst item ∈ model_params) then
    (<[fst item := snd item]> (fst st), delete (fst item) (snd st))
  else st.

(** The default of [nt], or the text that [int] is applied to. *)
Inductive script_nt : Type :=
| nt_default (n : Z)
| nt_given (text : string).

(** The script from [params = {}] to the arguments it passes to
    [fab.model_evaluate]: [rundata], [params] and [nt].  [items] is the
    list that [rundata.items()] returned, in the order of the dictionary. *)
Definition script_evaluate_arguments (model_params : list string)
    (items : list (string * string)) (rundata : gmap string string)
  : gmap string string * gmap string string * script_nt :=
  let st := fold_left (script_move model_params) items (∅, rundata) in
  let params := fst st in
  let rundata1 := snd st in
  match rundata1 !! "nt" with
  | Some text => (delete "nt" rundata1, params, nt_given text)
  | None => (rundata1, params, nt_default 10)
  end.

(** ** Part II: properties *)

(** *** The monad *)

Lemma bind_ret_l {A B} (a : A) (k : A -> M B) (w : World) :
  (ret a ≫= k) w = k a w.
Proof. reflexivity. Qed.

Lemma bind_ext {A B} (c : M A) (k1 k2 : A -> M B) (w : World) :
  (forall a w', k1 a w' = k2 a w') -> (c ≫= k1) w = (c ≫= k2) w.
Proof.
  intros H. unfold mbind, M_bind, bind.
  destruct (c w) as [[a|e] w']; [apply H|reflexivity].
Qed.

(** *** Strings *)

Lemma str_app_nil_l (s : string) : "" +:+ s = s.
Proof. reflexivity. Qed.

Lemma str_app_cons (c : ascii) (a b : string) :
  String c a +:+ b = String c (a +:+ b).
Proof. reflexivity. Qed.

Lemma str_app_nil_r (s : string) : s +:+ "" = s.
Proof.
  induction s as [|c s IH]; [reflexivity|].
  rewrite str_app_cons, IH. reflexivity.
Qed.

Lemma str_app_assoc (a b c : string) : (a +:+ b) +:+ c = a +:+ (b +:+ c).
Proof.
  induction a as [|x a IH]; [reflexivity|].
  rewrite !str_app_cons, IH. reflexivity.
Qed.

Lemma str_length_app (a b : string) :
  String.length (a +:+ b) = (String.length a + String.length b)%nat.
Proof.
  induction a as [|x a IH]; [reflexivity|].
  rewrite str_app_cons. simpl. rewrite IH. reflexivity.
Qed.

Lemma str_size_app (a b : string) :
  str_size (a +:+ b) = (str_size a + str_size b)%Z.
Proof. unfold str_size. rewrite str_length_app. lia. Qed.

Lemma str_size_nonneg (s : string) : (0 <= str_size s)%Z.
Proof. unfold str_size. lia. Qed.

Lemma string_eqb_true (a b : string) : string_eqb a b = true <-> a = b.
Proof. unfold string_eqb. apply bool_decide_eq_true. Qed.

Lemma string_eqb_false (a b : string) : string_eqb a b = false <-> a <> b.
Proof. unfold string_eqb. apply bool_decide_eq_false. Qed.

Lemma string_eqb_refl (a : string) : string_eqb a a = true.
Proof. apply string_eqb_true. reflexivity. Qed.

Lemma substring_zero_len (n : nat) (s : string) : substring n 0 s = "".
Proof.
  revert n. induction s as [|c s IH]; intros [|n]; simpl; auto.
Qed.

Lemma substring_whole (s : string) (m : nat) :
  (String.length s <= m)%nat -> substring 0 m s = s.
Proof.
  revert m. induction s as [|c s IH]; intros [|m] H; simpl in *;
    try reflexivity; try lia.
  f_equal. apply IH. lia.
Qed.

Lemma substring_prefix_app (a b : string) :
  substring 0 (String.length a) (a +:+ b) = a.
Proof.
  induction a as [|c a IH].
  - simpl. apply substring_zero_len.
  - rewrite str_app_cons. simpl. rewrite IH. reflexivity.
Qed.

Lemma substring_skip_app (a b : string) (m : nat) :
  substring (String.length a) m (a +:+ b) = substring 0 m b.
Proof.
  induction a as [|c a IH]; [reflexivity|].
  rewrite str_app_cons. simpl. exact IH.
Qed.

Lemma substring_drop (n m : nat) (s : string) :
  substring n m s = substring 0 m (string_drop n s).
Proof.
  revert s. induction n as [|n IH]; intros s; [reflexivity|].
  destruct s as [|c s]; simpl.
  - destruct m; reflexivity.
  - apply IH.
Qed.

Lemma string_drop_length (n : nat) (s : string) :
  String.length (string_drop n s) = (String.length s - n)%nat.
Proof.
  revert s. induction n as [|n IH]; intros [|c s]; simpl; auto with arith.
Qed.

Lemma string_drop_app (a b : string) :
  string_drop (String.length a) (a +:+ b) = b.
Proof.
  induction a as [|c a IH]; [reflexivity|].
  rewrite str_app_cons. simpl. exact IH.
Qed.

(** [substr] with a count that reaches the end of the string. *)
Lemma substr_to_end (s : string) (pos count : Z) :
  (0 <= pos)%Z -> (str_size s - pos <= count)%Z ->
  substr s pos count = string_drop (Z.to_nat pos) s.
Proof.
  intros Hpos Hcount. unfold substr.
  rewrite Z.min_r by lia. rewrite substring_drop.
  apply substring_whole. rewrite string_drop_length.
  unfold str_size. lia.
Qed.

Lemma substr_prefix_app (a b : string) :
  substr (a +:+ b) 0 (str_size a) = a.
Proof.
  unfold substr. rewrite str_size_app.
  rewrite Z.min_l by (pose proof (str_size_nonneg b); lia).
  unfold str_size. rewrite Nat2Z.id. apply substring_prefix_app.
Qed.

(** *** Searching *)

Lemma first_index_None (p : ascii -> bool) (s : string) :
  first_index p s = None <-> string_exists p s = false.
Proof.
  induction s as [|c s IH]; simpl; [tauto|].
  destruct (p c); simpl; [split; discriminate|].
  destruct (first_index p s); simpl.
  - split; [discriminate|]. intros H. apply IH in H. discriminate.
  - tauto.
Qed.

Lemma first_index_lt (p : ascii -> bool) (s : string) (i : nat) :
  first_index p s = Some i -> (i < String.length s)%nat.
Proof.
  revert i. induction s as [|c s IH]; intros i; simpl; [discriminate|].
  destruct (p c).
  - intros [= <-]. lia.
  - destruct (first_index p s) as [j|]; simpl; [|discriminate].
    intros [= <-]. specialize (IH j eq_refl). lia.
Qed.

Lemma first_index_app (p : ascii -> bool) (a : string) (c : ascii) (b : string) :
  string_exists p a = false -> p c = true ->
  first_index p (a +:+ String c b) = Some (String.length a).
Proof.
  intros Ha Hc. induction a as [|x a IH].
  - rewrite str_app_nil_l. simpl. rewrite Hc. reflexivity.
  - simpl in Ha. apply orb_false_iff in Ha as [Hx Ha].
    rewrite str_app_cons. simpl. rewrite Hx, (IH Ha). reflexivity.
Qed.

Lemma last_index_lt (p : ascii -> bool) (s : string) (i : nat) :
  last_index p s = Some i -> (i < String.length s)%nat.
Proof.
  revert i. induction s as [|c s IH]; intros i; simpl; [discriminate|].
  destruct (last_index p s) as [j|].
  - intros [= <-]. specialize (IH j eq_refl). lia.
  - destruct (p c); [|discriminate]. intros [= <-]. lia.
Qed.

Lemma last_index_None (p : ascii -> bool) (s : string) :
  last_index p s = None <-> string_exists p s = false.
Proof.
  induction s as [|c s IH]; simpl; [tauto|].
  destruct (last_index p s) as [j|].
  - split; [discriminate|]. intros H. apply orb_false_iff in H as [_ H].
    apply IH in H. discriminate.
  - destruct (p c); simpl; [split; discriminate|]. tauto.
Qed.

(** [find] of a character that occurs, in a string whose size is a
    [size_t], is below the size. *)
Lemma find_lt_size (s : string) (c : ascii) :
  find s c <> npos -> (0 <= find s c < str_size s)%Z.
Proof.
  unfold find. destruct (first_index (Ascii.eqb c) s) as [i|] eqn:E; simpl.
  - intros _. apply first_index_lt in E. unfold str_size. lia.
  - intros H. congruence.
Qed.

Lemma find_absent (s : string) (c : ascii) :
  has_char c s = false -> find s c = npos.
Proof.
  intros H. unfold find. apply first_index_None in H. rewrite H. reflexivity.
Qed.

Lemma find_app (a b : string) (c : ascii) :
  has_char c a = false -> find (a +:+ String c b) c = str_size a.
Proof.
  intros H. unfold find.
  rewrite first_index_app; [reflexivity|exact H|apply Ascii.eqb_refl].
Qed.

Lemma has_char_app (c : ascii) (a b : string) :
  has_char c (a +:+ b) = has_char c a || has_char c b.
Proof.
  unfold has_char. induction a as [|x a IH]; [reflexivity|].
  rewrite str_app_cons. simpl. rewrite IH. apply orb_assoc.
Qed.

Lemma first_index_app_l (p : ascii -> bool) (a b : string) :
  string_exists p a = true -> first_index p (a +:+ b) = first_index p a.
Proof.
  induction a as [|x a IH]; simpl; [discriminate|].
  rewrite ?str_app_cons. simpl. destruct (p x); simpl; [reflexivity|].
  intros H. rewrite (IH H). reflexivity.
Qed.

Lemma first_index_app_r (p : ascii -> bool) (a b : string) :
  string_exists p a = false ->
  first_index p (a +:+ b)
  = option_map (Nat.add (String.length a)) (first_index p b).
Proof.
  induction a as [|x a IH]; simpl.
  - intros _. rewrite str_app_nil_l. destruct (first_index p b); reflexivity.
  - rewrite ?str_app_cons. simpl. destruct (p x); simpl; [discriminate|].
    intros H. rewrite (IH H). destruct (first_index p b); reflexivity.
Qed.

Lemma before_char_first_index (c : ascii) (v : string) :
  before_char c v
  = match first_index (Ascii.eqb c) v with
    | Some h => substring 0 h v
    | None => v
    end.
Proof.
  induction v as [|x v IH]; simpl; [reflexivity|].
  destruct (Ascii.eqb c x); simpl; [reflexivity|].
  rewrite IH. destruct (first_index (Ascii.eqb c) v); reflexivity.
Qed.

(** *** [trim] strips the spaces at both ends *)

Lemma lstrip_all_spaces (s : string) :
  first_index not_space s = None -> lstrip s = "".
Proof.
  induction s as [|c s IH]; simpl; [reflexivity|].
  unfold not_space at 1. destruct (Ascii.eqb c space); simpl; [|discriminate].
  destruct (first_index not_space s); simpl; [discriminate|]. auto.
Qed.

Lemma lstrip_drop (s : string) (i : nat) :
  first_index not_space s = Some i -> string_drop i s = lstrip s.
Proof.
  revert i. induction s as [|c s IH]; intros i; simpl; [discriminate|].
  unfold not_space at 1. destruct (Ascii.eqb c space); simpl.
  - destruct (first_index not_space s) as [j|]; simpl; [|discriminate].
    intros [= <-]. simpl. apply IH. reflexivity.
  - intros [= <-]. reflexivity.
Qed.

Lemma last_index_lstrip (s : string) (i j : nat) :
  first_index not_space s = Some i -> last_index not_space s = Some j ->
  last_index not_space (lstrip s) = Some (j - i)%nat /\ (i <= j)%nat.
Proof.
  revert i j. induction s as [|c s IH]; intros i j; [discriminate|].
  cbn [first_index lstrip last_index]. unfold not_space at 1 4.
  destruct (Ascii.eqb c space) eqn:Ec; cbn [negb].
  - destruct (first_index not_space s) as [i'|]; simpl; [|discriminate].
    intros [= <-].
    destruct (last_index not_space s) as [j'|]; [|discriminate].
    intros [= <-]. destruct (IH i' j' eq_refl eq_refl) as [H1 H2].
    split; [exact H1|lia].
  - intros [= <-] Hj. split; [|lia].
    rewrite Nat.sub_0_r. rewrite <- Hj.
    cbn [last_index]. unfold not_space at 2. rewrite Ec. reflexivity.
Qed.

Lemma rstrip_last_index (t : string) :
  rstrip t
  = match last_index not_space t with
    | Some j => substring 0 (S j) t
    | None => ""
    end.
Proof.
  induction t as [|c t IH]; [reflexivity|].
  cbn [rstrip last_index]. rewrite IH.
  destruct (last_index not_space t) as [j|] eqn:E.
  - destruct t as [|x t]; [discriminate|]. reflexivity.
  - unfold not_space. destruct (Ascii.eqb c space); simpl; [reflexivity|].
    rewrite substring_zero_len. reflexivity.
Qed.

Lemma npos_eq : npos = (2 ^ 64 - 1)%Z.
Proof. reflexivity. Qed.

Lemma size_t_wrap_small (z : Z) : (0 <= z <= npos)%Z -> size_t_wrap z = z.
Proof.
  intros H. unfold size_t_wrap, size_t_modulus. rewrite npos_eq in H.
  apply Z.mod_small. lia.
Qed.

Lemma size_t_wrap_nonneg (z : Z) : (0 <= size_t_wrap z)%Z.
Proof.
  unfold size_t_wrap, size_t_modulus. apply Z.mod_pos_bound. lia.
Qed.

(** The code of [trim] computes what the specification calls stripping, on
    every string whose size is a [size_t]. *)
Lemma trim_strip (s : string) : (str_size s <= npos)%Z -> trim s = strip s.
Proof.
  intros Hsize. unfold trim, strip.
  destruct (string_eqb s "") eqn:Es.
  { apply string_eqb_true in Es. subst s. reflexivity. }
  unfold find_first_not_of, find_last_not_of.
  change (fun x : ascii => negb (Ascii.eqb x space)) with not_space.
  destruct (first_index not_space s) as [i|] eqn:Ei; cbn [index_or_npos].
  - pose proof (first_index_lt _ _ _ Ei) as Hi.
    assert (string_exists not_space s = true) as Hex.
    { destruct (string_exists not_space s) eqn:E; [reflexivity|].
      apply first_index_None in E. congruence. }
    destruct (last_index not_space s) as [j|] eqn:Ej; cbn [index_or_npos].
    2:{ apply last_index_None in Ej. congruence. }
    pose proof (last_index_lt _ _ _ Ej) as Hj.
    destruct (last_index_lstrip s i j Ei Ej) as [Hl Hij].
    unfold str_size in *.
    replace (Z.of_nat i =? npos)%Z with false
      by (symmetry; apply Z.eqb_neq; lia).
    rewrite size_t_wrap_small by lia.
    unfold substr, str_size. rewrite Z.min_l by lia.
    rewrite Nat2Z.id. rewrite substring_drop.
    rewrite (lstrip_drop s i Ei).
    rewrite rstrip_last_index, Hl.
    f_equal. lia.
  - rewrite Z.eqb_refl.
    rewrite (lstrip_all_spaces s Ei). simpl.
    unfold substr.
    pose proof (size_t_wrap_nonneg (index_or_npos (last_index not_space s)
                                    - str_size s + 1)) as Hw.
    rewrite Z.min_r by lia.
    replace (Z.to_nat (str_size s - str_size s)) with 0%nat by lia.
    apply substring_zero_len.
Qed.

Lemma string_exists_false_app (p : ascii -> bool) (a b : string) :
  string_exists p (a +:+ b) = string_exists p a || string_exists p b.
Proof.
  induction a as [|x a IH]; [reflexivity|].
  rewrite str_app_cons. simpl. rewrite IH. apply orb_assoc.
Qed.

(** *** What [AddKeyEqualsValue] does with [k=v] *)

Lemma AddKeyEqualsValue_value (k v : string) (tc : bool) :
  has_char equals k = false ->
  (str_size (k +:+ String equals v) <= npos)%Z ->
  substr (k +:+ String equals v) (str_size k + 1)
    (size_t_wrap ((if tc then find (k +:+ String equals v) hash else npos)
                  - (str_size k + 1)))
  = value_text tc k v.
Proof.
  intros Hk Hsize.
  assert (String.length (k +:+ String equals v)
          = (String.length k + 1 + String.length v)%nat) as Hlen.
  { rewrite str_length_app. simpl. lia. }
  assert (string_drop (Z.to_nat (str_size k + 1)) (k +:+ String equals v) = v)
    as Hdrop.
  { unfold str_size. replace (Z.to_nat (Z.of_nat (String.length k) + 1))
      with (S (String.length k)) by lia.
    replace (k +:+ String equals v) with ((k +:+ String equals "") +:+ v)
      by (rewrite str_app_assoc; reflexivity).
    replace (S (String.length k)) with (String.length (k +:+ String equals ""))
      by (rewrite str_length_app; simpl; lia).
    apply string_drop_app. }
  assert (forall count, (str_size v <= count)%Z ->
            substr (k +:+ String equals v) (str_size k + 1) count = v) as Hall.
  { intros count Hc. rewrite substr_to_end, Hdrop; [reflexivity| |].
    - pose proof (str_size_nonneg k). lia.
    - unfold str_size in *. lia. }
  pose proof (str_size_nonneg k) as Hk0.
  pose proof (str_size_nonneg v) as Hv0.
  assert (str_size k + 1 + str_size v <= npos)%Z as Hsz.
  { unfold str_size in *. lia. }
  rewrite npos_eq in Hsz.
  unfold value_text. destruct tc.
  - unfold find. destruct (has_char hash k) eqn:Hh.
    + unfold has_char in Hh. rewrite first_index_app_l by exact Hh.
      destruct (first_index (Ascii.eqb hash) k) as [h|] eqn:Eh.
      2:{ apply first_index_None in Eh. congruence. }
      pose proof (first_index_lt _ _ _ Eh) as Hlt.
      cbn [index_or_npos]. apply Hall.
      unfold size_t_wrap, size_t_modulus, str_size in *.
      rewrite <- (Z.mod_unique
                    (Z.of_nat h - (Z.of_nat (String.length k) + 1)) (2 ^ 64)
                    (-1) (Z.of_nat h - Z.of_nat (String.length k) - 1 + 2 ^ 64))
        by lia.
      lia.
    + unfold has_char in Hh. rewrite first_index_app_r by exact Hh.
      cbn [first_index]. change (Ascii.eqb hash equals) with false. cbn iota.
      rewrite before_char_first_index.
      destruct (first_index (Ascii.eqb hash) v) as [h|] eqn:Eh;
        cbn [option_map index_or_npos].
      * pose proof (first_index_lt _ _ _ Eh) as Hlt.
        rewrite size_t_wrap_small
          by (rewrite npos_eq; unfold str_size in *; lia).
        unfold substr. rewrite Z.min_l by (unfold str_size in *; lia).
        rewrite substring_drop, Hdrop. f_equal. unfold str_size. lia.
      * apply Hall. rewrite size_t_wrap_small; rewrite npos_eq; lia.
  - apply Hall. rewrite size_t_wrap_small; rewrite npos_eq; lia.
Qed.

Lemma AddKeyEqualsValue_key_value (k v : string) (tc : bool) (w : World) :
  has_char equals k = false ->
  (str_size (k +:+ String equals v) <= npos)%Z ->
  AddKeyEqualsValue (k +:+ String equals v) tc w
  = record_option (strip k) (strip (value_text tc k v)) w.
Proof.
  intros Hk Hsize.
  pose proof (str_size_nonneg k) as Hk0.
  pose proof (str_size_nonneg v) as Hv0.
  assert (str_size (k +:+ String equals v) = str_size k + 1 + str_size v)%Z
    as Hlen.
  { rewrite str_size_app. unfold str_size. simpl String.length. lia. }
  unfold AddKeyEqualsValue.
  rewrite (find_app k v equals Hk).
  replace (str_size k =? npos)%Z with false
    by (symmetry; apply Z.eqb_neq; lia).
  cbn [negb].
  rewrite substr_prefix_app.
  rewrite (AddKeyEqualsValue_value k v tc Hk Hsize).
  assert (str_size (value_text tc k v) <= npos)%Z as Hvt.
  { unfold value_text. destruct tc; [|lia].
    destruct (has_char hash k); [lia|].
    rewrite before_char_first_index.
    destruct (first_index (Ascii.eqb hash) v) as [h|] eqn:Eh; [|lia].
    apply first_index_lt in Eh.
    assert (String.length (substring 0 h v) <= String.length v)%nat.
    { clear. revert h. induction v as [|c v IH]; intros [|h]; simpl; try lia.
      specialize (IH h). lia. }
    unfold str_size in *. lia. }
  rewrite !trim_strip by lia.
  unfold record_option, mbind, M_bind, bind, get_world.
  destruct (m_params w !! strip k); [reflexivity|].
  destruct (string_eqb (strip k) "loadmodels"); reflexivity.
Qed.

Lemma split_at_char (c : ascii) (s : string) :
  has_char c s = true ->
  s = before_char c s +:+ String c (after_char c s)
  /\ has_char c (before_char c s) = false.
Proof.
  unfold has_char. induction s as [|x s IH]; simpl; [discriminate|].
  destruct (Ascii.eqb c x) eqn:E; simpl.
  - intros _. apply Ascii.eqb_eq in E. subst x. split; reflexivity.
  - intros H. destruct (IH H) as [H1 H2]. rewrite E. simpl. split.
    + rewrite str_app_cons. f_equal. exact H1.
    + exact H2.
Qed.

(** *** Options on the command line and in files *)

(** C9.  For an expression that contains '=', written [k=v] with [k] the
    text before the first '=': when the stripped key already has a value,
    [AddKeyEqualsValue] throws the invalid-option error that carries the key,
    the new value and the existing value, and the world, so the parameter
    map, is what it was.  For an expression without '=' the expression
    itself becomes a key with the empty value, whatever it held before, and
    nothing is thrown. *)
Theorem AddKeyEqualsValue_existing_key_and_bare_flag :
  (forall (exp : string) (tc : bool) (w : World) (old : string),
      has_char equals exp = true ->
      (str_size exp <= npos)%Z ->
      m_params w !! strip (before_char equals exp) = Some old ->
      AddKeyEqualsValue exp tc w
      = (Throw (InvalidOptionValue
                  (strip (before_char equals exp))
                  (strip (value_text tc (before_char equals exp)
                            (after_char equals exp)))
                  ("Already has a value: " +:+ old)),
         w))
  /\
  (forall (exp : string) (tc : bool) (w : World),
      has_char equals exp = false ->
      AddKeyEqualsValue exp tc w
      = (Return tt,
         mkWorld (<[exp := ""]> (m_params w)) (m_outdir w)
           (loaded_libraries w) (fs w) (mkdir_denied w) (shell_log w))
      /\ <[exp := ""]> (m_params w) !! exp = Some "").
Proof.
  split.
  - intros exp tc w old Heq Hsize Hold.
    destruct (split_at_char equals exp Heq) as [Hexp Hk].
    rewrite Hexp at 1.
    rewrite AddKeyEqualsValue_key_value; [|exact Hk|rewrite <- Hexp; exact Hsize].
    unfold record_option. rewrite Hold. reflexivity.
  - intros exp tc w Heq. split; [|apply lookup_insert_eq].
    unfold AddKeyEqualsValue. rewrite (find_absent exp equals Heq).
    reflexivity.
Qed.

Lemma AddKeyEqualsValue_existing_key_witness :
  AddKeyEqualsValue "a=2" false (world_with_params [("a", "1")])
  = (Throw (InvalidOptionValue "a" "2" "Already has a value: 1"),
     world_with_params [("a", "1")])
  /\ fst (AddKeyEqualsValue "a" false (world_with_params [("a", "1")]))
     = Return tt.
Proof.
  split.
  - apply (proj1 AddKeyEqualsValue_existing_key_and_bare_flag
             "a=2" false (world_with_params [("a", "1")]) "1").
    + reflexivity.
    + vm_compute. discriminate.
    + reflexivity.
  - rewrite (proj1 (proj2 AddKeyEqualsValue_existing_key_and_bare_flag
                      "a" false (world_with_params [("a", "1")]) eq_refl)).
    reflexivity.
Defined.

Lemma Parse_indices_ge (args : list string) (base a : nat) :
  In a (Parse_indices args base) -> (base <= a)%nat.
Proof.
  remember (length args) as n eqn:Hn.
  assert (length args <= n)%nat as Hlen by lia. clear Hn.
  revert args base Hlen. induction n as [|n IH]; intros args base Hlen.
  - destruct args; [intros []|cbn in Hlen; lia].
  - destruct args as [|arg rest]; [intros []|]. cbn [length] in Hlen.
    cbn [Parse_indices]. intros [<-|Hin]; [lia|].
    destruct (string_eqb arg "-f").
    + destruct rest as [|f [|y rest'']]; try contradiction.
      cbn [length] in Hlen.
      apply IH in Hin; lia.
    + destruct (string_eqb (substr arg 0 2) "--").
      * apply IH in Hin; lia.
      * destruct (string_eqb arg "-@"); [|contradiction].
        destruct rest as [|f rest']; [contradiction|].
        cbn [length] in Hlen. apply IH in Hin; lia.
Qed.

(** Replacing the argument two places after a -f that the loop examines
    changes nothing. *)
Lemma Parse_args_skipped (c0 : ascii) (x : string) (args : list string)
    (base a : nat) :
  In a (Parse_indices args base) ->
  args !! (a - base)%nat = Some "-f" ->
  forall w, Parse_args c0 (<[(a - base + 2)%nat := x]> args) w
            = Parse_args c0 args w.
Proof.
  remember (length args) as n eqn:Hn.
  assert (length args <= n)%nat as Hlen by lia. clear Hn.
  revert args base Hlen. induction n as [|n IH]; intros args base Hlen.
  - destruct args; [intros []|cbn in Hlen; lia].
  - destruct args as [|arg rest]; [intros []|]. cbn [length] in Hlen.
    cbn [Parse_indices]. intros [<-|Hin] Harg w.
    + rewrite Nat.sub_diag in *. cbn in Harg. injection Harg as ->.
      destruct rest as [|f [|y rest'']]; reflexivity.
    + pose proof Hin as Hge.
      destruct (string_eqb arg "-f") eqn:Ef.
      * destruct rest as [|f [|y rest'']]; try contradiction.
        cbn [length] in Hlen. apply Parse_indices_ge in Hge.
        replace (a - base)%nat with (3 + (a - (base + 3)))%nat in * by lia.
        cbn [Nat.add] in Harg |- *. cbn [lookup list_lookup] in Harg.
        cbn [insert list_insert Parse_args]. rewrite Ef.
        apply bind_ext. intros _ w'.
        apply (IH rest'' (base + 3)%nat); [lia|exact Hin|exact Harg].
      * destruct (string_eqb (substr arg 0 2) "--") eqn:Ed.
        -- apply Parse_indices_ge in Hge.
           replace (a - base)%nat with (1 + (a - (base + 1)))%nat in * by lia.
           cbn [Nat.add] in Harg |- *. cbn [lookup list_lookup] in Harg.
           cbn [insert list_insert Parse_args]. rewrite Ef, Ed.
           apply bind_ext. intros _ w'.
           apply (IH rest (base + 1)%nat); [lia|exact Hin|exact Harg].
        -- destruct (string_eqb arg "-@") eqn:Ea; [|contradiction].
           destruct rest as [|f rest']; [contradiction|].
           cbn [length] in Hlen. apply Parse_indices_ge in Hge.
           replace (a - base)%nat with (2 + (a - (base + 2)))%nat in * by lia.
           cbn [Nat.add] in Harg |- *. cbn [lookup list_lookup] in Harg.
           cbn [insert list_insert Parse_args]. rewrite Ef, Ed, Ea.
           apply bind_ext. intros _ w'.
           apply (IH rest' (base + 2)%nat); [lia|exact Hin|exact Harg].
Qed.

(** C10.  When the loop of [Parse] stands at index [a] of the argument
    vector and finds -f there, it parses the file named at [a + 1] and goes
    on at [a + 3]: whatever stands at [a + 2] has no effect on the result,
    neither on the outcome nor on the options recorded; and so for [Parse]
    as a whole, for every index [a] that its loop examines. *)
Theorem Parse_f_skips_argument_after_filename :
  forall (c0 : ascii) (argv : list string) (a : nat) (file : string)
         (w : World),
    argv !! a = Some "-f" ->
    argv !! (a + 1)%nat = Some file ->
    Parse_args c0 (drop a argv) w
    = (ParseParamFile file ;; Parse_args c0 (drop (a + 3) argv)) w
    /\ (forall x : string,
           Parse_args c0 (drop a (<[(a + 2)%nat := x]> argv)) w
           = Parse_args c0 (drop a argv) w)
    /\ (In a (Parse_indices (tail argv) 1) ->
        forall x : string,
          Parse c0 (<[(a + 2)%nat := x]> argv) w = Parse c0 argv w).
Proof.
  intros c0 argv a file w Ha Hfile.
  assert (forall l : list string,
             l !! a = Some "-f" -> l !! (a + 1)%nat = Some file ->
             Parse_args c0 (drop a l) w
             = (ParseParamFile file ;; Parse_args c0 (drop (a + 3) l)) w)
    as Hstep.
  { intros l Hl Hl1.
    rewrite (drop_S l "-f" a Hl).
    replace (S a) with (a + 1)%nat by lia.
    rewrite (drop_S l file (a + 1)) by exact Hl1.
    replace (S (a + 1)) with (a + 2)%nat by lia.
    cbn [Parse_args]. change (string_eqb "-f" "-f") with true. cbn iota.
    destruct (drop (a + 2) l) as [|y rest] eqn:Ed.
    - replace (a + 3)%nat with ((a + 2) + 1)%nat by lia.
      rewrite <- drop_drop, Ed. reflexivity.
    - replace (a + 3)%nat with ((a + 2) + 1)%nat by lia.
      rewrite <- drop_drop, Ed. reflexivity. }
  split; [apply Hstep; assumption|]. split.
  - intros x.
    rewrite Hstep.
    + rewrite (Hstep argv Ha Hfile).
      replace (a + 3)%nat with (S (a + 2)) by lia.
      rewrite drop_insert_lt by lia. reflexivity.
    + rewrite list_lookup_insert_ne by lia. exact Ha.
    + rewrite list_lookup_insert_ne by lia. exact Hfile.
  - intros Hin x. destruct argv as [|argv0 args]; [contradiction|].
    cbn [tail] in Hin. pose proof (Parse_indices_ge _ _ _ Hin) as Hge.
    replace (a + 2)%nat with (S (a - 1 + 2)) by lia.
    cbn [insert list_insert Parse].
    apply bind_ext. intros w0 w'. apply bind_ext. intros _ w''.
    apply Parse_args_skipped; [exact Hin|].
    replace a with (S (a - 1)) in Ha by lia. exact Ha.
Qed.

Lemma Parse_f_skips_argument_witness :
  let argv := ["fabber"; "--x=1"; "-f"; "opts"; "--skipped=1"; "--kept=2"] in
  let w := world_with_files [("opts", "a=b")] in
  Parse_args "x" (drop 2 argv) w
  = (ParseParamFile "opts" ;; Parse_args "x" ["--kept=2"]) w
  /\ Parse "x" (<[4%nat := "--other=3"]> argv) w = Parse "x" argv w
  /\ m_params (snd (Parse "x" argv w)) !! "skipped" = None.
Proof.
  intros argv w.
  destruct (Parse_f_skips_argument_after_filename "x" argv 2 "opts" w
              eq_refl eq_refl) as (H1 & _ & H3).
  assert (In 2%nat (Parse_indices (tail argv) 1)) as Hin
    by (vm_compute; tauto).
  split; [exact H1|]. split.
  - apply (H3 Hin "--other=3").
  - vm_compute. reflexivity.
Defined.

(** *** Saving volumes *)

(** C8.  The volume that [SaveVoxelData] writes has the intent code
    SYMMATRIX exactly when the data type is [VDT_MVN]; for every other data
    type the intent code is NONE. *)
Theorem SaveVoxelData_intent_code :
  forall (A : Type) (io_outdir : string) (data : Matrix A) (filename : string)
         (data_type : VoxelDataType),
    (sv_intent_code (SaveVoxelData io_outdir data filename data_type)
     = NIFTI_INTENT_SYMMATRIX <-> data_type = VDT_MVN)
    /\ sv_intent_code (SaveVoxelData io_outdir data filename data_type)
       = match data_type with
         | VDT_MVN => NIFTI_INTENT_SYMMATRIX
         | _ => NIFTI_INTENT_NONE
         end.
Proof.
  intros A io_outdir data filename data_type.
  destruct data_type; simpl; split; try reflexivity.
  - split; [discriminate|discriminate].
  - split; reflexivity.
Qed.

(** *** Transforms *)





Lemma SoftPlusTransform_above_identity (x : R) :
  (x < value (ToModel SoftPlusTransform x))%R.
Proof.
  cbn. pose proof (exp_pos x) as Hpos.
  rewrite <- (ln_exp x) at 1. apply ln_increasing; lra.
Qed.

(** C2, as the code has it.  The softplus transform computes
    log(1 + exp(x)) and log(exp(x) - 1) by these formulas on every input:
    each direction calls the exponential on its argument and then the
    logarithm, and has no other branch; in particular the model value is
    never the asymptote x itself. *)
Theorem SoftPlusTransform_direct :
  forall x : R,
    ToModel SoftPlusTransform x
    = (ln (1 + exp x), [libm_exp x; libm_log (1 + exp x)])
    /\ ToFabber SoftPlusTransform x
       = (ln (exp x - 1), [libm_exp x; libm_log (exp x - 1)])
    /\ In (libm_exp x) (calls (ToModel SoftPlusTransform x))
    /\ In (libm_exp x) (calls (ToFabber SoftPlusTransform x))
    /\ (x < value (ToModel SoftPlusTransform x))%R.
Proof.
  intros x. split; [reflexivity|]. split; [reflexivity|].
  split; [left; reflexivity|]. split; [left; reflexivity|].
  apply SoftPlusTransform_above_identity.
Qed.

(** C2 as stated fails: at 30 both directions evaluate exp(30). *)
Lemma SoftPlusTransform_evaluates_exp_at_30 :
  (30 <= 30)%R
  /\ ~ avoids_exp_of (ToModel SoftPlusTransform) 30
  /\ ~ avoids_exp_of (ToFabber SoftPlusTransform) 30.
Proof.
  split; [lra|].
  unfold avoids_exp_of. split; intros H; apply H; simpl; left; reflexivity.
Qed.

(** *** Option files read with -f *)

Lemma getlines_line (a rest : string) :
  has_char newline a = false ->
  getlines (a +:+ String newline rest) = a :: getlines rest.
Proof.
  unfold has_char. induction a as [|c a IH]; simpl.
  - intros _. rewrite ?str_app_nil_l. simpl. reflexivity.
  - intros H. apply orb_false_iff in H as [Hc Ha].
    rewrite ?str_app_cons. simpl.
    replace (Ascii.eqb c newline) with false
      by (rewrite Ascii.eqb_sym; symmetry; exact Hc).
    rewrite (IH Ha). reflexivity.
Qed.

Lemma has_char_spaces (c : ascii) (n : nat) :
  c <> space -> has_char c (spaces n) = false.
Proof.
  intros Hc. unfold has_char, spaces.
  induction n as [|n IH]; simpl; [reflexivity|].
  rewrite IH. apply Ascii.eqb_neq in Hc. rewrite Hc. reflexivity.
Qed.

Lemma lstrip_spaces (n : nat) (s : string) :
  lstrip (spaces n +:+ s) = lstrip s.
Proof.
  unfold spaces. induction n as [|n IH]; [reflexivity|].
  simpl. rewrite ?str_app_cons. simpl. exact IH.
Qed.

Lemma lstrip_id (s : string) : first_char_is space s = false -> lstrip s = s.
Proof. destruct s as [|c s]; simpl; [reflexivity|]. intros ->. reflexivity. Qed.

Lemma rstrip_spaces_only (m : nat) : rstrip (spaces m) = "".
Proof.
  unfold spaces. induction m as [|m IH]; [reflexivity|].
  simpl. rewrite IH. reflexivity.
Qed.

Lemma rstrip_nonempty (s : string) :
  ends_with_space s = false -> s <> "" -> rstrip s = s /\ rstrip s <> "".
Proof.
  induction s as [|c s IH]; [congruence|].
  intros He _. destruct s as [|x s].
  - simpl in *. rewrite He. split; [reflexivity|discriminate].
  - destruct (IH He ltac:(discriminate)) as [H1 H2].
    change (rstrip (String c (String x s)))
      with (match rstrip (String x s) with
            | "" => if Ascii.eqb c space then "" else String c ""
            | r => String c r
            end).
    rewrite H1. split; [reflexivity|discriminate].
Qed.

Lemma rstrip_id (s : string) : ends_with_space s = false -> rstrip s = s.
Proof.
  intros He. destruct s as [|c s]; [reflexivity|].
  apply rstrip_nonempty; [exact He|discriminate].
Qed.

Lemma rstrip_app_spaces (s : string) (m : nat) :
  ends_with_space s = false -> rstrip (s +:+ spaces m) = s.
Proof.
  intros He. induction s as [|c s IH].
  - rewrite str_app_nil_l. apply rstrip_spaces_only.
  - rewrite str_app_cons.
    change (rstrip (String c (s +:+ spaces m)))
      with (match rstrip (s +:+ spaces m) with
            | "" => if Ascii.eqb c space then "" else String c ""
            | r => String c r
            end).
    destruct s as [|x s].
    + rewrite str_app_nil_l, rstrip_spaces_only. simpl in He. rewrite He.
      reflexivity.
    + rewrite IH by exact He. reflexivity.
Qed.

Lemma ends_with_space_app (a : string) (c : ascii) (b : string) :
  ends_with_space (a +:+ String c b) = ends_with_space (String c b).
Proof.
  induction a as [|x a IH]; [reflexivity|].
  rewrite str_app_cons.
  destruct (a +:+ String c b) as [|y t] eqn:E.
  - destruct a; discriminate.
  - change (ends_with_space (String x (String y t)))
      with (ends_with_space (String y t)).
    exact IH.
Qed.

Lemma first_char_is_app (c : ascii) (a b : string) :
  a <> "" -> first_char_is c (a +:+ b) = first_char_is c a.
Proof. destruct a as [|x a]; [congruence|reflexivity]. Qed.

Lemma before_char_absent (c : ascii) (v : string) :
  has_char c v = false -> before_char c v = v.
Proof.
  unfold has_char. induction v as [|x v IH]; simpl; [reflexivity|].
  intros H. apply orb_false_iff in H as [Hx Hv]. rewrite Hx, (IH Hv).
  reflexivity.
Qed.

Lemma strip_plain (s : string) :
  first_char_is space s = false -> ends_with_space s = false -> strip s = s.
Proof.
  intros H1 H2. unfold strip. rewrite lstrip_id by exact H1.
  apply rstrip_id. exact H2.
Qed.

Lemma str_size_app_le_l (a b : string) (z : Z) :
  (str_size (a +:+ b) <= z)%Z -> (str_size b <= z)%Z.
Proof. rewrite str_size_app. pose proof (str_size_nonneg a). lia. Qed.

Lemma str_size_app_le_r (a b : string) (z : Z) :
  (str_size (a +:+ b) <= z)%Z -> (str_size a <= z)%Z.
Proof. rewrite str_size_app. pose proof (str_size_nonneg b). lia. Qed.

Lemma has_char_cons_false (c x : ascii) (s : string) :
  has_char c (String x s) = false ->
  Ascii.eqb x c = false /\ has_char c s = false.
Proof.
  unfold has_char. cbn [string_exists]. intros H.
  apply orb_false_iff in H as [H1 H2]. rewrite Ascii.eqb_sym. auto.
Qed.

(** One well-formed line: blank lines and comments change nothing, an
    option line records its key and value. *)
Lemma ParseParamFile_line_spec (l : param_line) (w : World) :
  well_formed_line l = true ->
  ParseParamFile_line (render_line l) w
  = match l with
    | OptionLine _ k v _ => record_option k v w
    | _ => (Return tt, w)
    end.
Proof.
  unfold well_formed_line. intros Hwf.
  apply andb_true_iff in Hwf as [Hsize Hwf]. apply Z.leb_le in Hsize.
  unfold ParseParamFile_line. rewrite trim_strip by exact Hsize.
  destruct l as [n|n text|n k v m]; cbn [render_line] in *.
  - unfold strip. rewrite <- (str_app_nil_r (spaces n)), lstrip_spaces.
    reflexivity.
  - unfold strip. rewrite lstrip_spaces. cbn [lstrip].
    change (Ascii.eqb hash space) with false. cbn iota.
    destruct (rstrip (String hash text)) as [|c r] eqn:Er.
    { cbn in Er. destruct (rstrip text); discriminate. }
    assert (c = hash) as ->.
    { cbn in Er. destruct (rstrip text); congruence. }
    unfold str_size. simpl. reflexivity.
  - apply andb_true_iff in Hwf as [Hk Hv].
    unfold plain_key in Hk. unfold plain_value in Hv.
    repeat (apply andb_true_iff in Hk as [Hk ?]).
    repeat (apply andb_true_iff in Hv as [Hv ?]).
    repeat match goal with
           | H : negb _ = true |- _ => apply negb_true_iff in H
           end.
    assert (first_char_is space (k +:+ String equals v) = false) as Hfirst.
    { destruct k as [|c k]; [reflexivity|]. assumption. }
    assert (ends_with_space (k +:+ String equals v) = false) as Hlast.
    { rewrite ends_with_space_app. destruct v as [|c v]; [reflexivity|].
      assumption. }
    assert (strip (spaces n +:+ (k +:+ String equals v) +:+ spaces m)
            = k +:+ String equals v) as Hstrip.
    { unfold strip. rewrite lstrip_spaces.
      rewrite lstrip_id.
      - apply rstrip_app_spaces. exact Hlast.
      - rewrite first_char_is_app; [exact Hfirst|].
        destruct k; discriminate. }
    rewrite Hstrip.
    assert (str_size (k +:+ String equals v) <= npos)%Z as Hkv.
    { apply str_size_app_le_l in Hsize.
      apply str_size_app_le_r in Hsize. exact Hsize. }
    replace (0 <? str_size (k +:+ String equals v))%Z with true.
    2:{ symmetry. apply Z.ltb_lt. rewrite str_size_app.
        pose proof (str_size_nonneg k). unfold str_size at 2. simpl. lia. }
    replace (first_char_is hash (k +:+ String equals v)) with false.
    2:{ symmetry. destruct k as [|c k]; [reflexivity|].
        rewrite str_app_cons. cbn [first_char_is].
        match goal with
        | H : has_char hash (String c k) = false |- _ =>
            apply has_char_cons_false in H as [H _]; exact H
        end. }
    rewrite AddKeyEqualsValue_key_value by assumption.
    unfold value_text.
    match goal with H : has_char hash k = false |- _ => rewrite H end.
    rewrite before_char_absent by assumption.
    rewrite !strip_plain by assumption. reflexivity.
Qed.

Lemma render_line_no_newline (l : param_line) :
  well_formed_line l = true -> has_char newline (render_line l) = false.
Proof.
  unfold well_formed_line. intros Hwf.
  apply andb_true_iff in Hwf as [_ Hwf].
  assert (has_char newline "" = false) as Hnil by reflexivity.
  assert (forall n, has_char newline (spaces n) = false) as Hsp.
  { intros n. apply has_char_spaces. discriminate. }
  destruct l as [n|n text|n k v m]; cbn [render_line].
  - apply Hsp.
  - apply negb_true_iff in Hwf.
    rewrite has_char_app, Hsp.
    change (String hash text) with ("#" +:+ text).
    rewrite has_char_app, Hwf. reflexivity.
  - apply andb_true_iff in Hwf as [Hk Hv].
    unfold plain_key in Hk. unfold plain_value in Hv.
    repeat (apply andb_true_iff in Hk as [Hk ?]).
    repeat (apply andb_true_iff in Hv as [Hv ?]).
    repeat match goal with
           | H : negb _ = true |- _ => apply negb_true_iff in H
           end.
    rewrite !has_char_app, !Hsp.
    change (String equals v) with ("=" +:+ v).
    rewrite has_char_app.
    repeat match goal with
           | H : has_char newline _ = false |- _ => rewrite H
           end.
    reflexivity.
Qed.

Lemma getlines_render_file (ls : list param_line) :
  Forall (fun l => well_formed_line l = true) ls ->
  getlines (render_file ls) = map render_line ls ++ [""].
Proof.
  induction 1 as [|l ls Hl _ IH]; [reflexivity|].
  cbn [render_file map]. rewrite getlines_line.
  - rewrite IH. reflexivity.
  - apply render_line_no_newline. exact Hl.
Qed.

Lemma ParseParamFile_lines_rendered (ls : list param_line) (w : World) :
  Forall (fun l => well_formed_line l = true) ls ->
  ParseParamFile_lines (map render_line ls ++ [""]) w
  = record_options (options_of ls) w.
Proof.
  intros Hwf. revert w. induction Hwf as [|l ls Hl _ IH]; intros w.
  - reflexivity.
  - cbn [map app ParseParamFile_lines].
    unfold mbind at 1, M_bind at 1, bind at 1.
    rewrite (ParseParamFile_line_spec l w Hl).
    destruct l as [n|n text|n k v m]; cbn [options_of record_options].
    + apply IH.
    + apply IH.
    + unfold mbind, M_bind, bind. cbn [fst snd].
      destruct (record_option k v w) as [[[]|e] w']; [apply IH|reflexivity].
Qed.





(** *** Legacy option files read with -@ *)

Lemma substr_prefix_len (s : string) (n : nat) :
  substr s 0 (Z.of_nat n) = substring 0 n s.
Proof.
  unfold substr. rewrite Z.sub_0_r. unfold str_size.
  destruct (Nat.le_gt_cases n (String.length s)) as [H|H].
  - rewrite Z.min_l by lia. rewrite Nat2Z.id. reflexivity.
  - rewrite Z.min_r by lia. rewrite Nat2Z.id.
    rewrite !substring_whole by lia. reflexivity.
Qed.

Lemma substr_is_prefix (p word : string) (n : Z) :
  n = Z.of_nat (String.length p) ->
  string_eqb (substr word 0 n) p = String.prefix p word.
Proof.
  intros ->. rewrite substr_prefix_len.
  destruct (String.prefix p word) eqn:E.
  - apply prefix_correct in E. apply string_eqb_true. exact E.
  - apply string_eqb_false. intros H. apply prefix_correct in H. congruence.
Qed.

Lemma OldStyle_loop_word (filename word : string) (s : ascii) (rest : string)
    (c c' : ascii) (param : string) (w : World) :
  string_exists isspace word = false ->
  OldStyle_loop filename (word +:+ String s rest) c param InWords w
  = OldStyle_loop filename (String s rest) c' (param +:+ word) InWords w.
Proof.
  revert c param. induction word as [|x word IH]; intros c param Hw.
  - rewrite str_app_nil_l, str_app_nil_r. reflexivity.
  - cbn [string_exists] in Hw. apply orb_false_iff in Hw as [Hx Hw].
    rewrite str_app_cons. cbn [OldStyle_loop].
    unfold mbind at 1, M_bind at 1, bind at 1.
    unfold OldStyle_body. rewrite Hx. cbn [negb ret fst snd andb].
    rewrite (IH x (param +:+ String x "") Hw).
    rewrite str_app_assoc. reflexivity.
Qed.

Lemma OldStyle_loop_dispatch (filename word : string) (s : ascii)
    (rest : string) (c : ascii) (w : World) :
  is_word word = true -> isspace s = true ->
  OldStyle_loop filename (word +:+ String s rest) c "" InWords w
  = old_style_dispatch filename word s rest w.
Proof.
  unfold is_word. intros Hw Hs.
  apply andb_true_iff in Hw as [Hw Hsize].
  apply andb_true_iff in Hw as [Hne Hns].
  apply negb_true_iff in Hne, Hns. apply Z.leb_le in Hsize.
  rewrite (OldStyle_loop_word filename word s rest c s "" w Hns).
  rewrite str_app_nil_l. cbn [OldStyle_loop].
  unfold old_style_dispatch, OldStyle_body. rewrite Hs, Hne. cbn [negb].
  rewrite (substr_is_prefix "--" word 2 eq_refl).
  rewrite (substr_is_prefix "#" word 1 eq_refl).
  rewrite (substr_is_prefix "-@" word 2 eq_refl).
  destruct (String.prefix "--" word) eqn:Edash.
  - rewrite substr_to_end.
    + unfold trim_comments_default, mbind, M_bind, bind.
      change (Z.to_nat 2) with 2%nat.
      destruct (AddKeyEqualsValue (string_drop 2 word) false w)
        as [[[]|e] w']; reflexivity.
    + simpl. lia.
    + simpl. lia.
  - destruct (String.prefix "#" word) eqn:Ehash.
    + unfold mbind, M_bind, bind, ret. cbn [fst snd andb].
      destruct (Ascii.eqb s newline); reflexivity.
    + destruct (String.prefix "-@" word); reflexivity.
Qed.

Lemma OldStyle_loop_whitespace (filename : string) (s : ascii) (rest : string)
    (c : ascii) (w : World) :
  isspace s = true ->
  OldStyle_loop filename (String s rest) c "" InWords w
  = OldStyle_loop filename rest s "" InWords w.
Proof.
  intros Hs. cbn [OldStyle_loop]. unfold OldStyle_body. rewrite Hs.
  reflexivity.
Qed.

Lemma OldStyle_loop_comment (filename text rest : string) (c : ascii)
    (w : World) :
  has_char newline text = false ->
  OldStyle_loop filename (text +:+ String newline rest) c "" InComment w
  = OldStyle_loop filename rest newline "" InWords w.
Proof.
  revert c. induction text as [|x text IH]; intros c Ht.
  - rewrite str_app_nil_l. reflexivity.
  - apply has_char_cons_false in Ht as [Hx Ht].
    rewrite str_app_cons. cbn [OldStyle_loop]. rewrite Hx. apply IH. exact Ht.
Qed.

Lemma OldStyle_loop_end (filename : string) (c : ascii) (pc : old_style_pc)
    (w : World) :
  OldStyle_loop filename "" c "" pc w = (Return tt, w).
Proof.
  destruct pc; [|reflexivity]. cbn [OldStyle_loop]. unfold OldStyle_body.
  destruct (isspace c); reflexivity.
Qed.

Lemma no_whitespace_no_space (s : string) :
  string_exists isspace s = false ->
  first_char_is space s = false /\ ends_with_space s = false.
Proof.
  induction s as [|c s IH]; [split; reflexivity|].
  cbn [string_exists]. intros H. apply orb_false_iff in H as [Hc Hs].
  assert (Ascii.eqb c space = false) as Hcs.
  { destruct (Ascii.eqb c space) eqn:E; [|reflexivity].
    apply Ascii.eqb_eq in E. subst c. discriminate. }
  split; [exact Hcs|].
  destruct s as [|x s]; [exact Hcs|]. apply (IH Hs).
Qed.

Lemma string_drop_2_dashes (body : string) :
  string_drop 2 ("--" +:+ body) = body.
Proof. reflexivity. Qed.

Lemma prefix_dashes (body : string) : String.prefix "--" ("--" +:+ body) = true.
Proof. apply prefix_correct. apply (substring_prefix_app "--" body). Qed.

(** A file of words --k=v, one per line, records the options in order. *)
Lemma OldStyle_loop_rendered (filename : string) (kvs : list (string * string))
    (c : ascii) (w : World) :
  Forall (fun kv => is_word ("--" +:+ (fst kv +:+ String equals (snd kv))) = true
                    /\ has_char equals (fst kv) = false) kvs ->
  OldStyle_loop filename (render_old_style kvs) c "" InWords w
  = record_options kvs w.
Proof.
  intros Hkvs. revert c w.
  induction Hkvs as [|[k v] kvs [Hword Hk] _ IH]; intros c w.
  - apply OldStyle_loop_end.
  - cbn [fst snd] in *. cbn [render_old_style fst snd].
    rewrite OldStyle_loop_dispatch; [|exact Hword|reflexivity].
    unfold old_style_dispatch. rewrite prefix_dashes, string_drop_2_dashes.
    unfold is_word in Hword.
    apply andb_true_iff in Hword as [Hword Hsize].
    apply andb_true_iff in Hword as [_ Hns].
    apply negb_true_iff in Hns. apply Z.leb_le in Hsize.
    apply str_size_app_le_l in Hsize.
    rewrite string_exists_false_app in Hns.
    apply orb_false_iff in Hns as [_ Hns].
    rewrite string_exists_false_app in Hns.
    apply orb_false_iff in Hns as [Hkns Hvns].
    cbn [string_exists] in Hvns. apply orb_false_iff in Hvns as [_ Hvns].
    destruct (no_whitespace_no_space k Hkns) as [Hk1 Hk2].
    destruct (no_whitespace_no_space v Hvns) as [Hv1 Hv2].
    cbn [record_options fst snd].
    unfold mbind, M_bind, bind.
    rewrite AddKeyEqualsValue_key_value by assumption.
    unfold value_text. rewrite !strip_plain by assumption.
    destruct (record_option k v w) as [[[]|e] w']; [apply IH|reflexivity].
Qed.

(** C7, as the code has it.  The legacy parser reads whitespace-terminated
    words.  A word that begins with -- is handed, without the dashes, to
    [AddKeyEqualsValue], so a file of words --k=v records the options k=v in
    order.  A word that begins with '#' starts a comment: it and the rest of
    its line are discarded.  A word that begins with -@ and is reached
    outside a comment throws, as does any other word, whose error names the
    word and the file. *)
Theorem ParseOldStyleParamFile_words :
  forall (filename : string) (c : ascii) (w : World),
    (forall (word : string) (s : ascii) (rest : string),
        is_word word = true -> isspace s = true ->
        OldStyle_loop filename (word +:+ String s rest) c "" InWords w
        = old_style_dispatch filename word s rest w)
    /\ (forall (text rest : string),
           has_char newline text = false ->
           OldStyle_loop filename (text +:+ String newline rest) c ""
             InComment w
           = OldStyle_loop filename rest newline "" InWords w)
    /\ (forall (s : ascii) (rest : string),
           isspace s = true ->
           OldStyle_loop filename (String s rest) c "" InWords w
           = OldStyle_loop filename rest s "" InWords w)
    /\ (forall (kvs : list (string * string)),
           Forall (fun kv =>
                     is_word ("--" +:+ (fst kv +:+ String equals (snd kv)))
                     = true
                     /\ has_char equals (fst kv) = false) kvs ->
           fs w !! filename = Some (File (render_old_style kvs)) ->
           ParseOldStyleParamFile c filename w = record_options kvs w).
Proof.
  intros filename c w. split; [|split; [|split]].
  - intros word s rest Hw Hs. apply OldStyle_loop_dispatch; assumption.
  - intros text rest Ht. apply OldStyle_loop_comment. exact Ht.
  - intros s rest Hs. apply OldStyle_loop_whitespace. exact Hs.
  - intros kvs Hkvs Hfile.
    unfold ParseOldStyleParamFile, mbind, M_bind, bind, get_world.
    rewrite Hfile. apply OldStyle_loop_rendered. exact Hkvs.
Qed.

Lemma ParseOldStyleParamFile_words_witness :
  let w := world_with_files
             [("old", render_old_style [("key", "value"); ("degree", "2")])] in
  ParseOldStyleParamFile "x" "old" w
  = record_options [("key", "value"); ("degree", "2")] w
  /\ OldStyle_loop "old" ("-@" +:+ String newline "") "x" "" InWords w
     = (Throw (FabberRunDataError "Can only use -@ on the command line"), w).
Proof.
  intros w.
  destruct (ParseOldStyleParamFile_words "old" "x" w) as (H1 & _ & _ & H3).
  split.
  - apply H3; [|reflexivity].
    repeat (apply List.Forall_cons;
            [split; vm_compute; reflexivity|]).
    apply List.Forall_nil.
  - rewrite H1; reflexivity.
Defined.

(** C7 as stated fails: the legacy format has comments, and a word
    beginning with -@ inside one raises nothing. *)
Lemma ParseOldStyleParamFile_has_comments :
  let content := "#x -@ y" +:+ String newline ("--a=b" +:+ String newline "") in
  let r := ParseOldStyleParamFile "x" "old"
             (world_with_files [("old", content)]) in
  fst r = Return tt /\ m_params (snd r) = <["a" := "b"]> ∅.
Proof. vm_compute. split; reflexivity. Qed.

(** *** The output directory *)

Lemma plus_suffix_0 (base : string) : plus_suffix base 0 = base.
Proof. apply str_app_nil_r. Qed.

Lemma plus_suffix_S (base : string) (k : nat) :
  plus_suffix (base +:+ "+") k = plus_suffix base (S k).
Proof. unfold plus_suffix. rewrite str_app_assoc. reflexivity. Qed.

Lemma length_repeat_char (c : ascii) (n : nat) :
  String.length (repeat_char c n) = n.
Proof. induction n as [|n IH]; simpl; [reflexivity|]. rewrite IH. reflexivity. Qed.

Lemma plus_suffix_inj (base : string) (i j : nat) :
  plus_suffix base i = plus_suffix base j -> i = j.
Proof.
  intros H. apply (f_equal String.length) in H. unfold plus_suffix in H.
  rewrite !str_length_app, !length_repeat_char in H. lia.
Qed.

Lemma mkdir_ok (w : World) :
  mkdir_fails w (m_outdir w) = false ->
  mkdir (m_outdir w) w
  = (Return None,
     mkWorld (m_params w) (m_outdir w) (loaded_libraries w)
       (<[m_outdir w := Dir]> (fs w)) (mkdir_denied w) (shell_log w)).
Proof.
  unfold mkdir_fails. intros H. apply orb_false_iff in H as [H1 H2].
  apply bool_decide_eq_false in H1.
  unfold mkdir, mbind, M_bind, bind, get_world.
  destruct (fs w !! m_outdir w) as [x|] eqn:E.
  - exfalso. apply H1. eexists. reflexivity.
  - rewrite H2. reflexivity.
Qed.

Lemma mkdir_fail (w : World) :
  mkdir_fails w (m_outdir w) = true ->
  exists e, mkdir (m_outdir w) w = (Return (Some e), w)
            /\ (errno_is_EEXIST e = true <-> is_Some (fs w !! m_outdir w)).
Proof.
  unfold mkdir_fails. intros H.
  unfold mkdir, mbind, M_bind, bind, get_world.
  destruct (fs w !! m_outdir w) as [x|] eqn:E.
  - exists EEXIST. split; [reflexivity|]. split; [eauto|reflexivity].
  - apply orb_true_iff in H as [H|H].
    + apply bool_decide_eq_true in H. destruct H. discriminate.
    + rewrite H. exists EOTHER. split; [reflexivity|].
      split; [discriminate|]. intros [? ?]. discriminate.
Qed.

Lemma with_outdir_same (w : World) : with_outdir (m_outdir w) w = w.
Proof. destruct w. reflexivity. Qed.

(** Without --overwrite the loop tries the name with 0, 1, 2, ... plus signs
    and creates the first that [mkdir] accepts. *)
Lemma GetOutputDir_loop_retries (k n : nat) (w : World) :
  (k < n)%nat ->
  (forall i, (i < k)%nat -> mkdir_fails w (plus_suffix (m_outdir w) i) = true) ->
  mkdir_fails w (plus_suffix (m_outdir w) k) = false ->
  GetOutputDir_loop n false w
  = (Return tt,
     mkWorld (m_params w) (plus_suffix (m_outdir w) k) (loaded_libraries w)
       (<[plus_suffix (m_outdir w) k := Dir]> (fs w)) (mkdir_denied w)
       (shell_log w)).
Proof.
  revert n w. induction k as [|k IH]; intros n w Hn Hfail Hok.
  - destruct n as [|n]; [lia|].
    rewrite plus_suffix_0 in *. cbn [GetOutputDir_loop].
    unfold mbind, M_bind, bind, get_world. rewrite (mkdir_ok w Hok).
    reflexivity.
  - destruct n as [|n]; [lia|].
    cbn [GetOutputDir_loop]. unfold mbind, M_bind, bind, get_world.
    destruct (mkdir_fail w) as [e [He _]].
    { rewrite <- (plus_suffix_0 (m_outdir w)). apply Hfail. lia. }
    rewrite He. unfold set_outdir.
    rewrite (IH n); cbn [m_outdir m_params loaded_libraries fs mkdir_denied
                           shell_log].
    + rewrite plus_suffix_S. reflexivity.
    + lia.
    + intros i Hi. rewrite plus_suffix_S. apply (Hfail (S i)). lia.
    + rewrite plus_suffix_S. exact Hok.
Qed.

(** When every attempt fails the loop throws after [n] of them. *)
Lemma GetOutputDir_loop_exhausted (n : nat) (w : World) :
  (forall i, (i < n)%nat -> mkdir_fails w (plus_suffix (m_outdir w) i) = true) ->
  GetOutputDir_loop n false w
  = (Throw (FabberInternalError
              ("Cannot create output directory (bad path, or too many + signs?): "
               +:+ plus_suffix (m_outdir w) n)),
     with_outdir (plus_suffix (m_outdir w) n) w).
Proof.
  revert w. induction n as [|n IH]; intros w Hfail.
  - cbn [GetOutputDir_loop]. rewrite plus_suffix_0, with_outdir_same.
    reflexivity.
  - cbn [GetOutputDir_loop]. unfold mbind, M_bind, bind, get_world.
    destruct (mkdir_fail w) as [e [He _]].
    { rewrite <- (plus_suffix_0 (m_outdir w)). apply Hfail. lia. }
    rewrite He. unfold set_outdir. rewrite IH.
    + cbn [m_outdir]. rewrite plus_suffix_S. reflexivity.
    + intros i Hi. cbn [m_outdir]. rewrite plus_suffix_S.
      apply (Hfail (S i)). lia.
Qed.

(** The end of [GetOutputDir] leaves the directory name and the file system
    alone, and returns the name unless link-to-latest was given a value. *)
Lemma GetOutputDir_finish_spec (basename : string) (w : World) :
  let r := GetOutputDir_finish basename w in
  m_outdir (snd r) = m_outdir w /\ fs (snd r) = fs w
  /\ m_params (snd r) = m_params w
  /\ mkdir_denied (snd r) = mkdir_denied w
  /\ (flag_or_absent w "link-to-latest" = true -> fst r = Return (m_outdir w)).
Proof.
  unfold GetOutputDir_finish, flag_or_absent, GetBool, mbind, M_bind, bind,
    get_world, system. cbn [m_params].
  destruct (m_params w !! "link-to-latest") as [v|]; cbn.
  - destruct (string_eqb v ""); cbn; repeat split; try reflexivity.
    discriminate.
  - repeat split; reflexivity.
Qed.

Lemma GetOutputDir_unfold (w : World) (base : string) (ov : bool) :
  m_outdir w = "" -> m_params w !! "output" = Some base -> base <> "" ->
  m_params w !! "overwrite" = (if ov then Some "" else None) ->
  GetOutputDir w
  = (GetOutputDir_loop 50 ov ≫= fun _ => GetOutputDir_finish base)
      (with_outdir base w).
Proof.
  intros Hout Hbase Hne Hov.
  unfold GetOutputDir, GetStringDefault, GetBool, mbind, M_bind, bind,
    get_world, ret.
  rewrite Hout. cbn [negb string_eqb]. rewrite string_eqb_refl. cbn [negb].
  rewrite Hbase. apply string_eqb_false in Hne. rewrite Hne.
  rewrite Hov. destruct ov; reflexivity.
Qed.

Lemma mkdir_fails_ext (w w' : World) (path : string) :
  fs w' = fs w -> mkdir_denied w' = mkdir_denied w ->
  mkdir_fails w' path = mkdir_fails w path.
Proof. unfold mkdir_fails. intros -> ->. reflexivity. Qed.

Lemma mkdir_fails_insert (w w' : World) (p q : string) :
  fs w' = <[p := Dir]> (fs w) -> mkdir_denied w' = mkdir_denied w ->
  mkdir_fails w' q = if bool_decide (q = p) then true else mkdir_fails w q.
Proof.
  unfold mkdir_fails. intros -> ->.
  destruct (bool_decide (q = p)) eqn:E.
  - apply bool_decide_eq_true in E. subst q. rewrite lookup_insert_eq.
    rewrite bool_decide_eq_true_2 by eauto. reflexivity.
  - apply bool_decide_eq_false in E. rewrite lookup_insert_ne by congruence.
    reflexivity.
Qed.

(** Without --overwrite, [GetOutputDir] creates and uses the first of
    base, base+, base++, ... that [mkdir] accepts. *)
Lemma GetOutputDir_creates (w : World) (base : string) (k : nat) :
  m_outdir w = "" -> m_params w !! "output" = Some base -> base <> "" ->
  m_params w !! "overwrite" = None ->
  (k < 50)%nat ->
  (forall i, (i < k)%nat -> mkdir_fails w (plus_suffix base i) = true) ->
  mkdir_fails w (plus_suffix base k) = false ->
  let r := GetOutputDir w in
  m_outdir (snd r) = plus_suffix base k
  /\ fs (snd r) = <[plus_suffix base k := Dir]> (fs w)
  /\ m_params (snd r) = m_params w
  /\ mkdir_denied (snd r) = mkdir_denied w
  /\ (flag_or_absent w "link-to-latest" = true ->
      fst r = Return (plus_suffix base k)).
Proof.
  intros Hout Hbase Hne Hov Hk Hfail Hok r. subst r.
  rewrite (GetOutputDir_unfold w base false Hout Hbase Hne Hov).
  unfold mbind, M_bind, bind.
  rewrite (GetOutputDir_loop_retries k 50 (with_outdir base w) Hk).
  - cbn [with_outdir m_outdir m_params loaded_libraries fs mkdir_denied
           shell_log].
    set (w1 := mkWorld _ _ _ _ _ _).
    destruct (GetOutputDir_finish_spec base w1) as (H1 & H2 & H3 & H4 & H5).
    rewrite H1, H2, H3, H4. repeat split; try reflexivity.
    intros Hlink. apply H5. exact Hlink.
  - intros i Hi. cbn [with_outdir m_outdir].
    rewrite (mkdir_fails_ext w) by reflexivity. apply Hfail. exact Hi.
  - cbn [with_outdir m_outdir].
    rewrite (mkdir_fails_ext w) by reflexivity. exact Hok.
Qed.

(** Without --overwrite, fifty failed attempts end in an internal error. *)
Lemma GetOutputDir_gives_up (w : World) (base : string) :
  m_outdir w = "" -> m_params w !! "output" = Some base -> base <> "" ->
  m_params w !! "overwrite" = None ->
  (forall i, (i < 50)%nat -> mkdir_fails w (plus_suffix base i) = true) ->
  GetOutputDir w
  = (Throw (FabberInternalError
              ("Cannot create output directory (bad path, or too many + signs?): "
               +:+ plus_suffix base 50)),
     with_outdir (plus_suffix base 50) w).
Proof.
  intros Hout Hbase Hne Hov Hfail.
  rewrite (GetOutputDir_unfold w base false Hout Hbase Hne Hov).
  unfold mbind, M_bind, bind.
  rewrite GetOutputDir_loop_exhausted.
  - reflexivity.
  - intros i Hi. cbn [with_outdir m_outdir].
    rewrite (mkdir_fails_ext w) by reflexivity. apply Hfail. exact Hi.
Qed.

Lemma GetOutputDir_loop_overwrite (n : nat) (w : World) :
  GetOutputDir_loop (S n) true w
  = match fs w !! m_outdir w with
    | Some Dir => (Return tt, w)
    | None =>
        if bool_decide (m_outdir w ∈ mkdir_denied w) then
          (Throw (FabberInternalError
                    ("Unexpected problem creating output directory in overwrite mode: "
                     +:+ m_outdir w)), w)
        else
          (Return tt,
           mkWorld (m_params w) (m_outdir w) (loaded_libraries w)
             (<[m_outdir w := Dir]> (fs w)) (mkdir_denied w) (shell_log w))
    | Some (File _) =>
        (Throw (FabberInternalError
                  ("Unexpected problem creating output directory in overwrite mode: "
                   +:+ m_outdir w)), w)
    end.
Proof.
  cbn [GetOutputDir_loop].
  unfold mkdir, is_dir, mbind, M_bind, bind, get_world.
  destruct (fs w !! m_outdir w) as [[|content]|] eqn:E; cbn.
  - rewrite E. reflexivity.
  - rewrite E. reflexivity.
  - destruct (bool_decide (m_outdir w ∈ mkdir_denied w)); cbn;
      [rewrite E|]; reflexivity.
Qed.

(** With --overwrite: a directory that can be created is created, one that
    exists is used as it is, and any other failure is an error. *)
Lemma GetOutputDir_overwrite (w : World) (base : string) :
  m_outdir w = "" -> m_params w !! "output" = Some base -> base <> "" ->
  m_params w !! "overwrite" = Some "" ->
  let r := GetOutputDir w in
  (mkdir_fails w base = false ->
   m_outdir (snd r) = base /\ fs (snd r) = <[base := Dir]> (fs w)
   /\ (flag_or_absent w "link-to-latest" = true -> fst r = Return base))
  /\ (fs w !! base = Some Dir ->
      m_outdir (snd r) = base /\ fs (snd r) = fs w
      /\ (flag_or_absent w "link-to-latest" = true -> fst r = Return base))
  /\ (mkdir_fails w base = true -> fs w !! base <> Some Dir ->
      r = (Throw (FabberInternalError
                    ("Unexpected problem creating output directory in overwrite mode: "
                     +:+ base)),
           with_outdir base w)).
Proof.
  intros Hout Hbase Hne Hov r.
  assert (r = (GetOutputDir_loop 50 true ≫= fun _ => GetOutputDir_finish base)
                (with_outdir base w)) as Hr.
  { apply (GetOutputDir_unfold w base true Hout Hbase Hne Hov). }
  unfold mbind, M_bind, bind in Hr.
  rewrite GetOutputDir_loop_overwrite in Hr.
  cbn [with_outdir m_outdir m_params loaded_libraries fs mkdir_denied
         shell_log] in Hr.
  clearbody r. subst r. unfold mkdir_fails.
  destruct (fs w !! base) as [[|content]|] eqn:E.
  - split; [|split].
    + rewrite bool_decide_eq_true_2 by eauto. discriminate.
    + intros _.
      destruct (GetOutputDir_finish_spec base (with_outdir base w))
        as (H1 & H2 & H3 & H4 & H5).
      fold (with_outdir base w).
      rewrite H1, H2. repeat split. exact H5.
    + intros _ H. congruence.
  - split; [|split].
    + rewrite bool_decide_eq_true_2 by eauto. discriminate.
    + discriminate.
    + intros _ _. reflexivity.
  - rewrite bool_decide_eq_false_2 by (intros [? ?]; discriminate).
    cbn [orb].
    destruct (bool_decide (base ∈ mkdir_denied w)).
    + split; [discriminate|]. split; [discriminate|].
      intros _ _. reflexivity.
    + split; [|split; discriminate].
      intros _.
      set (w2 := mkWorld _ _ _ _ _ _).
      destruct (GetOutputDir_finish_spec base w2) as (H1 & H2 & H3 & H4 & H5).
      rewrite H1, H2. repeat split. exact H5.
Qed.

(** Three runs in a row with the same --output and no --overwrite use base,
    base+ and base++. *)
Lemma GetOutputDir_three_runs (w : World) (base : string) :
  m_outdir w = "" -> m_params w !! "output" = Some base -> base <> "" ->
  m_params w !! "overwrite" = None ->
  mkdir_fails w base = false ->
  mkdir_fails w (base +:+ "+") = false ->
  mkdir_fails w (base +:+ "++") = false ->
  let w1 := snd (GetOutputDir w) in
  let w2 := snd (GetOutputDir (next_run (m_params w) w1)) in
  let w3 := snd (GetOutputDir (next_run (m_params w) w2)) in
  m_outdir w1 = base /\ m_outdir w2 = base +:+ "+"
  /\ m_outdir w3 = base +:+ "++".
Proof.
  intros Hout Hbase Hne Hov H0 H1 H2 w1 w2 w3.
  change (base +:+ "+") with (plus_suffix base 1) in *.
  change (base +:+ "++") with (plus_suffix base 2) in *.
  rewrite <- (plus_suffix_0 base) in H0.
  assert (forall i j, i <> j -> plus_suffix base i <> plus_suffix base j)
    as Hdiff.
  { intros i j Hij H. apply Hij. exact (plus_suffix_inj base i j H). }
  (* first run *)
  destruct (GetOutputDir_creates w base 0 Hout Hbase Hne Hov ltac:(lia))
    as (A1 & A2 & A3 & A4 & _); [intros i Hi; lia|exact H0|].
  fold w1 in A1, A2, A3, A4.
  (* second run *)
  set (v1 := next_run (m_params w) w1) in *.
  assert (forall q, mkdir_fails v1 q
                    = if bool_decide (q = plus_suffix base 0) then true
                      else mkdir_fails w q) as F1.
  { intros q. apply mkdir_fails_insert; [exact A2|exact A4]. }
  destruct (GetOutputDir_creates v1 base 1 eq_refl Hbase Hne Hov ltac:(lia))
    as (B1 & B2 & B3 & B4 & _).
  { intros i Hi. assert (i = 0)%nat as -> by lia. rewrite F1.
    rewrite bool_decide_eq_true_2 by reflexivity. reflexivity. }
  { rewrite F1. rewrite bool_decide_eq_false_2 by (apply Hdiff; lia).
    exact H1. }
  fold w2 in B1, B2, B3, B4.
  (* third run *)
  set (v2 := next_run (m_params w) w2) in *.
  assert (forall q, mkdir_fails v2 q
                    = if bool_decide (q = plus_suffix base 1) then true
                      else mkdir_fails v1 q) as F2.
  { intros q. apply mkdir_fails_insert; [exact B2|exact B4]. }
  destruct (GetOutputDir_creates v2 base 2 eq_refl Hbase Hne Hov ltac:(lia))
    as (C1 & _).
  { intros i Hi. rewrite F2, F1.
    assert (i = 0 \/ i = 1)%nat as [-> | ->] by lia.
    - rewrite bool_decide_eq_false_2 by (apply Hdiff; lia).
      rewrite bool_decide_eq_true_2 by reflexivity. reflexivity.
    - rewrite bool_decide_eq_true_2 by reflexivity. reflexivity. }
  { rewrite F2, F1.
    rewrite !bool_decide_eq_false_2 by (apply Hdiff; lia). exact H2. }
  fold w3 in C1.
  rewrite plus_suffix_0 in A1. auto.
Qed.

(** C5.  For a run with --output=base: without --overwrite, [GetOutputDir]
    tries base, base+, base++, ... and uses the first name that [mkdir]
    creates, so runs against the same name use base, base+ and base++ in
    turn; fifty failed attempts end in an internal error.  With --overwrite
    a directory that already exists is used as it is, and any other failure
    to create it is an error. *)
Theorem GetOutputDir_plus_suffix_and_overwrite :
  forall (w : World) (base : string),
    m_outdir w = "" -> m_params w !! "output" = Some base -> base <> "" ->
    let r := GetOutputDir w in
    (m_params w !! "overwrite" = None ->
     (forall k : nat,
         (k < 50)%nat ->
         (forall i, (i < k)%nat -> mkdir_fails w (plus_suffix base i) = true) ->
         mkdir_fails w (plus_suffix base k) = false ->
         m_outdir (snd r) = plus_suffix base k
         /\ fs (snd r) = <[plus_suffix base k := Dir]> (fs w)
         /\ (flag_or_absent w "link-to-latest" = true ->
             fst r = Return (plus_suffix base k)))
     /\ ((forall i, (i < 50)%nat ->
                    mkdir_fails w (plus_suffix base i) = true) ->
         r = (Throw (FabberInternalError
                       ("Cannot create output directory (bad path, or too many + signs?): "
                        +:+ plus_suffix base 50)),
              with_outdir (plus_suffix base 50) w))
     /\ (mkdir_fails w base = false ->
         mkdir_fails w (base +:+ "+") = false ->
         mkdir_fails w (base +:+ "++") = false ->
         let w2 := snd (GetOutputDir (next_run (m_params w) (snd r))) in
         let w3 := snd (GetOutputDir (next_run (m_params w) w2)) in
         m_outdir (snd r) = base /\ m_outdir w2 = base +:+ "+"
         /\ m_outdir w3 = base +:+ "++"))
    /\ (m_params w !! "overwrite" = Some "" ->
        (mkdir_fails w base = false ->
         m_outdir (snd r) = base /\ fs (snd r) = <[base := Dir]> (fs w)
         /\ (flag_or_absent w "link-to-latest" = true -> fst r = Return base))
        /\ (fs w !! base = Some Dir ->
            m_outdir (snd r) = base /\ fs (snd r) = fs w
            /\ (flag_or_absent w "link-to-latest" = true ->
                fst r = Return base))
        /\ (mkdir_fails w base = true -> fs w !! base <> Some Dir ->
            r = (Throw (FabberInternalError
                          ("Unexpected problem creating output directory in overwrite mode: "
                           +:+ base)),
                 with_outdir base w))).
Proof.
  intros w base Hout Hbase Hne r. split.
  - intros Hov. split; [|split].
    + intros k Hk Hfail Hok.
      destruct (GetOutputDir_creates w base k Hout Hbase Hne Hov Hk Hfail Hok)
        as (H1 & H2 & _ & _ & H5).
      auto.
    + intros Hfail. apply GetOutputDir_gives_up; assumption.
    + intros H0 H1 H2. apply GetOutputDir_three_runs; assumption.
  - intros Hov. apply GetOutputDir_overwrite; assumption.
Qed.

Lemma GetOutputDir_plus_suffix_witness :
  let w := world_with_dirs [("output", "foo")] ["foo"] in
  m_outdir (snd (GetOutputDir w)) = "foo+"
  /\ fs (snd (GetOutputDir w)) = <["foo+" := Dir]> (fs w)
  /\ fst (GetOutputDir w) = Return "foo+".
Proof.
  intros w.
  destruct (GetOutputDir_plus_suffix_and_overwrite w "foo" eq_refl eq_refl
              ltac:(discriminate)) as [Hno _].
  destruct (Hno eq_refl) as [Hk _].
  destruct (Hk 1%nat ltac:(lia)) as (H1 & H2 & H3).
  - intros i Hi. assert (i = 0)%nat as -> by lia. reflexivity.
  - reflexivity.
  - split; [exact H1|]. split; [exact H2|]. apply H3. reflexivity.
Defined.

(** *** Combining the data files *)

Lemma for_loop_invariant {A} (P : nat -> A -> Prop)
    (body : nat -> A -> outcome A) (count from : nat) (a : A) :
  P from a ->
  (forall i x, (from <= i < from + count)%nat -> P i x ->
               exists x', body i x = Return x' /\ P (S i) x') ->
  exists a', for_loop body from count a = Return a'
             /\ P (from + count)%nat a'.
Proof.
  revert from a. induction count as [|count IH]; intros from a Ha Hbody.
  - exists a. rewrite Nat.add_0_r. split; [reflexivity|exact Ha].
  - destruct (Hbody from a ltac:(lia) Ha) as [x' [Hx' HP]].
    cbn [for_loop]. rewrite Hx'. cbn [obind].
    destruct (IH (S from) x' HP) as [a' [Ha' HP']].
    + intros i x Hi. apply Hbody. lia.
    + exists a'. split; [exact Ha'|].
      replace (from + S count)%nat with (S from + count)%nat by lia.
      exact HP'.
Qed.

Lemma for_loop_throws {A} (P : nat -> A -> Prop)
    (body : nat -> A -> outcome A) (e : exn) (k count from : nat) (a : A) :
  (k < count)%nat ->
  P from a ->
  (forall i x, (from <= i < from + k)%nat -> P i x ->
               exists x', body i x = Return x' /\ P (S i) x') ->
  (forall x, P (from + k)%nat x -> body (from + k)%nat x = Throw e) ->
  for_loop body from count a = Throw e.
Proof.
  revert count from a. induction k as [|k IH]; intros count from a Hk Ha Hok He.
  - destruct count as [|count]; [lia|].
    cbn [for_loop]. rewrite Nat.add_0_r in He. rewrite (He a Ha). reflexivity.
  - destruct count as [|count]; [lia|].
    destruct (Hok from a ltac:(lia) Ha) as [x' [Hx' HP]].
    cbn [for_loop]. rewrite Hx'. cbn [obind].
    apply (IH count (S from) x'); [lia|exact HP| |].
    + intros i x Hi. apply Hok. lia.
    + intros x Hx. replace (S from + k)%nat with (from + S k)%nat in * by lia.
      apply He. exact Hx.
Qed.

Lemma index_div (n i j : nat) : (j < n)%nat -> ((n * i + j) / n)%nat = i.
Proof.
  intros Hj. symmetry. apply (Nat.div_unique _ _ _ j); [exact Hj|lia].
Qed.

Lemma index_mod (n i j : nat) : (j < n)%nat -> ((n * i + j) mod n)%nat = j.
Proof.
  intros Hj. symmetry. apply (Nat.mod_unique _ _ i); [exact Hj|lia].
Qed.

Lemma assign_Row_ok {A} (dst src : Matrix A) (k i : nat) (r : list A) :
  rows src !! i = Some r -> (k < Nrows dst)%nat -> Ncols src = Ncols dst ->
  assign_Row dst (k + 1) src (i + 1)
  = Return (mkMatrix (Ncols dst) (<[k := r]> (rows dst))).
Proof.
  intros Hr Hk Hc. unfold assign_Row.
  replace (i + 1 - 1)%nat with i by lia. rewrite Hr.
  replace (i + 1 =? 0)%nat with false by (symmetry; apply Nat.eqb_neq; lia).
  replace (k + 1 =? 0)%nat with false by (symmetry; apply Nat.eqb_neq; lia).
  replace (Nrows dst <? k + 1)%nat with false
    by (symmetry; apply Nat.ltb_ge; lia).
  rewrite Hc, Nat.eqb_refl. cbn [orb negb].
  replace (k + 1 - 1)%nat with k by lia. reflexivity.
Qed.

Lemma interleave_assign_step {A} (dataSets : list (Matrix A)) (d0 d : Matrix A)
    (i j : nat) (m : Matrix A) :
  dataSets !! j = Some d -> Nrows d = Nrows d0 -> Ncols d = Ncols d0 ->
  (i < Nrows d0)%nat ->
  interleave_invariant dataSets d0 (length dataSets * i + j) m ->
  exists m',
    interleave_assign dataSets (length dataSets) (Nrows d0) i j m = Return m'
    /\ interleave_invariant dataSets d0 (S (length dataSets * i + j)) m'.
Proof.
  intros Hd Hdn Hdc Hi (Hc & Hn & Hrows).
  assert (j < length dataSets)%nat as Hj by (eapply lookup_lt_Some; eauto).
  assert (i < length (rows d))%nat as Hid by (unfold Nrows in *; lia).
  destruct (lookup_lt_is_Some_2 (rows d) i Hid) as [r Hr].
  assert (length dataSets * i + j < Nrows m)%nat as Hk.
  { rewrite Hn. nia. }
  unfold interleave_assign. rewrite Hd, Hdn, Nat.eqb_refl. cbn [negb].
  rewrite (assign_Row_ok m d _ i r Hr Hk) by congruence.
  eexists. split; [reflexivity|].
  split; [exact Hc|]. split.
  - unfold Nrows in *. cbn [rows]. rewrite length_insert. exact Hn.
  - intros idx Hidx. cbn [rows].
    destruct (decide (idx = length dataSets * i + j)) as [->|Hne].
    + rewrite list_lookup_insert_eq by exact Hk.
      unfold interleaved_row. rewrite index_mod, index_div by exact Hj.
      rewrite Hd. symmetry. exact Hr.
    + rewrite list_lookup_insert_ne by congruence. apply Hrows. lia.
Qed.

(** Interleaving files that all have the rows and columns of the first:
    row [nSets * i + j] of the result is row [i] of file [j]. *)
Lemma interleave_ok {A} (uninit : A) (dataSets : list (Matrix A))
    (d0 : Matrix A) :
  Forall (fun d => Nrows d = Nrows d0 /\ Ncols d = Ncols d0) dataSets ->
  exists m,
    interleave uninit dataSets d0 = Return m
    /\ Ncols m = Ncols d0
    /\ Nrows m = (Nrows d0 * length dataSets)%nat
    /\ forall i j d, (i < Nrows d0)%nat -> dataSets !! j = Some d ->
                     rows m !! (length dataSets * i + j)%nat = rows d !! i.
Proof.
  intros Hall. unfold interleave.
  destruct (for_loop_invariant
              (fun i m => interleave_invariant dataSets d0
                            (length dataSets * i) m)
              (fun i => for_loop
                          (interleave_assign dataSets (length dataSets)
                             (Nrows d0) i) 0 (length dataSets))
              (Nrows d0) 0
              (ReSize uninit (Nrows d0 * length dataSets) (Ncols d0)))
    as [m [Hm (Hc & Hn & Hrows)]].
  - split; [reflexivity|]. split.
    + unfold Nrows, ReSize. cbn [rows]. apply length_replicate.
    + intros idx Hidx. lia.
  - intros i x Hi Hinv.
    destruct (for_loop_invariant
                (fun j m => interleave_invariant dataSets d0
                              (length dataSets * i + j) m)
                (interleave_assign dataSets (length dataSets) (Nrows d0) i)
                (length dataSets) 0 x) as [x' [Hx' Hinv']].
    + rewrite Nat.add_0_r. exact Hinv.
    + intros j y Hj Hy.
      replace (length dataSets * i + S j)%nat
        with (S (length dataSets * i + j)) by lia.
      destruct (lookup_lt_is_Some_2 dataSets j ltac:(lia)) as [d Hd].
      rewrite Forall_forall in Hall.
      destruct (Hall d) as [Hdn Hdc]; [apply list_elem_of_lookup; eauto|].
      apply (interleave_assign_step dataSets d0 d); [assumption..|lia|exact Hy].
    + exists x'. split; [exact Hx'|].
      replace (length dataSets * S i)%nat
        with (length dataSets * i + (0 + length dataSets))%nat by lia.
      exact Hinv'.
  - exists m. split; [exact Hm|]. split; [exact Hc|]. split; [exact Hn|].
    intros i j d Hi Hd.
    assert (j < length dataSets)%nat as Hj by (eapply lookup_lt_Some; eauto).
    rewrite Hrows by (cbn; nia).
    unfold interleaved_row. rewrite index_mod, index_div by exact Hj.
    rewrite Hd. reflexivity.
Qed.

(** Interleaving throws the invalid-option error when the first file has a
    row and some file has a different number of rows. *)
Lemma interleave_mismatch {A} (uninit : A) (dataSets : list (Matrix A))
    (d0 : Matrix A) :
  (0 < Nrows d0)%nat ->
  Forall (fun d => Ncols d = Ncols d0) dataSets ->
  Exists (fun d => Nrows d <> Nrows d0) dataSets ->
  interleave uninit dataSets d0
  = Throw (InvalidOptionValue "data-order" "interleave"
             "Data sets must all have the same number of time points").
Proof.
  intros Hpos Hcols Hex.
  apply Exists_exists in Hex as [dx [Hin Hdx]].
  destruct (list_find_elem_of (fun d => Nrows d <> Nrows d0) dataSets dx Hin Hdx)
    as [[j0 d] Hfind].
  apply list_find_Some in Hfind as (Hd & Hbad & Hbefore).
  assert (j0 < length dataSets)%nat as Hj0 by (eapply lookup_lt_Some; eauto).
  rewrite Forall_forall in Hcols.
  unfold interleave.
  apply (for_loop_throws
           (fun i m => interleave_invariant dataSets d0
                         (length dataSets * i) m)
           _ _ 0 (Nrows d0) 0); [exact Hpos| | |].
  - split; [reflexivity|]. split.
    + unfold Nrows, ReSize. cbn [rows]. apply length_replicate.
    + intros idx Hidx. lia.
  - intros i x Hi. lia.
  - intros x Hx.
    apply (for_loop_throws
             (fun j m => interleave_invariant dataSets d0
                           (length dataSets * 0 + j) m)
             _ _ j0 (length dataSets) 0); [exact Hj0| | |].
    + replace (length dataSets * 0 + 0)%nat
        with (length dataSets * (0 + 0))%nat by lia.
      exact Hx.
    + intros j y Hj Hy.
      replace (length dataSets * 0 + S j)%nat
        with (S (length dataSets * 0 + j)) by lia.
      destruct (lookup_lt_is_Some_2 dataSets j ltac:(lia)) as [dj Hdj].
      apply (interleave_assign_step dataSets d0 dj); try assumption.
      * destruct (decide (Nrows dj = Nrows d0)) as [E|E]; [exact E|].
        exfalso. apply (Hbefore j dj Hdj ltac:(lia)). exact E.
      * apply Hcols. apply list_elem_of_lookup. eauto.
    + intros y _. cbn [Nat.add]. unfold interleave_assign. rewrite Hd.
      apply Nat.eqb_neq in Hbad. rewrite Hbad. reflexivity.
Qed.

(** Concatenating stacks the rows of the files in file order. *)
Lemma concatenate_ok {A} (m : Matrix A) (others : list (Matrix A)) :
  Forall (fun d => Ncols d = Ncols m) others ->
  concatenate m others
  = Return (mkMatrix (Ncols m) (rows m ++ concat (map rows others))).
Proof.
  revert m. induction others as [|d others IH]; intros m Hcols.
  - cbn. rewrite app_nil_r. destruct m. reflexivity.
  - apply Forall_cons in Hcols as [Hd Hcols].
    cbn [concatenate]. unfold vconcat. rewrite Hd, Nat.eqb_refl.
    cbn [negb obind]. rewrite IH by exact Hcols.
    cbn [Ncols rows map concat]. rewrite <- app_assoc. reflexivity.
Qed.

(** What [GetMainVoxelDataMultiple] does with two or more files that have
    the columns of the first. *)
Lemma GetMainVoxelDataMultiple_spec {A} (uninit : A) (d0 : Matrix A)
    (others : list (Matrix A)) (w : World) :
  others <> [] ->
  Forall (fun d => Ncols d = Ncols d0) (d0 :: others) ->
  let order := default "interleave" (m_params w !! "data-order") in
  let r := GetMainVoxelDataMultiple uninit (d0 :: others) w in
  (order = "interleave" ->
   (Forall (fun d => Nrows d = Nrows d0) (d0 :: others) ->
    exists m,
      r = (Return m, w) /\ Ncols m = Ncols d0
      /\ Nrows m = (Nrows d0 * length (d0 :: others))%nat
      /\ forall i j d,
           (i < Nrows d0)%nat -> (d0 :: others) !! j = Some d ->
           rows m !! (length (d0 :: others) * i + j)%nat = rows d !! i)
   /\ ((0 < Nrows d0)%nat ->
       Exists (fun d => Nrows d <> Nrows d0) (d0 :: others) ->
       r = (Throw (InvalidOptionValue "data-order" "interleave"
                     "Data sets must all have the same number of time points"),
            w)))
  /\ (order = "concatenate" ->
      r = (Return (mkMatrix (Ncols d0) (concat (map rows (d0 :: others)))), w))
  /\ (order = "singlefile" ->
      r = (Throw (InvalidOptionValue "data-order" "singlefile"
                    "More than one file specified"), w))
  /\ (order <> "interleave" -> order <> "concatenate" ->
      order <> "singlefile" ->
      r = (Throw (InvalidOptionValue "data-order" order
                    "Value not recognized"), w)).
Proof.
  intros Hothers Hcols order r.
  assert (r = (let nSets := length (d0 :: others) in
               if string_eqb order "singlefile" && (1 <? nSets)%nat then
                 throw (InvalidOptionValue "data-order" "singlefile"
                          "More than one file specified")
               else if string_eqb order "interleave" then
                 lift (interleave uninit (d0 :: others) d0)
               else if string_eqb order "concatenate" then
                 lift (concatenate d0 others)
               else if string_eqb order "singlefile" then ret d0
               else throw (InvalidOptionValue "data-order" order
                             "Value not recognized")) w) as Hr.
  { subst r order. unfold GetMainVoxelDataMultiple, GetStringDefault, mbind,
      M_bind, bind, get_world.
    destruct (m_params w !! "data-order"); reflexivity. }
  clearbody r order. subst r. cbn zeta.
  assert ((1 <? length (d0 :: others))%nat = true) as Hn.
  { apply Nat.ltb_lt. destruct others; [congruence|cbn; lia]. }
  rewrite Hn, andb_true_r.
  split; [|split; [|split]].
  - intros ->. cbn [string_eqb]. change (string_eqb "interleave" "singlefile")
      with false. rewrite string_eqb_refl. cbn iota. split.
    + intros Hrows.
      destruct (interleave_ok uninit (d0 :: others) d0) as [m (Hm & H1 & H2 & H3)].
      { rewrite Forall_forall in *. intros d Hd. split; auto. }
      exists m. unfold lift. rewrite Hm. auto.
    + intros Hpos Hex. unfold lift.
      rewrite interleave_mismatch by assumption. reflexivity.
  - intros ->. change (string_eqb "concatenate" "singlefile") with false.
    change (string_eqb "concatenate" "interleave") with false.
    rewrite string_eqb_refl. cbn iota. unfold lift.
    apply Forall_cons in Hcols as [_ Hcols].
    rewrite concatenate_ok by exact Hcols. reflexivity.
  - intros ->. rewrite string_eqb_refl. reflexivity.
  - intros H1 H2 H3. apply string_eqb_false in H1, H2, H3.
    rewrite H1, H2, H3. reflexivity.
Qed.

(** The example of the source comment: files A, B, C with two timepoints
    each interleave to A1 B1 C1 A2 B2 C2, and concatenate to
    A1 A2 B1 B2 C1 C2. *)
Example interleave_three_files :
  let A := mkMatrix 1 [[11%Z]; [12%Z]] in
  let B := mkMatrix 1 [[21%Z]; [22%Z]] in
  let C := mkMatrix 1 [[31%Z]; [32%Z]] in
  fst (GetMainVoxelDataMultiple 0%Z [A; B; C] (world_with_params []))
  = Return (mkMatrix 1 [[11]; [21]; [31]; [12]; [22]; [32]]%Z)
  /\ fst (GetMainVoxelDataMultiple 0%Z [A; B; C]
            (world_with_params [("data-order", "concatenate")]))
     = Return (mkMatrix 1 [[11]; [12]; [21]; [22]; [31]; [32]]%Z).
Proof. split; reflexivity. Qed.

(** C4, where the code misses what the claim and its own comment ask for:
    with an empty first file the interleave loops never run, so files with
    0 and 1 timepoints are combined without the invalid-option error. *)
Theorem GetMainVoxelDataMultiple_empty_first_file :
  let dataSets := [mkMatrix 1 []; mkMatrix 1 [[5%Z]]] in
  Exists (fun d => Nrows d <> Nrows (mkMatrix 1 ([] : list (list Z)))) dataSets
  /\ GetMainVoxelDataMultiple 0%Z dataSets
       (world_with_params [("data-order", "interleave")])
     = (Return (mkMatrix 1 []),
        world_with_params [("data-order", "interleave")]).
Proof.
  split.
  - apply Exists_cons_tl. apply Exists_cons_hd. cbn. discriminate.
  - reflexivity.
Qed.

(** *** The polynomial forward model *)

Lemma Evaluate_loop (params : list R) (i : Z) (n : nat) :
  fold_left (Evaluate_step params i) (seq 0 n) (0%R, 1%Z)
  = (sum_upto (fun m => nth m params 0 * IZR (wrapped_power i m))%R n,
     wrapped_power i n).
Proof.
  induction n as [|n IH]; [reflexivity|].
  rewrite seq_S, fold_left_app, IH. reflexivity.
Qed.

(** The prediction that the code computes for row [i]: the coefficients
    times the powers of [i] as the 32-bit variable holds them. *)
Lemma Evaluate_at_wrapped (m_degree : Z) (params : list R) (i : Z) :
  Evaluate_at m_degree params i
  = sum_upto (fun m => nth m params 0 * IZR (wrapped_power i m))%R
      (Z.to_nat (m_degree + 1)).
Proof. unfold Evaluate_at. rewrite Evaluate_loop. reflexivity. Qed.

Lemma int_wrap_small (z : Z) :
  (- 2 ^ 31 <= z < 2 ^ 31)%Z -> int_wrap z = z.
Proof. intros H. unfold int_wrap. rewrite Z.mod_small by lia. lia. Qed.

Lemma wrapped_power_exact (i : Z) (n : nat) :
  (1 <= i)%Z -> (i ^ Z.of_nat n < 2 ^ 31)%Z ->
  wrapped_power i n = (i ^ Z.of_nat n)%Z.
Proof.
  intros Hi. induction n as [|n IH]; intros Hn; [reflexivity|].
  rewrite Nat2Z.inj_succ, Z.pow_succ_r in * by lia.
  assert (0 < i ^ Z.of_nat n)%Z by (apply Z.pow_pos_nonneg; lia).
  cbn [wrapped_power]. rewrite IH by nia.
  rewrite int_wrap_small by nia. lia.
Qed.

Lemma sum_upto_ext (f g : nat -> R) (n : nat) :
  (forall m, (m < n)%nat -> f m = g m) -> sum_upto f n = sum_upto g n.
Proof.
  induction n as [|n IH]; intros H; [reflexivity|].
  cbn [sum_upto]. rewrite IH by (intros m Hm; apply H; lia).
  rewrite (H n) by lia. reflexivity.
Qed.

(** While the powers of the row index fit the 32-bit variable, the
    prediction is the polynomial. *)
Lemma Evaluate_at_polynomial (d : nat) (params : list R) (i : Z) :
  (1 <= i)%Z -> (i ^ Z.of_nat d < 2 ^ 31)%Z ->
  Evaluate_at (Z.of_nat d) params i
  = sum_upto (fun n => nth n params 0 * IZR i ^ n)%R (S d).
Proof.
  intros Hi Hd. rewrite Evaluate_at_wrapped.
  replace (Z.to_nat (Z.of_nat d + 1)) with (S d) by lia.
  apply sum_upto_ext. intros m Hm.
  rewrite wrapped_power_exact; [|exact Hi|].
  - rewrite pow_IZR. reflexivity.
  - apply Z.le_lt_trans with (i ^ Z.of_nat d)%Z; [|exact Hd].
    apply Z.pow_le_mono_r; lia.
Qed.

Lemma NumParams_NameParams (d : nat) :
  NumParams (Z.of_nat d) = Z.of_nat (d + 1)
  /\ NameParams (Z.of_nat d)
     = map (fun n => "c" +:+ stringify (Z.of_nat n)) (seq 0 (d + 1))
  /\ length (NameParams (Z.of_nat d)) = (d + 1)%nat.
Proof.
  unfold NumParams, NameParams.
  replace (Z.to_nat (Z.of_nat d + 1)) with (d + 1)%nat by lia.
  split; [lia|]. split; [reflexivity|].
  rewrite length_map, length_seq. reflexivity.
Qed.

Example NameParams_degree_2 : NameParams 2 = ["c0"; "c1"; "c2"].
Proof. reflexivity. Qed.

(** The prediction has one entry per row; entry [t] (from 1) is the inner
    loop run for [t]. *)
Lemma Evaluate_entries (d : nat) (T : nat) (params : list R) :
  length params = (d + 1)%nat ->
  exists result,
    Evaluate (Z.of_nat d) T params = Return result
    /\ length result = T
    /\ forall t, (1 <= t <= T)%nat ->
                 result !! (t - 1)%nat
                 = Some (Evaluate_at (Z.of_nat d) params (Z.of_nat t)).
Proof.
  intros Hlen. unfold Evaluate.
  replace (Z.of_nat (length params) =? Z.of_nat d + 1)%Z with true
    by (symmetry; apply Z.eqb_eq; lia).
  cbn [negb]. eexists. split; [reflexivity|]. split.
  - rewrite length_map, length_seq. reflexivity.
  - intros t Ht. rewrite list_lookup_fmap.
    rewrite lookup_seq_lt by lia. cbn [fmap option_fmap option_map].
    replace (1 + (t - 1))%nat with t by lia. reflexivity.
Qed.

(** The example of the specification: degree 2 with coefficients
    (3, 2, -1) gives 3 + 2t - t^2 while t^2 fits 32 bits. *)
Lemma Evaluate_at_degree_2 (t : Z) :
  (1 <= t)%Z -> (t ^ 2 < 2 ^ 31)%Z ->
  Evaluate_at 2 [3; 2; -1]%R t = (3 + 2 * IZR t - IZR t ^ 2)%R.
Proof.
  intros Ht Hsq.
  change 2%Z with (Z.of_nat 2) at 1.
  rewrite (Evaluate_at_polynomial 2 [3; 2; -1]%R t Ht Hsq).
  cbn [sum_upto nth pow]. lra.
Qed.

(** C3, where the code departs from the polynomial it documents: for degree
    5 and the coefficients (0,0,0,0,0,1) the prediction at t = 74 is not
    74^5 = 2219006624 but that number wrapped to 32 bits, because the power
    is accumulated in an [int]. *)
Theorem Evaluate_overflows_at_degree_5 :
  exists result,
    Evaluate 5 74 [0; 0; 0; 0; 0; 1]%R = Return result
    /\ result !! 73%nat = Some (IZR (-2075960672))
    /\ sum_upto (fun n => nth n [0; 0; 0; 0; 0; 1] 0 * IZR 74 ^ n)%R 6
       = IZR 2219006624
    /\ IZR (-2075960672) <> IZR 2219006624.
Proof.
  destruct (Evaluate_entries 5 74 [0; 0; 0; 0; 0; 1]%R eq_refl)
    as [result (Hr & _ & Hentry)].
  exists result. split; [exact Hr|]. split; [|split].
  - specialize (Hentry 74%nat ltac:(lia)).
    change (74 - 1)%nat with 73%nat in Hentry. rewrite Hentry. f_equal.
    rewrite Evaluate_at_wrapped.
    change (Z.to_nat (Z.of_nat 5 + 1)) with 6%nat.
    cbn [sum_upto nth].
    replace (wrapped_power (Z.of_nat 74) 5) with (-2075960672)%Z
      by (vm_compute; reflexivity).
    lra.
  - cbn [sum_upto nth]. rewrite !pow_IZR.
    repeat match goal with
           | |- context [IZR (?a ^ ?b)] =>
               let v := eval vm_compute in (a ^ b)%Z in
               change (a ^ b)%Z with v
           end.
    lra.
  - intros H. apply eq_IZR in H. discriminate.
Qed.

(** ** Part III: further properties of the code *)

(** *** [trim] *)

Lemma first_char_lstrip (s : string) : first_char_is space (lstrip s) = false.
Proof.
  induction s as [|c s IH]; [reflexivity|].
  cbn [lstrip]. destruct (Ascii.eqb c space) eqn:E; [exact IH|exact E].
Qed.

Lemma ends_with_space_rstrip (s : string) : ends_with_space (rstrip s) = false.
Proof.
  induction s as [|c s IH]; [reflexivity|].
  cbn [rstrip]. destruct (rstrip s) as [|x r] eqn:E.
  - destruct (Ascii.eqb c space) eqn:Ec; [reflexivity|exact Ec].
  - exact IH.
Qed.

Lemma first_char_rstrip (c : ascii) (s : string) :
  rstrip s = "" \/ first_char_is c (rstrip s) = first_char_is c s.
Proof.
  destruct s as [|x s]; [left; reflexivity|].
  cbn [rstrip]. destruct (rstrip s).
  - destruct (Ascii.eqb x space); [left|right]; reflexivity.
  - right. reflexivity.
Qed.

Lemma length_lstrip (s : string) :
  (String.length (lstrip s) <= String.length s)%nat.
Proof.
  induction s as [|c s IH]; [reflexivity|].
  cbn [lstrip]. destruct (Ascii.eqb c space); cbn [String.length]; lia.
Qed.

Lemma length_rstrip (s : string) :
  (String.length (rstrip s) <= String.length s)%nat.
Proof.
  induction s as [|c s IH]; [reflexivity|].
  cbn [rstrip]. destruct (rstrip s).
  - destruct (Ascii.eqb c space); cbn [String.length]; lia.
  - cbn [String.length] in *. lia.
Qed.

Lemma strip_no_space_at_ends (s : string) :
  first_char_is space (strip s) = false /\ ends_with_space (strip s) = false.
Proof.
  unfold strip. split; [|apply ends_with_space_rstrip].
  destruct (first_char_rstrip space (lstrip s)) as [-> | ->];
    [reflexivity|apply first_char_lstrip].
Qed.

Lemma str_size_strip (s : string) : (str_size (strip s) <= str_size s)%Z.
Proof.
  unfold strip, str_size.
  pose proof (length_rstrip (lstrip s)). pose proof (length_lstrip s). lia.
Qed.

(** X1.  On every string whose size is a [size_t], [trim] returns the
    string without its leading and trailing spaces: the result has no space
    at either end, a string of spaces only becomes empty, and trimming twice
    is trimming once. *)
Theorem trim_removes_spaces_at_both_ends :
  forall s : string,
    (str_size s <= npos)%Z ->
    trim s = strip s
    /\ first_char_is space (trim s) = false
    /\ ends_with_space (trim s) = false
    /\ trim (trim s) = trim s
    /\ (string_exists not_space s = false -> trim s = "").
Proof.
  intros s Hsize. rewrite (trim_strip s Hsize).
  destruct (strip_no_space_at_ends s) as [H1 H2].
  split; [reflexivity|]. split; [exact H1|]. split; [exact H2|]. split.
  - rewrite trim_strip by (pose proof (str_size_strip s); lia).
    apply strip_plain; assumption.
  - intros Hall. unfold strip.
    rewrite lstrip_all_spaces; [reflexivity|].
    apply first_index_None. exact Hall.
Qed.

Lemma trim_removes_spaces_witness :
  trim "  ab c " = "ab c" /\ trim (trim "  ab c ") = trim "  ab c ".
Proof.
  destruct (trim_removes_spaces_at_both_ends "  ab c ") as (H1 & _ & _ & H4 & _).
  - vm_compute. discriminate.
  - split; [rewrite H1; reflexivity|exact H4].
Defined.

(** *** Options and how they read back *)

(** X2.  For the expression [k=v], [k] without '=': the key is the stripped
    [k]; without comment trimming the value is the stripped [v]; with it the
    value stops at the first '#' of [v], except when a '#' stands before the
    '=' sign, where the unsigned length wraps and all of [v] is the
    value. *)
Theorem AddKeyEqualsValue_comment_trimming :
  forall (k v : string) (w : World),
    has_char equals k = false ->
    (str_size (k +:+ String equals v) <= npos)%Z ->
    AddKeyEqualsValue (k +:+ String equals v) false w
    = record_option (strip k) (strip v) w
    /\ (has_char hash k = false ->
        AddKeyEqualsValue (k +:+ String equals v) true w
        = record_option (strip k) (strip (before_char hash v)) w)
    /\ (has_char hash k = true ->
        AddKeyEqualsValue (k +:+ String equals v) true w
        = record_option (strip k) (strip v) w).
Proof.
  intros k v w Hk Hsize.
  rewrite !AddKeyEqualsValue_key_value by assumption.
  unfold value_text. split; [reflexivity|].
  split; intros ->; reflexivity.
Qed.

Lemma AddKeyEqualsValue_comment_trimming_witness :
  m_params (snd (AddKeyEqualsValue " a = b # c" true (world_with_params [])))
  = <["a" := "b"]> ∅
  /\ m_params (snd (AddKeyEqualsValue "a#b=c#d" true (world_with_params [])))
     = <["a#b" := "c#d"]> ∅.
Proof.
  destruct (AddKeyEqualsValue_comment_trimming " a " " b # c"
              (world_with_params []) eq_refl) as (_ & H2 & _).
  { vm_compute. discriminate. }
  destruct (AddKeyEqualsValue_comment_trimming "a#b" "c#d"
              (world_with_params []) eq_refl) as (_ & _ & H3).
  { vm_compute. discriminate. }
  split.
  - change " a = b # c" with (" a " +:+ String equals " b # c").
    rewrite (H2 eq_refl). reflexivity.
  - change "a#b=c#d" with ("a#b" +:+ String equals "c#d").
    rewrite (H3 eq_refl). reflexivity.
Defined.

Lemma AddKeyEqualsValue_bare (exp : string) (tc : bool) (w : World) :
  has_char equals exp = false ->
  AddKeyEqualsValue exp tc w
  = (Return tt, with_params (<[exp := ""]> (m_params w)) w).
Proof.
  intros Hexp. unfold AddKeyEqualsValue. rewrite (find_absent exp equals Hexp).
  reflexivity.
Qed.

Lemma GetBool_with_params (key : string) (p : gmap string string) (w : World) :
  fst (GetBool key (with_params p w))
  = match p !! key with
    | None => Return false
    | Some v =>
        if string_eqb v "" then Return true
        else Throw (InvalidOptionValue key v
                      "Value should not be given for boolean option")
    end.
Proof.
  unfold GetBool, mbind, M_bind, bind, get_world. cbn [with_params m_params].
  destruct (p !! key) as [v|]; [|reflexivity].
  destruct (string_eqb v ""); reflexivity.
Qed.

(** X3.  How a parsed option reads back.  A bare expression (no '=') is a
    true boolean and cannot be read as a string.  A new option [k=v] whose
    stripped value is empty is a true boolean as well; one whose value is not
    empty reads back as that value, and reading it as a boolean throws. *)
Theorem parsed_option_reads_back :
  forall (w : World),
    (forall (exp : string) (tc : bool),
        has_char equals exp = false ->
        let w' := snd (AddKeyEqualsValue exp tc w) in
        fst (GetBool exp w') = Return true
        /\ GetString exp (m_params w')
           = inl (ReadError (InvalidOptionValue exp "<no value>"
                               "Value must be given")))
    /\ (forall (k v : string),
           has_char equals k = false ->
           (str_size (k +:+ String equals v) <= npos)%Z ->
           m_params w !! strip k = None -> strip k <> "loadmodels" ->
           let w' := snd (AddKeyEqualsValue (k +:+ String equals v) false w) in
           (strip v = "" -> fst (GetBool (strip k) w') = Return true)
           /\ (strip v <> "" ->
               GetString (strip k) (m_params w') = inr (strip v)
               /\ fst (GetBool (strip k) w')
                  = Throw (InvalidOptionValue (strip k) (strip v)
                             "Value should not be given for boolean option"))).
Proof.
  intros w. split.
  - intros exp tc Hexp w'.
    assert (w' = with_params (<[exp := ""]> (m_params w)) w) as ->.
    { subst w'. rewrite (AddKeyEqualsValue_bare exp tc w Hexp). reflexivity. }
    rewrite GetBool_with_params. cbn [with_params m_params].
    unfold GetString, Read. rewrite lookup_insert_eq. split; reflexivity.
  - intros k v Hk Hsize Hfresh Hlm w'.
    assert (w' = with_params (<[strip k := strip v]> (m_params w)) w) as ->.
    { subst w'. rewrite AddKeyEqualsValue_key_value by assumption.
      unfold record_option, value_text. rewrite Hfresh.
      apply string_eqb_false in Hlm. rewrite Hlm. reflexivity. }
    rewrite GetBool_with_params. cbn [with_params m_params].
    unfold GetString, Read. rewrite lookup_insert_eq. split.
    + intros ->. reflexivity.
    + intros Hv. apply string_eqb_false in Hv. rewrite Hv. split; reflexivity.
Qed.

Lemma parsed_option_reads_back_witness :
  fst (GetBool "flag"
         (snd (AddKeyEqualsValue "flag=" false (world_with_params []))))
  = Return true
  /\ GetString "degree"
       (m_params (snd (AddKeyEqualsValue "degree=2" false
                         (world_with_params []))))
     = inr "2".
Proof.
  destruct (parsed_option_reads_back (world_with_params [])) as [_ H].
  split.
  - destruct (H "flag" "" eq_refl) as [H1 _];
      [vm_compute; discriminate|reflexivity|discriminate|].
    apply H1. reflexivity.
  - destruct (H "degree" "2" eq_refl) as [_ H2];
      [vm_compute; discriminate|reflexivity|discriminate|].
    apply H2. discriminate.
Defined.

Lemma Set_spec (key value : string) (w : World) :
  Set_ key value w = (Return tt, with_params (<[key := value]> (m_params w)) w).
Proof. reflexivity. Qed.

Lemma SetBool_spec (key : string) (value : bool) (w : World) :
  SetBool key value w
  = (Return tt,
     with_params (if value then <[key := ""]> (m_params w)
                  else delete key (m_params w)) w).
Proof. destruct value; reflexivity. Qed.

(** X4.  Setting and reading options.  [SetBool(key, true)] makes [GetBool]
    return true and [GetString] refuse the option for want of a value;
    [SetBool(key, false)] is [Unset]: afterwards [GetBool] returns false,
    [HaveKey] returns false and [GetString] reports the option missing;
    [Set] with a non-empty value makes [GetString] return it and [GetBool]
    throw.  None of them touches another key. *)
Theorem Set_SetBool_Unset_read_back :
  forall (key : string) (w : World),
    (fst (GetBool key (snd (SetBool key true w))) = Return true
     /\ GetString key (m_params (snd (SetBool key true w)))
        = inl (ReadError (InvalidOptionValue key "<no value>"
                            "Value must be given")))
    /\ (SetBool key false w = Unset key w
        /\ fst (GetBool key (snd (Unset key w))) = Return false
        /\ fst (HaveKey key (snd (Unset key w))) = Return false
        /\ GetString key (m_params (snd (Unset key w)))
           = inl (MandatoryOptionMissing key))
    /\ (forall value : string,
           value <> "" ->
           GetString key (m_params (snd (Set_ key value w))) = inr value
           /\ fst (GetStringDefault key "" (snd (Set_ key value w)))
              = Return value
           /\ fst (GetBool key (snd (Set_ key value w)))
              = Throw (InvalidOptionValue key value
                         "Value should not be given for boolean option"))
    /\ (forall (other value : string) (b : bool),
           other <> key ->
           m_params (snd (Set_ key value w)) !! other = m_params w !! other
           /\ m_params (snd (SetBool key b w)) !! other = m_params w !! other
           /\ m_params (snd (Unset key w)) !! other = m_params w !! other).
Proof.
  intros key w. split; [|split; [|split]].
  - rewrite SetBool_spec. cbn [snd]. rewrite GetBool_with_params.
    cbn [with_params m_params]. unfold GetString, Read.
    rewrite lookup_insert_eq. split; reflexivity.
  - split; [reflexivity|].
    change (Unset key w)
      with (Return tt, with_params (delete key (m_params w)) w).
    cbn [snd]. rewrite GetBool_with_params.
    unfold HaveKey, GetString, Read, mbind, M_bind, bind, get_world.
    cbn [with_params m_params fst ret]. rewrite lookup_delete_eq.
    repeat split.
  - intros value Hv. rewrite Set_spec. cbn [snd].
    rewrite GetBool_with_params.
    unfold GetString, Read, GetStringDefault, mbind, M_bind, bind, get_world.
    cbn [with_params m_params]. rewrite lookup_insert_eq.
    apply string_eqb_false in Hv. rewrite Hv. repeat split.
  - intros other value b Hne. rewrite Set_spec, SetBool_spec.
    change (Unset key w)
      with (Return tt, with_params (delete key (m_params w)) w).
    cbn [snd with_params m_params].
    rewrite lookup_insert_ne, lookup_delete_ne by congruence.
    destruct b; [rewrite lookup_insert_ne by congruence|
                 rewrite lookup_delete_ne by congruence]; auto.
Qed.

Lemma Set_read_back_witness :
  GetString "model" (m_params (snd (Set_ "model" "poly" (world_with_params []))))
  = inr "poly"
  /\ m_params (snd (Set_ "model" "poly" (world_with_params [("a", "1")])))
       !! "a" = Some "1".
Proof.
  split.
  - destruct (Set_SetBool_Unset_read_back "model" (world_with_params []))
      as (_ & _ & H & _).
    apply (H "poly"). discriminate.
  - destruct (Set_SetBool_Unset_read_back "model"
                (world_with_params [("a", "1")])) as (_ & _ & _ & H).
    destruct (H "a" "poly" true) as [H1 _]; [discriminate|].
    rewrite H1. reflexivity.
Defined.

(** X5.  [init(true)] turns the seven save options of the earlier Fabber
    into true booleans, whatever they held, and changes no other option;
    [init(false)] changes nothing. *)
Theorem init_compat_options :
  forall (w : World),
    init false w = (Return tt, w)
    /\ fst (init true w) = Return tt
    /\ (forall key : string,
           In key ["save-mean"; "save-std"; "save-zstat"; "save-noise-mean";
                   "save-noise-std"; "save-free-energy"; "save-mvn"] ->
           fst (GetBool key (snd (init true w))) = Return true)
    /\ (forall key : string,
           ~ In key ["save-mean"; "save-std"; "save-zstat"; "save-noise-mean";
                     "save-noise-std"; "save-free-energy"; "save-mvn"] ->
           m_params (snd (init true w)) !! key = m_params w !! key).
Proof.
  intros w. split; [reflexivity|].
  assert (init true w
          = (Return tt,
             with_params
               (<["save-mvn" := ""]>
                  (<["save-free-energy" := ""]>
                     (<["save-noise-std" := ""]>
                        (<["save-noise-mean" := ""]>
                           (<["save-zstat" := ""]>
                              (<["save-std" := ""]>
                                 (<["save-mean" := ""]> (m_params w))))))))
               w)) as ->
    by reflexivity.
  split; [reflexivity|]. split.
  - intros key Hin. cbn [snd]. rewrite GetBool_with_params.
    cbn [In] in Hin.
    repeat (destruct Hin as [<- | Hin];
            [rewrite ?lookup_insert_eq;
             repeat (rewrite lookup_insert_ne by discriminate;
                     rewrite ?lookup_insert_eq);
             reflexivity|]).
    contradiction.
  - intros key Hnot. cbn [snd with_params m_params].
    cbn [In] in Hnot.
    repeat (rewrite lookup_insert_ne by (intros <-; apply Hnot; tauto)).
    reflexivity.
Qed.

(** *** The command line *)

Lemma Parse_args_option (c0 : ascii) (kv : string * string)
    (rest : list string) (w : World) :
  sized_option kv = true ->
  Parse_args c0 (option_arg kv :: rest) w
  = (record_option (strip (fst kv)) (strip (snd kv)) ;; Parse_args c0 rest) w.
Proof.
  destruct kv as [k v]. unfold sized_option, option_arg. cbn [fst snd].
  intros H. apply andb_true_iff in H as [Hk Hsize].
  apply negb_true_iff in Hk. apply Z.leb_le in Hsize.
  cbn [Parse_args].
  replace (string_eqb ("--" +:+ (k +:+ String equals v)) "-f") with false
    by (symmetry; apply string_eqb_false; discriminate).
  rewrite (substr_is_prefix "--" _ 2 eq_refl), prefix_dashes.
  rewrite substr_to_end.
  - change (Z.to_nat 2) with 2%nat. rewrite string_drop_2_dashes.
    unfold trim_comments_default, mbind, M_bind, bind.
    rewrite AddKeyEqualsValue_key_value by assumption. reflexivity.
  - lia.
  - rewrite str_size_app. change (str_size "--") with 2%Z. lia.
Qed.

Lemma Parse_args_options (c0 : ascii) (kvs : list (string * string))
    (rest : list string) (w : World) :
  Forall (fun kv => sized_option kv = true) kvs ->
  Parse_args c0 (map option_arg kvs ++ rest) w
  = (record_options (map stripped kvs) ;; Parse_args c0 rest) w.
Proof.
  intros Hkvs. revert w. induction Hkvs as [|kv kvs Hkv _ IH]; intros w.
  - reflexivity.
  - cbn [map app]. rewrite Parse_args_option by exact Hkv.
    cbn [record_options stripped fst snd].
    unfold mbind, M_bind, bind in *.
    destruct (record_option (strip (fst kv)) (strip (snd kv)) w)
      as [[[]|e] w']; [apply IH|reflexivity].
Qed.

(** X6.  A command line of options --k=v, in any number, records the program
    name under the empty key and then the options in order, keys and values
    stripped, up to the first that is refused.  When an argument follows
    that is neither -f nor -@ and does not begin with --, [Parse] throws
    naming it: the options before it stay recorded, and nothing after it is
    looked at. *)
Theorem Parse_options_in_order :
  forall (c0 : ascii) (argv0 : string) (kvs : list (string * string))
         (w : World),
    Forall (fun kv => sized_option kv = true) kvs ->
    Parse c0 (argv0 :: map option_arg kvs) w
    = record_options (map stripped kvs)
        (with_params (<["" := argv0]> (m_params w)) w)
    /\ forall (bad : string) (rest : list string),
         String.prefix "--" bad = false -> bad <> "-f" -> bad <> "-@" ->
         Parse c0 (argv0 :: map option_arg kvs ++ bad :: rest) w
         = (record_options (map stripped kvs) ;;
            throw (FabberRunDataError
                     ("Option '" +:+ bad +:+ "' doesn't begin with --")))
             (with_params (<["" := argv0]> (m_params w)) w).
Proof.
  intros c0 argv0 kvs w Hkvs. split.
  - unfold Parse. unfold mbind at 1 2, M_bind at 1 2, bind at 1 2.
    cbn [get_world set_params]. fold (with_params (<["" := argv0]> (m_params w)) w).
    rewrite <- (List.app_nil_r (map option_arg kvs)).
    rewrite Parse_args_options by exact Hkvs.
    unfold mbind, M_bind, bind.
    destruct (record_options (map stripped kvs) _) as [[[]|e] w'];
      reflexivity.
  - intros bad rest Hprefix Hf Hat.
    unfold Parse. unfold mbind at 1 2, M_bind at 1 2, bind at 1 2.
    cbn [get_world set_params]. fold (with_params (<["" := argv0]> (m_params w)) w).
    rewrite Parse_args_options by exact Hkvs.
    apply bind_ext. intros _ w'. cbn [Parse_args].
    apply string_eqb_false in Hf, Hat. rewrite Hf, Hat.
    rewrite (substr_is_prefix "--" bad 2 eq_refl), Hprefix. reflexivity.
Qed.

Lemma Parse_options_in_order_witness :
  m_params (snd (Parse "x" ["fabber"; "--model=poly"; "--degree=2"]
                   (world_with_params [])))
  = <["degree" := "2"]> (<["model" := "poly"]> (<["" := "fabber"]> ∅))
  /\ Parse "x" ["fabber"; "--model=poly"; "degree=2"; "--never=seen"]
       (world_with_params [])
     = (Throw (FabberRunDataError "Option 'degree=2' doesn't begin with --"),
        with_params (<["model" := "poly"]> (<["" := "fabber"]> ∅))
          (world_with_params [])).
Proof.
  split.
  - destruct (Parse_options_in_order "x" "fabber"
                [("model", "poly"); ("degree", "2")] (world_with_params []))
      as [H _].
    { repeat (apply List.Forall_cons; [reflexivity|]). apply List.Forall_nil. }
    etransitivity; [exact (f_equal (fun r => m_params (snd r)) H)|].
    reflexivity.
  - destruct (Parse_options_in_order "x" "fabber" [("model", "poly")]
                (world_with_params [])) as [_ H].
    { repeat (apply List.Forall_cons; [reflexivity|]). apply List.Forall_nil. }
    specialize (H "degree=2" ["--never=seen"] eq_refl ltac:(discriminate)
                  ltac:(discriminate)).
    etransitivity; [exact H|]. reflexivity.
Defined.

(** *** Option files, once more *)

Lemma bind_ret_tt (c : M unit) (w : World) : (c ;; ret tt) w = c w.
Proof.
  unfold mbind, M_bind, bind. destruct (c w) as [[[]|e] w']; reflexivity.
Qed.

Lemma getlines_nonempty (s : string) : getlines s <> [].
Proof.
  induction s as [|c s IH]; [discriminate|]. cbn [getlines].
  destruct (Ascii.eqb c newline); [discriminate|].
  destruct (getlines s); discriminate.
Qed.

Lemma getlines_final_newline (s : string) :
  getlines (s +:+ String newline "") = getlines s ++ [""].
Proof.
  induction s as [|c s IH]; [reflexivity|].
  rewrite str_app_cons. cbn [getlines]. rewrite IH.
  destruct (Ascii.eqb c newline); [reflexivity|].
  pose proof (getlines_nonempty s) as Hne.
  destruct (getlines s) as [|l ls]; [congruence|reflexivity].
Qed.

Lemma ParseParamFile_lines_app (ls1 ls2 : list string) (w : World) :
  ParseParamFile_lines (ls1 ++ ls2) w
  = (ParseParamFile_lines ls1 ;; ParseParamFile_lines ls2) w.
Proof.
  revert w. induction ls1 as [|l ls1 IH]; intros w; [reflexivity|].
  cbn [app ParseParamFile_lines]. unfold mbind, M_bind, bind in *.
  destruct (ParseParamFile_line l w) as [[[]|e] w']; [apply IH|reflexivity].
Qed.

Lemma OldStyle_loop_unterminated (filename word : string) (c : ascii)
    (param : string) (w : World) :
  string_exists isspace word = false -> word <> "" ->
  OldStyle_loop filename word c param InWords w = (Return tt, w).
Proof.
  revert c param. induction word as [|x word IH]; intros c param Hns Hne;
    [congruence|].
  cbn [string_exists] in Hns. apply orb_false_iff in Hns as [Hx Hns].
  cbn [OldStyle_loop]. unfold mbind at 1, M_bind at 1, bind at 1.
  unfold OldStyle_body at 1. rewrite Hx. cbn [negb ret fst snd andb].
  destruct word as [|y word].
  - cbn [OldStyle_loop]. unfold OldStyle_body. rewrite Hx. reflexivity.
  - apply IH; [exact Hns|discriminate].
Qed.

Lemma whitespace_free_no_char (c : ascii) (s : string) :
  isspace c = true -> string_exists isspace s = false -> has_char c s = false.
Proof.
  intros Hc. unfold has_char. induction s as [|x s IH]; [reflexivity|].
  cbn [string_exists]. intros H. apply orb_false_iff in H as [Hx Hs].
  rewrite (IH Hs), orb_false_r.
  destruct (Ascii.eqb c x) eqn:E; [|reflexivity].
  apply Ascii.eqb_eq in E. congruence.
Qed.

Lemma simple_option_word (kv : string * string) :
  simple_option kv = true ->
  is_word (option_arg kv) = true /\ has_char equals (fst kv) = false.
Proof.
  destruct kv as [k v]. unfold simple_option, is_word, option_arg.
  cbn [fst snd]. intros H.
  repeat (apply andb_true_iff in H as [H ?]).
  repeat match goal with
         | H : negb _ = true |- _ => apply negb_true_iff in H
         end.
  split; [|assumption].
  rewrite !string_exists_false_app. cbn [string_exists].
  rewrite H, H4. rewrite andb_true_iff. split; [reflexivity|assumption].
Qed.

Lemma simple_option_plain (kv : string * string) :
  simple_option kv = true ->
  strip (fst kv) = fst kv /\ strip (snd kv) = snd kv
  /\ (str_size (fst kv +:+ String equals (snd kv)) <= npos)%Z.
Proof.
  destruct kv as [k v]. unfold simple_option, option_arg.
  cbn [fst snd]. intros H.
  repeat (apply andb_true_iff in H as [H ?]).
  repeat match goal with
         | H : negb _ = true |- _ => apply negb_true_iff in H
         end.
  apply Z.leb_le in H0. apply str_size_app_le_l in H0.
  destruct (no_whitespace_no_space k H) as [Hk1 Hk2].
  destruct (no_whitespace_no_space v H4) as [Hv1 Hv2].
  rewrite !strip_plain by assumption. auto.
Qed.

Lemma simple_option_line (kv : string * string) :
  simple_option kv = true -> well_formed_line (option_line kv) = true.
Proof.
  destruct kv as [k v]. unfold simple_option, option_arg.
  cbn [fst snd]. intros H.
  repeat (apply andb_true_iff in H as [H ?]).
  repeat match goal with
         | H : negb _ = true |- _ => apply negb_true_iff in H
         end.
  apply Z.leb_le in H0. apply str_size_app_le_l in H0.
  destruct (no_whitespace_no_space k H) as [Hk1 Hk2].
  destruct (no_whitespace_no_space v H4) as [Hv1 Hv2].
  unfold well_formed_line, option_line, plain_key, plain_value.
  cbn [fst snd render_line spaces repeat_char].
  rewrite str_app_nil_l, str_app_nil_r.
  rewrite (whitespace_free_no_char newline k eq_refl H).
  rewrite (whitespace_free_no_char newline v eq_refl H4).
  rewrite H1, H2, H3, Hk1, Hk2, Hv1, Hv2. cbn [negb andb].
  rewrite andb_true_r. apply Z.leb_le. exact H0.
Qed.

Lemma options_of_option_lines (kvs : list (string * string)) :
  options_of (map option_line kvs) = kvs.
Proof.
  induction kvs as [|[k v] kvs IH]; [reflexivity|].
  cbn [map option_line options_of fst snd]. rewrite IH. reflexivity.
Qed.

(** X7.  The final newline of a -f option file is optional: its lines are
    read the same with and without it.  In particular a file of well-formed
    lines whose last line is not ended records every option, the last one
    included. *)
Theorem ParseParamFile_final_newline_optional :
  forall (content : string) (w : World),
    ParseParamFile_lines (getlines (content +:+ String newline "")) w
    = ParseParamFile_lines (getlines content) w
    /\ forall (ls : list param_line) (last : param_line),
         Forall (fun l => well_formed_line l = true) (ls ++ [last]) ->
         ParseParamFile_lines
           (getlines (render_file ls +:+ render_line last)) w
         = record_options (options_of (ls ++ [last])) w.
Proof.
  intros content w.
  assert (forall c : string,
             ParseParamFile_lines (getlines (c +:+ String newline "")) w
             = ParseParamFile_lines (getlines c) w) as Hopt.
  { intros c. rewrite getlines_final_newline, ParseParamFile_lines_app.
    cbn [ParseParamFile_lines].
    change (ParseParamFile_line "") with (ret tt : M unit).
    unfold mbind, M_bind, bind.
    destruct (ParseParamFile_lines (getlines c) w) as [[[]|e] w'];
      reflexivity. }
  split; [apply Hopt|].
  intros ls last Hwf.
  rewrite <- Hopt.
  replace ((render_file ls +:+ render_line last) +:+ String newline "")
    with (render_file (ls ++ [last])).
  - rewrite getlines_render_file by exact Hwf.
    apply ParseParamFile_lines_rendered. exact Hwf.
  - clear. induction ls as [|l ls IH].
    + cbn [app render_file]. rewrite str_app_nil_l. reflexivity.
    + cbn [app render_file]. rewrite IH.
      rewrite !str_app_assoc. rewrite !(str_app_cons newline). reflexivity.
Qed.

Lemma ParseParamFile_final_newline_witness :
  m_params (snd (ParseParamFile_lines
                   (getlines ("model=poly" +:+ String newline "degree=2"))
                   (world_with_params [])))
  = <["degree" := "2"]> (<["model" := "poly"]> ∅).
Proof.
  destruct (ParseParamFile_final_newline_optional "" (world_with_params []))
    as [_ H].
  specialize (H [OptionLine 0 "model" "poly" 0] (OptionLine 0 "degree" "2" 0)).
  etransitivity;
    [refine (f_equal (fun r => m_params (snd r)) (H _))|reflexivity].
  repeat (apply List.Forall_cons; [vm_compute; reflexivity|]).
  apply List.Forall_nil.
Defined.

(** X8.  A legacy (-@) option file needs its final whitespace: a last word
    that no whitespace character follows is never acted on, whatever it is.
    After the words --k=v of the file have recorded their options, such a
    word records nothing and raises nothing, even one that would be refused
    with a newline after it. *)
Theorem ParseOldStyleParamFile_drops_unterminated_word :
  forall (filename : string) (kvs : list (string * string)) (word : string)
         (c : ascii) (w : World),
    Forall (fun kv => simple_option kv = true) kvs ->
    string_exists isspace word = false ->
    OldStyle_loop filename (render_old_style kvs +:+ word) c "" InWords w
    = record_options kvs w.
Proof.
  intros filename kvs word c w Hkvs Hword. revert c w.
  induction Hkvs as [|[k v] kvs Hkv _ IH]; intros c w.
  - cbn [render_old_style record_options]. rewrite str_app_nil_l.
    destruct word as [|x word]; [apply OldStyle_loop_end|].
    apply OldStyle_loop_unterminated; [exact Hword|discriminate].
  - destruct (simple_option_word _ Hkv) as [Hw Hk].
    destruct (simple_option_plain _ Hkv) as (Hsk & Hsv & Hsize).
    unfold option_arg in Hw. cbn [fst snd] in *.
    cbn [render_old_style fst snd].
    rewrite str_app_assoc, (str_app_cons newline).
    rewrite OldStyle_loop_dispatch; [|exact Hw|reflexivity].
    unfold old_style_dispatch. rewrite prefix_dashes, string_drop_2_dashes.
    cbn [record_options fst snd]. unfold mbind, M_bind, bind.
    rewrite AddKeyEqualsValue_key_value by assumption.
    unfold value_text. rewrite Hsk, Hsv.
    destruct (record_option k v w) as [[[]|e] w']; [apply IH|reflexivity].
Qed.

Lemma ParseOldStyleParamFile_drops_unterminated_witness :
  OldStyle_loop "old.txt" ("--model=poly" +:+ String newline "--degree=2")
    "x" "" InWords (world_with_params [])
  = (Return tt, with_params (<["model" := "poly"]> ∅) (world_with_params [])).
Proof.
  etransitivity;
    [refine (ParseOldStyleParamFile_drops_unterminated_word "old.txt"
               [("model", "poly")] "--degree=2" "x" (world_with_params [])
               _ _)|reflexivity].
  - apply List.Forall_cons; [vm_compute; reflexivity|apply List.Forall_nil].
  - reflexivity.
Defined.

(** X9.  The two file formats agree on simple options: for keys and values
    that hold no whitespace and no '#', the keys no '=', a -f file of lines
    k=v and a -@ file of words --k=v, one per line, record the same options
    with the same outcome. *)
Theorem option_file_formats_agree :
  forall (filename : string) (kvs : list (string * string)) (c : ascii)
         (w : World),
    Forall (fun kv => simple_option kv = true) kvs ->
    ParseParamFile_lines (getlines (render_file (map option_line kvs))) w
    = OldStyle_loop filename (render_old_style kvs) c "" InWords w
    /\ OldStyle_loop filename (render_old_style kvs) c "" InWords w
       = record_options kvs w.
Proof.
  intros filename kvs c w Hkvs.
  assert (OldStyle_loop filename (render_old_style kvs) c "" InWords w
          = record_options kvs w) as Hold.
  { apply OldStyle_loop_rendered.
    eapply Forall_impl; [exact Hkvs|]. intros kv Hkv.
    apply (simple_option_word kv Hkv). }
  split; [|exact Hold]. rewrite Hold.
  assert (Forall (fun l => well_formed_line l = true) (map option_line kvs))
    as Hwf.
  { apply Forall_map. eapply Forall_impl; [exact Hkvs|].
    intros kv Hkv. apply (simple_option_line kv Hkv). }
  rewrite getlines_render_file by exact Hwf.
  rewrite ParseParamFile_lines_rendered by exact Hwf.
  rewrite options_of_option_lines. reflexivity.
Qed.

Lemma option_file_formats_agree_witness :
  ParseParamFile_lines
    (getlines ("model=poly" +:+ String newline
                 ("degree=2" +:+ String newline "")))
    (world_with_params [])
  = OldStyle_loop "old.txt"
      ("--model=poly" +:+ String newline
         ("--degree=2" +:+ String newline "")) "x" "" InWords
      (world_with_params []).
Proof.
  refine (proj1 (option_file_formats_agree "old.txt"
                   [("model", "poly"); ("degree", "2")] "x"
                   (world_with_params []) _)).
  repeat (apply List.Forall_cons; [vm_compute; reflexivity|]).
  apply List.Forall_nil.
Defined.

(** *** The output directory, once more *)





Lemma GetOutputDir_no_output (w : World) :
  m_outdir w = "" ->
  m_params w !! "output" = None \/ m_params w !! "output" = Some "" ->
  GetOutputDir w = (Return ".", with_outdir "." w).
Proof.
  intros Hout Hbase.
  unfold GetOutputDir, GetStringDefault, mbind, M_bind, bind, get_world.
  rewrite Hout, string_eqb_refl. cbn [negb].
  destruct Hbase as [-> | ->]; reflexivity.
Qed.

Lemma GetOutputDir_overwrite_value (w : World) (base v : string) :
  m_outdir w = "" ->
  m_params w !! "output" = Some base -> base <> "" ->
  m_params w !! "overwrite" = Some v -> v <> "" ->
  GetOutputDir w
  = (Throw (InvalidOptionValue "overwrite" v
              "Value should not be given for boolean option"), w).
Proof.
  intros Hout Hbase Hne Hov Hv.
  unfold GetOutputDir, GetStringDefault, GetBool, mbind, M_bind, bind,
    get_world.
  rewrite Hout, string_eqb_refl. cbn [negb]. rewrite Hbase.
  apply string_eqb_false in Hne, Hv. cbn [ret]. rewrite Hne, Hov, Hv.
  reflexivity.
Qed.




(** X11.  Without --output, or with an empty one, the output directory is
    the current directory: nothing is created, no command is run, and
    --overwrite is not looked at, so a value given to it goes unreported.
    With an --output, a value given to --overwrite is refused before
    anything is created or remembered. *)
Theorem GetOutputDir_without_output :
  forall (w : World),
    m_outdir w = "" ->
    ((m_params w !! "output" = None \/ m_params w !! "output" = Some "") ->
     GetOutputDir w = (Return ".", with_outdir "." w))
    /\ (forall base v : string,
           m_params w !! "output" = Some base -> base <> "" ->
           m_params w !! "overwrite" = Some v -> v <> "" ->
           GetOutputDir w
           = (Throw (InvalidOptionValue "overwrite" v
                       "Value should not be given for boolean option"), w)).
Proof.
  intros w Hout. split.
  - apply GetOutputDir_no_output. exact Hout.
  - intros base v. apply GetOutputDir_overwrite_value. exact Hout.
Qed.

Lemma GetOutputDir_without_output_witness :
  GetOutputDir (world_with_params [("overwrite", "yes")])
  = (Return ".", with_outdir "." (world_with_params [("overwrite", "yes")]))
  /\ GetOutputDir (world_with_params [("output", "out"); ("overwrite", "yes")])
     = (Throw (InvalidOptionValue "overwrite" "yes"
                 "Value should not be given for boolean option"),
        world_with_params [("output", "out"); ("overwrite", "yes")]).
Proof.
  split.
  - destruct (GetOutputDir_without_output
                (world_with_params [("overwrite", "yes")]) eq_refl) as [H _].
    apply H. left. reflexivity.
  - destruct (GetOutputDir_without_output
                (world_with_params [("output", "out"); ("overwrite", "yes")])
                eq_refl) as [_ H].
    apply (H "out" "yes"); [reflexivity|discriminate|reflexivity|discriminate].
Defined.

(** *** The voxel data store *)

Lemma GetVoxelData_loop_leads_to (fuel : nat) (key cur : string)
    (rest : list string) (last data_key : string) (w : World) :
  cur <> "" -> leads_to (m_params w) key cur rest last ->
  (length rest < fuel)%nat ->
  GetVoxelData_loop fuel key cur data_key w = (Return (Some last), w).
Proof.
  revert fuel cur data_key.
  induction rest as [|next rest IH]; intros fuel cur data_key Hcur Hpath Hfuel.
  - destruct fuel as [|fuel]; [cbn in Hfuel; lia|].
    destruct Hpath as [<- Hend]. cbn [GetVoxelData_loop].
    apply string_eqb_false in Hcur. rewrite Hcur.
    unfold GetStringDefault, mbind, M_bind, bind, get_world.
    destruct Hend as [-> | [-> | ->]]; cbn [ret].
    + destruct (string_eqb "" key); [reflexivity|].
      destruct fuel; reflexivity.
    + destruct (string_eqb "" key); [reflexivity|].
      destruct fuel; reflexivity.
    + rewrite string_eqb_refl. reflexivity.
  - destruct fuel as [|fuel]; [cbn in Hfuel; lia|].
    destruct Hpath as (Hnext & Hne & Hkey & Hpath). cbn [GetVoxelData_loop].
    apply string_eqb_false in Hcur. rewrite Hcur.
    unfold GetStringDefault, mbind, M_bind, bind, get_world.
    rewrite Hnext. cbn [ret].
    pose proof Hkey as Hkey'. apply string_eqb_false in Hkey'. rewrite Hkey'.
    apply IH; [exact Hne|exact Hpath|cbn in Hfuel; lia].
Qed.

Lemma GetVoxelData_loop_keeps_world (fuel : nat) (key cur data_key : string)
    (w : World) :
  exists r, GetVoxelData_loop fuel key cur data_key w = (Return r, w).
Proof.
  revert cur data_key. induction fuel as [|fuel IH]; intros cur data_key.
  - cbn [GetVoxelData_loop]. destruct (string_eqb cur ""); eexists; reflexivity.
  - cbn [GetVoxelData_loop]. destruct (string_eqb cur "");
      [eexists; reflexivity|].
    unfold GetStringDefault, mbind, M_bind, bind, get_world.
    destruct (m_params w !! cur) as [v|]; cbn [ret].
    + destruct (string_eqb v key); [eexists; reflexivity|apply IH].
    + destruct (string_eqb "" key); [eexists; reflexivity|apply IH].
Qed.

Lemma GetVoxelData_keeps_world {A} (fuel : nat) (vd : gmap string (Matrix A))
    (key : string) (w : World) :
  snd (GetVoxelData fuel vd key w) = w.
Proof.
  unfold GetVoxelData, mbind, M_bind, bind.
  destruct (GetVoxelData_loop_keeps_world fuel key key "" w) as [[dk|] ->];
    [|reflexivity].
  unfold lift, LoadVoxelData. destruct (vd !! dk); reflexivity.
Qed.

(** X12.  [GetVoxelData] follows option values: when the values lead from
    [key] through the options of [path] to [last], it loads the data stored
    under [last], and reports [last] when nothing is stored there.  So a key
    that is no option names its own data, a key whose value is a file name
    names that file's data, and a chain that comes back to [key] stops at
    the option before. *)
Theorem GetVoxelData_follows_options :
  forall (A : Type) (fuel : nat) (vd : gmap string (Matrix A))
         (key : string) (path : list string) (last : string) (w : World),
    key <> "" ->
    leads_to (m_params w) key key path last ->
    (length path < fuel)%nat ->
    GetVoxelData fuel vd key w
    = (match vd !! last with
       | Some m => Return (Some m)
       | None => Throw (DataNotFound last)
       end, w).
Proof.
  intros A fuel vd key path last w Hkey Hpath Hfuel.
  unfold GetVoxelData, mbind, M_bind, bind.
  rewrite (GetVoxelData_loop_leads_to fuel key key path last "" w Hkey Hpath
             Hfuel).
  unfold lift, LoadVoxelData. destruct (vd !! last); reflexivity.
Qed.

Lemma GetVoxelData_follows_options_witness :
  let w := world_with_params [("data", "mask"); ("mask", "scan.nii")] in
  GetVoxelData 3 {["scan.nii" := mkMatrix 1 [[7%Z]]]} "data" w
  = (Return (Some (mkMatrix 1 [[7%Z]])), w)
  /\ GetVoxelData 3 (∅ : gmap string (Matrix Z)) "data" w
     = (Throw (DataNotFound "scan.nii"), w).
Proof.
  intros w. split.
  - refine (GetVoxelData_follows_options Z 3 _ "data" ["mask"; "scan.nii"]
              "scan.nii" w _ _ _).
    + discriminate.
    + cbn. repeat split; try discriminate. left. reflexivity.
    + cbn. lia.
  - refine (GetVoxelData_follows_options Z 3 _ "data" ["mask"; "scan.nii"]
              "scan.nii" w _ _ _).
    + discriminate.
    + cbn. repeat split; try discriminate. left. reflexivity.
    + cbn. lia.
Defined.

(** X13.  The guard of [GetVoxelData] against circular references compares
    with the starting key only.  When the option values, from [key] on, stay
    within keys that are options with a non-empty value other than [key],
    the loop never ends: however many rounds it is given, it has not
    returned. *)
Theorem GetVoxelData_circular_reference :
  forall (A : Type) (P : string -> Prop) (vd : gmap string (Matrix A))
         (key : string) (w : World),
    (forall k, P k ->
               k <> ""
               /\ exists next, m_params w !! k = Some next /\ next <> key
                               /\ P next) ->
    P key ->
    forall fuel : nat, GetVoxelData fuel vd key w = (Return None, w).
Proof.
  intros A P vd key w Hclosed Hkey fuel.
  assert (forall cur data_key, P cur ->
            GetVoxelData_loop fuel key cur data_key w = (Return None, w))
    as Hloop.
  { induction fuel as [|fuel IH]; intros cur data_key Hcur.
    - destruct (Hclosed cur Hcur) as [Hne _].
      apply string_eqb_false in Hne. cbn [GetVoxelData_loop]. rewrite Hne.
      reflexivity.
    - destruct (Hclosed cur Hcur) as [Hne [next (Hnext & Hnk & HP)]].
      apply string_eqb_false in Hne, Hnk. cbn [GetVoxelData_loop].
      rewrite Hne.
      unfold GetStringDefault, mbind, M_bind, bind, get_world.
      rewrite Hnext. cbn [ret]. rewrite Hnk. apply IH. exact HP. }
  unfold GetVoxelData, mbind, M_bind, bind. rewrite Hloop by exact Hkey.
  reflexivity.
Qed.

Lemma GetVoxelData_circular_reference_witness :
  let w := world_with_params [("data", "a"); ("a", "b"); ("b", "a")] in
  GetVoxelData 1000 (∅ : gmap string (Matrix Z)) "data" w = (Return None, w).
Proof.
  intros w.
  refine (GetVoxelData_circular_reference Z
            (fun k => k = "data" \/ k = "a" \/ k = "b") ∅ "data" w _ _ 1000%nat).
  - intros k [-> | [-> | ->]].
    + split; [discriminate|]. exists "a".
      split; [reflexivity|]. split; [discriminate|]. right. left. reflexivity.
    + split; [discriminate|]. exists "b".
      split; [reflexivity|]. split; [discriminate|]. right. right. reflexivity.
    + split; [discriminate|]. exists "a".
      split; [reflexivity|]. split; [discriminate|]. right. left. reflexivity.
  - left. reflexivity.
Defined.

Lemma least_key_elem (keys : list string) :
  keys <> [] -> exists k, least_key keys = Some k /\ k ∈ keys.
Proof.
  induction keys as [|k keys IH]; [congruence|]. intros _.
  cbn [least_key foldr]. fold (least_key keys).
  destruct keys as [|k' keys].
  - exists k. split; [reflexivity|]. apply list_elem_of_here.
  - destruct IH as [k0 [Hk0 Hin]]; [discriminate|]. rewrite Hk0.
    destruct (String.ltb k k0).
    + exists k. split; [reflexivity|]. apply list_elem_of_here.
    + exists k0. split; [reflexivity|]. apply list_elem_of_further. exact Hin.
Qed.

Lemma map_begin_nonempty {V} (m : gmap string V) :
  m <> ∅ -> exists k v, map_begin m = Some (k, v) /\ m !! k = Some v.
Proof.
  intros Hne. unfold map_begin.
  destruct (least_key_elem (map fst (map_to_list m))) as [k [Hk Hin]].
  { intros H. apply Hne. apply map_to_list_empty_iff.
    destruct (map_to_list m); [reflexivity|discriminate]. }
  rewrite Hk. apply list_elem_of_fmap in Hin as [[k' v] [-> Hin]].
  apply elem_of_map_to_list in Hin. cbn [fst]. rewrite Hin.
  exists k', v. split; [reflexivity|exact Hin].
Qed.

Lemma map_begin_empty {V} : map_begin (∅ : gmap string V) = None.
Proof. unfold map_begin. rewrite map_to_list_empty. reflexivity. Qed.

Lemma CheckSize_uniform {A} (vd : gmap string (Matrix A)) (n : nat)
    (key : string) (mat : Matrix A) :
  uniform_voxels vd n -> vd <> ∅ ->
  CheckSize vd key mat
  = if (Ncols mat =? n)%nat then Return tt
    else Throw (InvalidOptionValue ("Voxels in " +:+ key)
                  (stringify (Z.of_nat (Ncols mat)))
                  ("Incorrect size - should contain "
                   +:+ stringify (Z.of_nat n))).
Proof.
  intros Huni Hne. unfold CheckSize.
  destruct (map_begin_nonempty vd Hne) as [k [first [-> Hk]]].
  rewrite (Huni k first Hk). destruct (Ncols mat =? n)%nat; reflexivity.
Qed.

(** X14.  The voxel store keeps one voxel count.  When every stored matrix
    has [n] columns, [SetVoxelData] stores a matrix with [n] columns and
    refuses any other, naming both counts, even one that would replace the
    only matrix stored; whatever it stores, the matrices still agree.
    [ClearVoxelData] keeps the agreement, and only after the store has been
    emptied is a matrix of another width accepted. *)
Theorem SetVoxelData_keeps_voxel_count :
  forall (A : Type) (vd : gmap string (Matrix A)) (n : nat) (key : string)
         (data : Matrix A),
    uniform_voxels vd n ->
    (vd <> ∅ ->
     SetVoxelData key data vd
     = if (Ncols data =? n)%nat then Return (<[key := data]> vd)
       else Throw (InvalidOptionValue ("Voxels in " +:+ key)
                     (stringify (Z.of_nat (Ncols data)))
                     ("Incorrect size - should contain "
                      +:+ stringify (Z.of_nat n))))
    /\ (forall vd', SetVoxelData key data vd = Return vd' ->
                    uniform_voxels vd' (Ncols data)
                    /\ vd' !! key = Some data)
    /\ (forall key', uniform_voxels (ClearVoxelData key' vd) n)
    /\ SetVoxelData key data (ClearVoxelData "" vd)
       = Return (<[key := data]> ∅).
Proof.
  intros A vd n key data Huni.
  assert (vd <> ∅ ->
          SetVoxelData key data vd
          = if (Ncols data =? n)%nat then Return (<[key := data]> vd)
            else Throw (InvalidOptionValue ("Voxels in " +:+ key)
                          (stringify (Z.of_nat (Ncols data)))
                          ("Incorrect size - should contain "
                           +:+ stringify (Z.of_nat n)))) as Hset.
  { intros Hne. unfold SetVoxelData.
    rewrite (CheckSize_uniform vd n key data Huni Hne).
    destruct (Ncols data =? n)%nat; reflexivity. }
  split; [exact Hset|]. split; [|split].
  - intros vd' Hvd'.
    destruct (decide (vd = ∅)) as [-> | Hne].
    + unfold SetVoxelData, CheckSize in Hvd'. rewrite map_begin_empty in Hvd'.
      cbn [obind] in Hvd'. injection Hvd' as <-.
      split; [|apply lookup_insert_eq].
      intros k m Hk. apply lookup_insert_Some in Hk as [[_ <-] | [_ Hk]];
        [reflexivity|]. rewrite lookup_empty in Hk. discriminate.
    + rewrite (Hset Hne) in Hvd'.
      destruct (Ncols data =? n)%nat eqn:E; [|discriminate].
      apply Nat.eqb_eq in E. injection Hvd' as <-.
      split; [|apply lookup_insert_eq].
      intros k m Hk. apply lookup_insert_Some in Hk as [[_ <-] | [_ Hk]];
        [reflexivity|]. rewrite E. exact (Huni k m Hk).
  - intros key' k m. unfold ClearVoxelData.
    destruct (negb (string_eqb key' "")).
    + intros Hk. apply lookup_delete_Some in Hk as [_ Hk]. exact (Huni k m Hk).
    + rewrite lookup_empty. discriminate.
  - unfold ClearVoxelData. rewrite string_eqb_refl. cbn [negb].
    unfold SetVoxelData, CheckSize. rewrite map_begin_empty. reflexivity.
Qed.

Lemma SetVoxelData_keeps_voxel_count_witness :
  SetVoxelData "data" (mkMatrix 3 [[1; 2; 3]%Z])
    {["data" := mkMatrix 2 [[1; 2]%Z]]}
  = Throw (InvalidOptionValue "Voxels in data" "3"
             "Incorrect size - should contain 2").
Proof.
  destruct (SetVoxelData_keeps_voxel_count Z
              {["data" := mkMatrix 2 [[1; 2]%Z]]} 2 "data"
              (mkMatrix 3 [[1; 2; 3]%Z])) as [H _].
  - intros k m Hk. apply lookup_singleton_Some in Hk as [_ <-]. reflexivity.
  - etransitivity; [apply H|reflexivity].
    intros Hempty. apply (f_equal (fun m => m !! "data")) in Hempty.
    rewrite lookup_singleton_eq, lookup_empty in Hempty. discriminate.
Defined.

Lemma GetVoxelData_result {A} (fuel : nat) (vd : gmap string (Matrix A))
    (key : string) (w : World) (o : outcome (option (Matrix A))) :
  fst (GetVoxelData fuel vd key w) = o -> GetVoxelData fuel vd key w = (o, w).
Proof.
  intros <-. rewrite <- (GetVoxelData_keeps_world fuel vd key w) at 3.
  destruct (GetVoxelData fuel vd key w). reflexivity.
Qed.

(** Interleaving a single file gives the file back. *)
Lemma interleave_single {A} (uninit : A) (d0 : Matrix A) :
  interleave uninit [d0] d0 = Return d0.
Proof.
  destruct (interleave_ok uninit [d0] d0) as [m (Hm & Hc & Hr & Hrows)].
  { apply List.Forall_cons; [split; reflexivity|apply List.Forall_nil]. }
  rewrite Hm. f_equal. destruct m as [c rs], d0 as [c0 rs0].
  unfold Nrows in *. cbn [Ncols rows length] in *. subst c. f_equal.
  apply list_eq. intros i.
  destruct (decide (i < length rs0)%nat) as [Hi|Hi].
  - specialize (Hrows i 0%nat (mkMatrix c0 rs0) Hi eq_refl).
    cbn [rows] in Hrows.
    replace (1 * i + 0)%nat with i in Hrows by lia. exact Hrows.
  - rewrite !lookup_ge_None_2 by lia. reflexivity.
Qed.

Lemma GetMainVoxelDataMultiple_single {A} (uninit : A) (d0 : Matrix A)
    (w : World) :
  let order := default "interleave" (m_params w !! "data-order") in
  GetMainVoxelDataMultiple uninit [d0] w
  = if string_eqb order "interleave" || string_eqb order "concatenate"
       || string_eqb order "singlefile"
    then (Return d0, w)
    else (Throw (InvalidOptionValue "data-order" order "Value not recognized"),
          w).
Proof.
  intros order.
  assert (GetMainVoxelDataMultiple uninit [d0] w
          = (if string_eqb order "interleave" then
               lift (interleave uninit [d0] d0)
             else if string_eqb order "concatenate" then
               lift (concatenate d0 [])
             else if string_eqb order "singlefile" then ret d0
             else throw (InvalidOptionValue "data-order" order
                           "Value not recognized")) w) as ->.
  { subst order. unfold GetMainVoxelDataMultiple, GetStringDefault, mbind,
      M_bind, bind, get_world.
    destruct (m_params w !! "data-order") as [v|]; cbn [default ret length];
      change (1 <? 1)%nat with false; rewrite andb_false_r; reflexivity. }
  rewrite interleave_single. cbn [concatenate].
  destruct (string_eqb order "interleave"); [reflexivity|].
  destruct (string_eqb order "concatenate"); [reflexivity|].
  destruct (string_eqb order "singlefile"); reflexivity.
Qed.

(** X15.  Where the main data come from.  Data found under the option data
    are returned, and data1, data2, ... are not looked at.  When neither
    data nor data1 are found, the error names what data led to, not data1.
    When only data1 is found, the numbered files are collected up to the
    first that is missing: with data2 missing, data1 is returned as it is
    under each of the three orders, whatever data3 holds, and an unknown
    order is refused. *)
Theorem GetMainVoxelData_sources :
  forall (A : Type) (uninit : A) (rounds fuel : nat)
         (vd : gmap string (Matrix A)) (w : World),
    (forall m : Matrix A,
        fst (GetVoxelData fuel vd "data" w) = Return (Some m) ->
        GetMainVoxelData uninit rounds fuel vd w = (Return (Some m), w))
    /\ (forall k k1 : string,
           fst (GetVoxelData fuel vd "data" w) = Throw (DataNotFound k) ->
           fst (GetVoxelData fuel vd "data1" w) = Throw (DataNotFound k1) ->
           GetMainVoxelData uninit rounds fuel vd w
           = (Throw (DataNotFound k), w))
    /\ (forall (k k2 : string) (m1 : Matrix A),
           fst (GetVoxelData fuel vd "data" w) = Throw (DataNotFound k) ->
           fst (GetVoxelData fuel vd "data1" w) = Return (Some m1) ->
           fst (GetVoxelData fuel vd "data2" w) = Throw (DataNotFound k2) ->
           (2 <= rounds)%nat ->
           let order := default "interleave" (m_params w !! "data-order") in
           GetMainVoxelData uninit rounds fuel vd w
           = if string_eqb order "interleave"
                || string_eqb order "concatenate"
                || string_eqb order "singlefile"
             then (Return (Some m1), w)
             else (Throw (InvalidOptionValue "data-order" order
                            "Value not recognized"), w)).
Proof.
  intros A uninit rounds fuel vd w. split; [|split].
  - intros m Hm. apply GetVoxelData_result in Hm.
    unfold GetMainVoxelData, catch_DataNotFound. rewrite Hm. reflexivity.
  - intros k k1 Hd Hd1.
    apply GetVoxelData_result in Hd. apply GetVoxelData_result in Hd1.
    unfold GetMainVoxelData, catch_DataNotFound, mbind, M_bind, bind.
    rewrite Hd, Hd1. reflexivity.
  - intros k k2 m1 Hd Hd1 Hd2 Hrounds order.
    apply GetVoxelData_result in Hd. apply GetVoxelData_result in Hd1.
    apply GetVoxelData_result in Hd2.
    destruct rounds as [|[|rounds]]; [lia|lia|].
    unfold GetMainVoxelData, GetMainVoxelDataMultiple_whole.
    unfold catch_DataNotFound at 1. rewrite Hd.
    unfold mbind at 1, M_bind at 1, bind at 1.
    unfold catch_DataNotFound at 1. rewrite Hd1.
    cbn [collect_dataSets].
    change ("data" +:+ stringify 1) with "data1".
    change ("data" +:+ stringify (1 + 1)) with "data2".
    unfold catch_DataNotFound, mbind, M_bind, bind.
    rewrite Hd1. cbn [ret]. rewrite Hd2. cbn [ret option_map].
    rewrite GetMainVoxelDataMultiple_single. fold order.
    destruct (string_eqb order "interleave" || string_eqb order "concatenate"
              || string_eqb order "singlefile"); reflexivity.
Qed.

Lemma GetMainVoxelData_sources_witness :
  let vd : gmap string (Matrix Z) :=
    <["data3" := mkMatrix 1 [[9%Z]]]> {["data1" := mkMatrix 1 [[7%Z]]]} in
  GetMainVoxelData 0%Z 5 5 vd (world_with_params [])
  = (Return (Some (mkMatrix 1 [[7%Z]])), world_with_params [])
  /\ GetMainVoxelData 0%Z 5 5 (∅ : gmap string (Matrix Z))
       (world_with_params [("data", "scan.nii")])
     = (Throw (DataNotFound "scan.nii"),
        world_with_params [("data", "scan.nii")]).
Proof.
  intros vd. split.
  - destruct (GetMainVoxelData_sources Z 0%Z 5 5 vd (world_with_params []))
      as (_ & _ & H).
    apply (H "data" "data2" (mkMatrix 1 [[7%Z]])).
    + vm_compute. reflexivity.
    + vm_compute. reflexivity.
    + vm_compute. reflexivity.
    + lia.
  - destruct (GetMainVoxelData_sources Z 0%Z 5 5 ∅
                (world_with_params [("data", "scan.nii")])) as (_ & H & _).
    apply (H "scan.nii" "data1").
    + vm_compute. reflexivity.
    + vm_compute. reflexivity.
Defined.

Lemma lookup_concat_uniform {A} (n : nat) (ls : list (list A)) (j i : nat)
    (l : list A) :
  Forall (fun l' => length l' = n) ls -> ls !! j = Some l -> (i < n)%nat ->
  concat ls !! (n * j + i)%nat = l !! i.
Proof.
  intros Hall. revert j. induction Hall as [|l0 ls Hl0 _ IH]; intros j Hj Hi.
  - rewrite lookup_nil in Hj. discriminate.
  - cbn [concat]. destruct j as [|j].
    + injection Hj as <-. rewrite Nat.mul_0_r, Nat.add_0_l.
      apply lookup_app_l. lia.
    + cbn [lookup list_lookup] in Hj. rewrite lookup_app_r by nia.
      replace (n * S j + i - length l0)%nat with (n * j + i)%nat by nia.
      apply IH; assumption.
Qed.

Lemma length_concat_uniform {A} (n : nat) (ls : list (list A)) :
  Forall (fun l' => length l' = n) ls ->
  length (concat ls) = (n * length ls)%nat.
Proof.
  induction 1 as [|l ls Hl _ IH]; [cbn; lia|].
  cbn [concat length]. rewrite length_app, IH, Hl. lia.
Qed.

Lemma GetMainVoxelDataMultiple_order {A} (uninit : A) (d0 : Matrix A)
    (others : list (Matrix A)) (order : string) (w : World) :
  m_params w !! "data-order" = Some order ->
  (order = "interleave" ->
   GetMainVoxelDataMultiple uninit (d0 :: others) w
   = (interleave uninit (d0 :: others) d0, w))
  /\ (order = "concatenate" ->
      GetMainVoxelDataMultiple uninit (d0 :: others) w
      = (concatenate d0 others, w)).
Proof.
  intros Horder.
  unfold GetMainVoxelDataMultiple, GetStringDefault, mbind, M_bind, bind,
    get_world.
  rewrite Horder. cbn [ret]. split; intros ->; reflexivity.
Qed.

(** X16.  The two ways of combining files hold the same rows.  For files
    with the timepoints and voxels of the first, interleaving and
    concatenating both succeed and give matrices of the same size, and
    timepoint [i] of file [j] is row [nSets * i + j] of the first and row
    [nTimes * j + i] of the second (rows counted from 0). *)
Theorem interleave_and_concatenate_same_rows :
  forall (A : Type) (uninit : A) (d0 : Matrix A) (others : list (Matrix A))
         (wi wc : World),
    Forall (fun d => Nrows d = Nrows d0 /\ Ncols d = Ncols d0) (d0 :: others) ->
    m_params wi !! "data-order" = Some "interleave" ->
    m_params wc !! "data-order" = Some "concatenate" ->
    exists mi mc : Matrix A,
      GetMainVoxelDataMultiple uninit (d0 :: others) wi = (Return mi, wi)
      /\ GetMainVoxelDataMultiple uninit (d0 :: others) wc = (Return mc, wc)
      /\ Ncols mi = Ncols mc /\ Nrows mi = Nrows mc
      /\ forall (i j : nat) (d : Matrix A),
           (i < Nrows d0)%nat -> (d0 :: others) !! j = Some d ->
           rows mi !! (length (d0 :: others) * i + j)%nat = rows d !! i
           /\ rows mc !! (Nrows d0 * j + i)%nat = rows d !! i.
Proof.
  intros A uninit d0 others wi wc Hall Hwi Hwc.
  destruct (interleave_ok uninit (d0 :: others) d0 Hall)
    as [mi (Hmi & Hci & Hri & Hrows)].
  destruct (GetMainVoxelDataMultiple_order uninit d0 others "interleave" wi
              Hwi) as [Hi _].
  destruct (GetMainVoxelDataMultiple_order uninit d0 others "concatenate" wc
              Hwc) as [_ Hc].
  rewrite (Hi eq_refl), (Hc eq_refl), Hmi.
  rewrite concatenate_ok.
  2:{ apply List.Forall_inv_tail in Hall.
      eapply Forall_impl; [exact Hall|]. intros d [_ Hd]. exact Hd. }
  exists mi, (mkMatrix (Ncols d0) (rows d0 ++ concat (map rows others))).
  split; [reflexivity|]. split; [reflexivity|].
  assert (Forall (fun l => length l = Nrows d0) (map rows (d0 :: others)))
    as Hlen.
  { apply Forall_map. eapply Forall_impl; [exact Hall|].
    intros d [Hd _]. exact Hd. }
  split; [exact Hci|]. split.
  - rewrite Hri. unfold Nrows at 2. cbn [rows].
    change (rows d0 ++ concat (map rows others))
      with (concat (map rows (d0 :: others))).
    rewrite (length_concat_uniform (Nrows d0)) by exact Hlen.
    rewrite length_map. reflexivity.
  - intros i j d Hlt Hj. split; [apply Hrows; assumption|].
    cbn [rows].
    change (rows d0 ++ concat (map rows others))
      with (concat (map rows (d0 :: others))).
    apply lookup_concat_uniform; [exact Hlen| |exact Hlt].
    rewrite list_lookup_fmap, Hj. reflexivity.
Qed.

Lemma interleave_and_concatenate_witness :
  let d0 := mkMatrix 1 [[11%Z]; [12%Z]] in
  let d1 := mkMatrix 1 [[21%Z]; [22%Z]] in
  let wi := world_with_params [("data-order", "interleave")] in
  let wc := world_with_params [("data-order", "concatenate")] in
  exists mi mc : Matrix Z,
    GetMainVoxelDataMultiple 0%Z [d0; d1] wi = (Return mi, wi)
    /\ GetMainVoxelDataMultiple 0%Z [d0; d1] wc = (Return mc, wc)
    /\ Ncols mi = Ncols mc /\ Nrows mi = Nrows mc
    /\ forall (i j : nat) (d : Matrix Z),
         (i < Nrows d0)%nat -> [d0; d1] !! j = Some d ->
         rows mi !! (length [d0; d1] * i + j)%nat = rows d !! i
         /\ rows mc !! (Nrows d0 * j + i)%nat = rows d !! i.
Proof.
  intros d0 d1 wi wc.
  apply (interleave_and_concatenate_same_rows Z 0%Z d0 [d1] wi wc).
  - repeat (apply List.Forall_cons; [split; reflexivity|]).
    apply List.Forall_nil.
  - reflexivity.
  - reflexivity.
Defined.

(** *** The polynomial model, once more *)

Lemma Evaluate_Return (d : nat) (T : nat) (params : list R) :
  length params = (d + 1)%nat ->
  Evaluate (Z.of_nat d) T params
  = Return (map (fun i => Evaluate_at (Z.of_nat d) params (Z.of_nat i))
              (seq 1 T)).
Proof.
  intros Hlen. unfold Evaluate.
  replace (Z.of_nat (length params) =? Z.of_nat d + 1)%Z with true
    by (symmetry; apply Z.eqb_eq; lia).
  reflexivity.
Qed.

(** X17.  The polynomial model is exact while the powers fit an [int]: with
    [d + 1] coefficients and [T] rows of data such that [T ^ d < 2 ^ 31],
    every entry of the prediction is the polynomial at its row number,
    1 to [T].  With any other number of coefficients the assertion fails. *)
Theorem Evaluate_exact_without_overflow :
  forall (d T : nat) (params : list R),
    (Z.of_nat T ^ Z.of_nat d < 2 ^ 31)%Z ->
    (length params = (d + 1)%nat ->
     Evaluate (Z.of_nat d) T params
     = Return (map (fun t => polynomial params (INR t)) (seq 1 T)))
    /\ (length params <> (d + 1)%nat ->
        Evaluate (Z.of_nat d) T params
        = Throw (AssertionFailure "params.Nrows() == m_degree+1")).
Proof.
  intros d T params Hfit. split.
  - intros Hlen. rewrite (Evaluate_Return d T params Hlen). f_equal.
    apply map_ext_in. intros t Ht. apply in_seq in Ht.
    rewrite Evaluate_at_polynomial.
    + unfold polynomial. rewrite Hlen, INR_IZR_INZ.
      replace (d + 1)%nat with (S d) by lia. reflexivity.
    + lia.
    + apply Z.le_lt_trans with (Z.of_nat T ^ Z.of_nat d)%Z; [|exact Hfit].
      apply Z.pow_le_mono_l. lia.
  - intros Hlen. unfold Evaluate.
    replace (Z.of_nat (length params) =? Z.of_nat d + 1)%Z with false
      by (symmetry; apply Z.eqb_neq; lia).
    reflexivity.
Qed.

Lemma Evaluate_exact_without_overflow_witness :
  Evaluate 2 3 [3; 2; -1]%R
  = Return (map (fun t => polynomial [3; 2; -1]%R (INR t)) [1; 2; 3]%nat).
Proof.
  destruct (Evaluate_exact_without_overflow 2 3 [3; 2; -1]%R) as [H _].
  - vm_compute. reflexivity.
  - apply H. reflexivity.
Defined.





Lemma to_int_not_nil (z : Z) :
  Z.to_int z <> Decimal.Pos Decimal.Nil /\ Z.to_int z <> Decimal.Neg Decimal.Nil.
Proof.
  destruct z as [|p|p]; cbn; split; try discriminate.
  - intros H. injection H as H. exact (DecimalPos.Unsigned.to_uint_nonnil p H).
  - intros H. injection H as H. exact (DecimalPos.Unsigned.to_uint_nonnil p H).
Qed.

Lemma stringify_inj (a b : Z) : stringify a = stringify b -> a = b.
Proof.
  unfold stringify. intros H. apply DecimalZ.to_int_inj.
  destruct (to_int_not_nil a) as [Ha1 Ha2].
  destruct (to_int_not_nil b) as [Hb1 Hb2].
  pose proof (NilZero.isi (Z.to_int a) Ha1 Ha2) as Ia.
  pose proof (NilZero.isi (Z.to_int b) Hb1 Hb2) as Ib.
  rewrite H in Ia. congruence.
Qed.

(** X19.  The parameters of the polynomial model have distinct names: for a
    degree [d >= -1], [NameParams] gives as many names as [NumParams]
    counts, no two of them equal, the name at position [i] being c followed
    by [i] in decimal. *)
Theorem NameParams_distinct_names :
  forall d : Z,
    NoDup (NameParams d)
    /\ ((-1 <= d)%Z -> Z.of_nat (length (NameParams d)) = NumParams d)
    /\ (forall i : Z,
           (0 <= i <= d)%Z ->
           NameParams d !! Z.to_nat i = Some ("c" +:+ stringify i)).
Proof.
  intros d. unfold NameParams, NumParams. split; [|split].
  - assert (Inj eq eq (fun i : nat => "c" +:+ stringify (Z.of_nat i)))
      as Hinj.
    { intros i j Hij. injection Hij as Hij.
      apply stringify_inj in Hij. lia. }
    apply (NoDup_fmap_2 _ _ (NoDup_seq 0 _)).
  - intros Hd. rewrite length_map, length_seq. lia.
  - intros i Hi. rewrite list_lookup_fmap, lookup_seq_lt by lia.
    cbn [fmap option_fmap option_map]. rewrite Nat.add_0_l, Z2Nat.id by lia.
    reflexivity.
Qed.

Lemma NameParams_distinct_names_witness :
  Z.of_nat (length (NameParams 3)) = NumParams 3
  /\ NameParams 3 !! Z.to_nat 3 = Some ("c" +:+ stringify 3).
Proof.
  destruct (NameParams_distinct_names 3) as (_ & H1 & H2).
  split; [apply H1; lia|apply H2; lia].
Defined.

(** *** The transforms, once more *)

(** X20.  Back from model space: for a positive model value [y], the log and
    the softplus transform map it to Fabber's space and back to [y]; for
    these two transforms every value of Fabber's space has a positive model
    value, so the hypothesis describes all their model values. *)
Theorem transform_inverse_on_model_values :
  forall y : R,
    (0 < y)%R ->
    value (ToModel LogTransform (value (ToFabber LogTransform y))) = y
    /\ value (ToModel SoftPlusTransform (value (ToFabber SoftPlusTransform y)))
       = y
    /\ (forall x : R,
           (0 < value (ToModel LogTransform x))%R
           /\ (0 < value (ToModel SoftPlusTransform x))%R).
Proof.
  intros y Hy. cbn. split; [|split].
  - apply exp_ln. exact Hy.
  - assert (1 < exp y)%R as H1
      by (rewrite <- exp_0; apply exp_increasing; exact Hy).
    rewrite exp_ln by lra. replace (1 + (exp y - 1))%R with (exp y) by lra.
    apply ln_exp.
  - intros x. pose proof (exp_pos x) as Hx. split; [exact Hx|].
    rewrite <- ln_1. apply ln_increasing; lra.
Qed.

Lemma transform_inverse_on_model_values_witness :
  value (ToModel SoftPlusTransform (value (ToFabber SoftPlusTransform 2))) = 2%R.
Proof.
  destruct (transform_inverse_on_model_values 2) as (_ & H & _); [lra|exact H].
Defined.

(** X21.  The transforms keep the order of values, and the softplus
    transform lies between the identity and the log transform: for every
    [x], x < log(1 + exp x) < exp x, and for [x >= 0] it exceeds [x] by at
    most log 2. *)
Theorem transforms_increasing_and_ordered :
  forall x x' : R,
    (x < x')%R ->
    ((value (ToModel IdentityTransform x)
      < value (ToModel IdentityTransform x'))%R
     /\ (value (ToModel LogTransform x) < value (ToModel LogTransform x'))%R
     /\ (value (ToModel SoftPlusTransform x)
         < value (ToModel SoftPlusTransform x'))%R)
    /\ (value (ToModel IdentityTransform x)
        < value (ToModel SoftPlusTransform x)
        < value (ToModel LogTransform x))%R
    /\ ((0 <= x)%R ->
        (value (ToModel SoftPlusTransform x) <= x + ln 2)%R).
Proof.
  intros x x' Hlt. cbn.
  pose proof (exp_pos x) as Hx. pose proof (exp_pos x') as Hx'.
  pose proof (exp_increasing x x' Hlt) as Hexp.
  split; [|split].
  - split; [exact Hlt|]. split; [exact Hexp|].
    apply ln_increasing; lra.
  - split.
    + rewrite <- (ln_exp x) at 1. apply ln_increasing; lra.
    + rewrite <- (ln_exp (exp x)) at 2. apply ln_increasing; [lra|].
      apply exp_ineq1. lra.
  - intros H0.
    assert (1 <= exp x)%R as H1.
    { destruct H0 as [H0 | <-]; [|rewrite exp_0; lra].
      left. rewrite <- exp_0. apply exp_increasing. exact H0. }
    rewrite <- (ln_exp x) at 2. rewrite <- ln_mult by lra.
    destruct (Req_dec (1 + exp x) (exp x * 2)) as [-> | Hne]; [lra|].
    left. apply ln_increasing; lra.
Qed.

Lemma transforms_increasing_and_ordered_witness :
  (value (ToModel SoftPlusTransform 1) < value (ToModel SoftPlusTransform 2))%R
  /\ (value (ToModel SoftPlusTransform 1) <= 1 + ln 2)%R.
Proof.
  destruct (transforms_increasing_and_ordered 1 2) as ((_ & _ & H1) & _ & H2);
    [lra|].
  split; [exact H1|apply H2; lra].
Defined.

(** *** Progress in percent *)

(** X22.  [Progress] reports increases only.  The percentage it remembers
    never goes down and its output is only added to; with voxels to count,
    a repeated call prints nothing more.  When [100 * nVoxels] fits an
    [int], the last voxel brings the report to 100% and ends the line; for
    the larger counts whose hundredfold still fits 32 bits the product
    wraps to a negative number and the end is never reported. *)
Theorem Progress_reports_increases :
  forall (voxel nVoxels : Z) (st : Z * list string),
    (fst st <= fst (Progress voxel nVoxels st))%Z
    /\ (exists more, snd (Progress voxel nVoxels st) = snd st ++ more)
    /\ (nVoxels <> 0%Z ->
        Progress voxel nVoxels (Progress voxel nVoxels st)
        = Progress voxel nVoxels st)
    /\ ((0 < nVoxels <= 21474836)%Z -> (fst st < 100)%Z ->
        Progress nVoxels nVoxels st
        = (100%Z,
           snd st ++ [String backspace (String backspace
                                          (String backspace ""))]
                  ++ ["100"; "%"; String newline ""]))
    /\ ((21474836 < nVoxels <= 42949672)%Z -> (0 <= fst st)%Z ->
        Progress nVoxels nVoxels st = st).
Proof.
  intros voxel nVoxels [m_last out]. cbn [fst snd].
  split; [|split; [|split; [|split]]].
  - unfold Progress. cbn [fst snd].
    destruct (nVoxels =? 0)%Z; [cbn; lia|].
    destruct (m_last <? Z.quot (int_wrap (100 * voxel)) nVoxels)%Z eqn:E;
      cbn [fst]; [apply Z.ltb_lt in E; lia|lia].
  - unfold Progress. cbn [fst snd].
    destruct (nVoxels =? 0)%Z; [eexists; reflexivity|].
    destruct (m_last <? Z.quot (int_wrap (100 * voxel)) nVoxels)%Z;
      cbn [snd]; [|exists []; rewrite List.app_nil_r; reflexivity].
    destruct (Z.quot (int_wrap (100 * voxel)) nVoxels =? 0)%Z;
      destruct (Z.quot (int_wrap (100 * voxel)) nVoxels =? 100)%Z;
      rewrite <- ?List.app_assoc; eexists; reflexivity.
  - intros Hn. apply Z.eqb_neq in Hn. unfold Progress. cbn [fst snd].
    rewrite Hn.
    destruct (m_last <? Z.quot (int_wrap (100 * voxel)) nVoxels)%Z eqn:E;
      cbn [fst snd]; [|rewrite E; reflexivity].
    rewrite Z.ltb_irrefl. reflexivity.
  - intros Hn Hlast. unfold Progress. cbn [fst snd].
    replace (nVoxels =? 0)%Z with false by (symmetry; apply Z.eqb_neq; lia).
    rewrite int_wrap_small by lia.
    replace (Z.quot (100 * nVoxels) nVoxels) with 100%Z
      by (symmetry; apply Z.quot_mul; lia).
    replace (m_last <? 100)%Z with true by (symmetry; apply Z.ltb_lt; lia).
    cbn [Z.eqb Pos.eqb]. rewrite <- !List.app_assoc. reflexivity.
  - intros Hn Hlast. unfold Progress. cbn [fst snd].
    replace (nVoxels =? 0)%Z with false by (symmetry; apply Z.eqb_neq; lia).
    assert (int_wrap (100 * nVoxels) = (100 * nVoxels - 2 ^ 32)%Z) as ->.
    { unfold int_wrap.
      replace (100 * nVoxels + 2 ^ 31)%Z
        with ((100 * nVoxels - 2 ^ 31) + 1 * 2 ^ 32)%Z by lia.
      rewrite Z.mod_add by lia. rewrite Z.mod_small by lia. lia. }
    assert (Z.quot (100 * nVoxels - 2 ^ 32) nVoxels <= 0)%Z as Hq.
    { change 0%Z with (Z.quot 0 nVoxels). apply Z.quot_le_mono; lia. }
    replace (m_last <? Z.quot (100 * nVoxels - 2 ^ 32) nVoxels)%Z with false
      by (symmetry; apply Z.ltb_ge; lia).
    reflexivity.
Qed.

Lemma Progress_reports_increases_witness :
  Progress 200 200 (99%Z, [])
  = (100%Z, [String backspace (String backspace (String backspace ""));
             "100"; "%"; String newline ""])
  /\ Progress 30000000 30000000 (0%Z, []) = (0%Z, []).
Proof.
  destruct (Progress_reports_increases 200 200 (99%Z, []))
    as (_ & _ & _ & H1 & _).
  destruct (Progress_reports_increases 30000000 30000000 (0%Z, []))
    as (_ & _ & _ & _ & H2).
  split.
  - apply H1; cbn; lia.
  - apply H2; cbn; lia.
Defined.

(** *** Saving volumes *)


(** *** The model evaluation script *)

Lemma split_no_sep (sep : ascii) (s : string) :
  has_char sep s = false -> split sep s = [s].
Proof.
  induction s as [|c s IH]; [reflexivity|].
  intros H. apply has_char_cons_false in H as [Hc Hs].
  cbn [split]. rewrite Hc, (IH Hs). reflexivity.
Qed.

Lemma split_app (sep : ascii) (a rest : string) :
  has_char sep a = false ->
  split sep (a +:+ String sep rest) = a :: split sep rest.
Proof.
  induction a as [|c a IH]; intros H.
  - rewrite str_app_nil_l. cbn [split]. rewrite Ascii.eqb_refl. reflexivity.
  - apply has_char_cons_false in H as [Hc Ha].
    rewrite str_app_cons. cbn [split]. rewrite Hc, (IH Ha). reflexivity.
Qed.

Lemma split_nonempty (sep : ascii) (s : string) : split sep s <> [].
Proof.
  induction s as [|c s IH]; [discriminate|]. cbn [split].
  destruct (Ascii.eqb c sep); [discriminate|].
  destruct (split sep s); discriminate.
Qed.

Lemma has_char_dashes (body : string) :
  has_char equals ("--" +:+ body) = has_char equals body.
Proof. reflexivity. Qed.

(** X24.  How the script reads its arguments, and where it parts from
    [Parse].  An argument that does not begin with -- is passed over, where
    [Parse] throws.  --k=v sets [k] to [v] and --k sets [k] to the empty
    string, as [Parse] does, but without stripping spaces and replacing an
    earlier value, where [AddKeyEqualsValue] refuses a second one.  An
    argument with a second '=' is dropped whole, where [AddKeyEqualsValue]
    takes everything after the first '=' as the value. *)
Theorem script_reads_arguments :
  forall (rundata : gmap string string) (k v v' : string) (w : World),
    has_char equals k = false -> has_char equals v = false ->
    (forall arg : string,
        String.prefix "--" arg = false -> script_arg rundata arg = rundata)
    /\ script_arg rundata (option_arg (k, v)) = <[k := v]> rundata
    /\ script_arg rundata ("--" +:+ k) = <[k := ""]> rundata
    /\ script_arg rundata (option_arg (k, v +:+ String equals v')) = rundata
    /\ ((str_size (k +:+ String equals (v +:+ String equals v')) <= npos)%Z ->
        AddKeyEqualsValue (k +:+ String equals (v +:+ String equals v'))
          trim_comments_default w
        = record_option (strip k) (strip (v +:+ String equals v')) w).
Proof.
  intros rundata k v v' w Hk Hv.
  assert (has_char equals ("--" +:+ k) = false) as Hdk
    by (rewrite has_char_dashes; exact Hk).
  split; [|split; [|split; [|split]]].
  - intros arg Harg. unfold script_arg. rewrite Harg. reflexivity.
  - unfold script_arg, option_arg. cbn [fst snd]. rewrite prefix_dashes.
    rewrite <- str_app_assoc, split_app by exact Hdk.
    rewrite split_no_sep by exact Hv. cbn [length Nat.eqb].
    rewrite string_drop_2_dashes. reflexivity.
  - unfold script_arg. rewrite prefix_dashes.
    rewrite split_no_sep by exact Hdk. cbn [length Nat.eqb].
    rewrite string_drop_2_dashes. reflexivity.
  - unfold script_arg, option_arg. cbn [fst snd]. rewrite prefix_dashes.
    rewrite <- str_app_assoc, split_app by exact Hdk.
    rewrite split_app by exact Hv.
    pose proof (split_nonempty equals v') as Hne.
    destruct (split equals v') as [|p ps]; [congruence|].
    reflexivity.
  - intros Hsize. rewrite AddKeyEqualsValue_key_value by assumption.
    reflexivity.
Qed.

Lemma script_reads_arguments_witness :
  script_arg ∅ "--model=poly" = <["model" := "poly"]> ∅
  /\ script_arg ∅ "--mask=a=b" = ∅
  /\ m_params (snd (AddKeyEqualsValue "mask=a=b" trim_comments_default
                      (world_with_params [])))
     = <["mask" := "a=b"]> ∅.
Proof.
  destruct (script_reads_arguments ∅ "model" "poly" "" (world_with_params [])
              eq_refl eq_refl) as (_ & H1 & _).
  destruct (script_reads_arguments ∅ "mask" "a" "b" (world_with_params [])
              eq_refl eq_refl) as (_ & _ & _ & H2 & H3).
  split; [exact H1|]. split; [exact H2|].
  assert (str_size ("mask" +:+ String equals ("a" +:+ String equals "b"))
          <= npos)%Z as Hsize by (vm_compute; discriminate).
  etransitivity;
    [exact (f_equal (fun r => m_params (snd r)) (H3 Hsize))|reflexivity].
Defined.

Lemma script_move_lookup (model_params : list string)
    (items : list (string * string)) (p r : gmap string string) (k : string) :
  NoDup (map fst items) ->
  let st := fold_left (script_move model_params) items (p, r) in
  (k ∈ model_params ->
   forall v, (k, v) ∈ items -> fst st !! k = Some v /\ snd st !! k = None)
  /\ (k ∉ model_params \/ k ∉ map fst items ->
      fst st !! k = p !! k /\ snd st !! k = r !! k).
Proof.
  revert p r. induction items as [|[k0 v0] items IH]; intros p r Hnd.
  - cbn. split.
    + intros _ v Hin. apply elem_of_nil in Hin. contradiction.
    + auto.
  - cbn [map fst] in Hnd. apply NoDup_cons in Hnd as [Hk0 Hnd].
    cbn [fold_left].
    replace (script_move model_params (p, r) (k0, v0))
      with (if bool_decide (k0 ∈ model_params)
            then (<[k0 := v0]> p, delete k0 r) else (p, r)) by reflexivity.
    destruct (bool_decide (k0 ∈ model_params)) eqn:E.
    + apply bool_decide_eq_true in E.
      destruct (IH (<[k0 := v0]> p) (delete k0 r) Hnd) as [IH1 IH2].
      cbn zeta in *. split.
      * intros Hk v Hin. apply elem_of_cons in Hin as [Heq | Hin].
        -- injection Heq as -> ->.
           destruct IH2 as [-> ->]; [right; exact Hk0|].
           rewrite lookup_insert_eq, lookup_delete_eq. auto.
        -- apply IH1; assumption.
      * intros Hk.
        assert (k <> k0) as Hne.
        { intros ->. destruct Hk as [Hk | Hk]; [contradiction|].
          apply Hk. cbn [map fst]. apply list_elem_of_here. }
        destruct IH2 as [-> ->].
        { destruct Hk as [Hk | Hk]; [left; exact Hk|].
          right. intros Hin. apply Hk. cbn [map fst].
          apply list_elem_of_further. exact Hin. }
        rewrite lookup_insert_ne, lookup_delete_ne by congruence. auto.
    + apply bool_decide_eq_false in E.
      destruct (IH p r Hnd) as [IH1 IH2]. cbn zeta in *. split.
      * intros Hk v Hin. apply elem_of_cons in Hin as [Heq | Hin].
        -- injection Heq as -> ->. contradiction.
        -- apply IH1; assumption.
      * intros Hk. apply IH2.
        destruct Hk as [Hk | Hk]; [left; exact Hk|].
        destruct (decide (k ∈ model_params)) as [Hin | Hnin];
          [|left; exact Hnin].
        right. intros Hin'. apply Hk. cbn [map fst].
        apply list_elem_of_further. exact Hin'.
Qed.

(** X25.  What the script passes to [model_evaluate].  Every option goes to
    exactly one place: the options named by the model's parameters go to
    [params] and leave [rundata]; of the others, nt becomes the number of
    timepoints and leaves [rundata], and the rest stay.  So a model
    parameter called nt takes --nt for itself, and the number of timepoints
    stays 10. *)
Theorem script_evaluate_arguments_partition :
  forall (model_params : list string) (rundata : gmap string string),
    let r := script_evaluate_arguments model_params (map_to_list rundata)
               rundata in
    (forall k : string,
        snd (fst r) !! k
        = (if bool_decide (k ∈ model_params) then rundata !! k else None)
        /\ fst (fst r) !! k
           = (if bool_decide (k ∈ model_params) || bool_decide (k = "nt")
              then None else rundata !! k))
    /\ snd r
       = (if bool_decide ("nt" ∈ model_params) then nt_default 10
          else match rundata !! "nt" with
               | Some text => nt_given text
               | None => nt_default 10
               end).
Proof.
  intros model_params rundata.
  assert (forall k,
             let st := fold_left (script_move model_params)
                         (map_to_list rundata) (∅, rundata) in
             fst st !! k
             = (if bool_decide (k ∈ model_params) then rundata !! k else None)
             /\ snd st !! k
                = (if bool_decide (k ∈ model_params) then None
                   else rundata !! k)) as Hst.
  { intros k.
    destruct (script_move_lookup model_params (map_to_list rundata) ∅ rundata
                k (NoDup_fst_map_to_list rundata)) as [H1 H2].
    cbn zeta in *.
    destruct (bool_decide (k ∈ model_params)) eqn:E.
    - apply bool_decide_eq_true in E.
      destruct (rundata !! k) as [v|] eqn:Ek.
      + apply (H1 E v). apply elem_of_map_to_list. exact Ek.
      + destruct H2 as [-> ->].
        { right. intros Hin. apply list_elem_of_fmap in Hin as [[k' v] [-> Hin]].
          apply elem_of_map_to_list in Hin. cbn [fst] in Ek. congruence. }
        rewrite lookup_empty. auto.
    - apply bool_decide_eq_false in E.
      destruct H2 as [-> ->]; [left; exact E|].
      rewrite lookup_empty. auto. }
  cbn zeta in Hst. intros r. subst r. unfold script_evaluate_arguments.
  destruct (Hst "nt") as [_ Hnt].
  set (st := fold_left (script_move model_params) (map_to_list rundata)
               (∅, rundata)) in *.
  rewrite Hnt.
  destruct (bool_decide ("nt" ∈ model_params)) eqn:Ent.
  - cbn [fst snd]. split; [|reflexivity].
    intros k. destruct (Hst k) as [-> ->]. split; [reflexivity|].
    destruct (bool_decide (k ∈ model_params)) eqn:Ek; [reflexivity|].
    cbn [orb]. destruct (bool_decide (k = "nt")) eqn:Eknt; [|reflexivity].
    apply bool_decide_eq_true in Eknt. subst k. congruence.
  - destruct (rundata !! "nt") as [text|] eqn:Etext; cbn [fst snd].
    + split; [|reflexivity].
      intros k. destruct (Hst k) as [-> Hk]. split; [reflexivity|].
      destruct (bool_decide (k = "nt")) eqn:Eknt.
      * apply bool_decide_eq_true in Eknt. subst k.
        rewrite lookup_delete_eq, orb_true_r. reflexivity.
      * apply bool_decide_eq_false in Eknt.
        rewrite lookup_delete_ne by congruence. rewrite Hk, orb_false_r.
        reflexivity.
    + split; [|reflexivity].
      intros k. destruct (Hst k) as [-> ->]. split; [reflexivity|].
      destruct (bool_decide (k ∈ model_params)) eqn:Ek; [reflexivity|].
      cbn [orb]. destruct (bool_decide (k = "nt")) eqn:Eknt; [|reflexivity].
      apply bool_decide_eq_true in Eknt. subst k. exact Etext.
Qed.

Lemma init_compat_options_witness :
  fst (GetBool "save-mvn" (snd (init true (world_with_params []))))
  = Return true
  /\ m_params (snd (init true (world_with_params [("model", "poly")])))
       !! "model" = Some "poly".
Proof.
  destruct (init_compat_options (world_with_params [])) as (_ & _ & H1 & _).
  destruct (init_compat_options (world_with_params [("model", "poly")]))
    as (_ & _ & _ & H2).
  split.
  - apply H1. cbn. tauto.
  - rewrite H2; [reflexivity|].
    cbn. intros H. repeat (destruct H as [H | H]; [discriminate|]).
    exact H.
Defined.

(** *** The file of parameter names *)

(** X26.  paramnames.txt does not follow the output directory.  [Run] names
    the file after the option --output itself, not after what
    [GetOutputDir] decided: for a run without --overwrite whose directory
    [base] exists, the results go to [base] with a plus sign and the
    parameter names to [base]; and for an --output without a value the
    results go to the current directory and the parameter names to the root
    directory. *)
Theorem Run_dump_param_names_directory :
  forall (w : World) (paramNames : list string),
    m_outdir w = "" ->
    m_params w !! "dump-param-names" = Some "" ->
    (m_params w !! "output" = Some "" ->
     fst (GetOutputDir w) = Return "."
     /\ exists text,
         fst (Run_dump_param_names paramNames (snd (GetOutputDir w)))
         = Return (Some ("/paramnames.txt", text)))
    /\ (forall base : string,
           m_params w !! "output" = Some base -> base <> "" ->
           m_params w !! "overwrite" = None ->
           flag_or_absent w "link-to-latest" = true ->
           mkdir_fails w base = true ->
           mkdir_fails w (base +:+ "+") = false ->
           fst (GetOutputDir w) = Return (base +:+ "+")
           /\ exists text,
               fst (Run_dump_param_names paramNames (snd (GetOutputDir w)))
               = Return (Some (base +:+ "/paramnames.txt", text))).
Proof.
  intros w paramNames Hout Hdump. split.
  - intros Hbase. rewrite (GetOutputDir_no_output w Hout) by auto.
    cbn [fst snd]. split; [reflexivity|]. eexists.
    unfold Run_dump_param_names, GetBool, GetStringDefault, mbind, M_bind,
      bind, get_world.
    cbn [with_outdir m_params]. rewrite Hdump, string_eqb_refl.
    cbn [ret with_outdir m_params]. rewrite Hbase. reflexivity.
  - intros base Hbase Hne Hov Hlink Hfail Hok.
    destruct (GetOutputDir_creates w base 1 Hout Hbase Hne Hov ltac:(lia))
      as (_ & _ & Hparams & _ & Hret).
    + intros i Hi. assert (i = 0)%nat as -> by lia.
      rewrite plus_suffix_0. exact Hfail.
    + exact Hok.
    + split; [apply Hret; exact Hlink|]. eexists.
      unfold Run_dump_param_names, GetBool, GetStringDefault, mbind, M_bind,
        bind, get_world.
      rewrite Hparams, Hdump, string_eqb_refl. cbn [ret].
      rewrite Hparams, Hbase. reflexivity.
Qed.

Lemma Run_dump_param_names_directory_witness :
  let w := world_with_dirs [("output", "out"); ("dump-param-names", "")]
             ["out"] in
  fst (GetOutputDir w) = Return "out+"
  /\ exists text,
      fst (Run_dump_param_names (NameParams 2) (snd (GetOutputDir w)))
      = Return (Some ("out/paramnames.txt", text)).
Proof.
  intros w.
  destruct (Run_dump_param_names_directory w (NameParams 2) eq_refl eq_refl)
    as [_ H].
  apply (H "out"); try reflexivity. discriminate.
Defined.

(** *** Loading models *)

(** X27.  The option loadmodels is acted on and never stored.  An
    expression loadmodels=lib hands the stripped value to the loader and
    leaves the options as they were, so a second one is not refused as a
    repeated key: both libraries are loaded, in order.  Only the bare flag
    loadmodels is stored, and after it every loadmodels=lib is refused. *)
Theorem loadmodels_is_never_stored :
  forall (lib1 lib2 : string) (w : World),
    m_params w !! "loadmodels" = None ->
    (str_size ("loadmodels" +:+ String equals lib1) <= npos)%Z ->
    (str_size ("loadmodels" +:+ String equals lib2) <= npos)%Z ->
    (AddKeyEqualsValue ("loadmodels" +:+ String equals lib1) false ;;
     AddKeyEqualsValue ("loadmodels" +:+ String equals lib2) false) w
    = (Return tt,
       mkWorld (m_params w) (m_outdir w)
         (loaded_libraries w ++ [strip lib1; strip lib2])
         (fs w) (mkdir_denied w) (shell_log w))
    /\ (AddKeyEqualsValue "loadmodels" false ;;
        AddKeyEqualsValue ("loadmodels" +:+ String equals lib1) false) w
       = (Throw (InvalidOptionValue "loadmodels" (strip lib1)
                   "Already has a value: "),
          with_params (<["loadmodels" := ""]> (m_params w)) w).
Proof.
  intros lib1 lib2 w Hnone Hs1 Hs2.
  assert (forall (lib : string) (w' : World),
             m_params w' !! "loadmodels" = None ->
             (str_size ("loadmodels" +:+ String equals lib) <= npos)%Z ->
             AddKeyEqualsValue ("loadmodels" +:+ String equals lib) false w'
             = (Return tt,
                mkWorld (m_params w') (m_outdir w')
                  (loaded_libraries w' ++ [strip lib])
                  (fs w') (mkdir_denied w') (shell_log w'))) as Hload.
  { intros lib w' Hw' Hsize.
    rewrite AddKeyEqualsValue_key_value by (try reflexivity; assumption).
    change (strip "loadmodels") with "loadmodels".
    unfold record_option. rewrite Hw'. reflexivity. }
  split.
  - unfold mbind, M_bind, bind.
    rewrite (Hload lib1 w Hnone Hs1).
    rewrite Hload by assumption.
    cbn [m_params m_outdir loaded_libraries fs mkdir_denied shell_log].
    rewrite <- List.app_assoc. reflexivity.
  - unfold mbind, M_bind, bind.
    rewrite AddKeyEqualsValue_bare by reflexivity.
    rewrite AddKeyEqualsValue_key_value by (try reflexivity; assumption).
    change (strip "loadmodels") with "loadmodels".
    unfold record_option. cbn [with_params m_params].
    rewrite lookup_insert_eq. reflexivity.
Qed.

Lemma loadmodels_is_never_stored_witness :
  loaded_libraries
    (snd ((AddKeyEqualsValue "loadmodels=a.so" false ;;
           AddKeyEqualsValue "loadmodels=b.so" false) (world_with_params [])))
  = ["a.so"; "b.so"].
Proof.
  destruct (loadmodels_is_never_stored "a.so" "b.so" (world_with_params []))
    as [H _]; [reflexivity|vm_compute; discriminate|vm_compute; discriminate|].
  etransitivity;
    [exact (f_equal (fun r => loaded_libraries (snd r)) H)|reflexivity].
Defined.

(** *** Voxel coordinates and extent *)

Lemma SetVoxelData_stores {A} (key : string) (data : Matrix A)
    (vd vd' : gmap string (Matrix A)) :
  SetVoxelData key data vd = Return vd' -> vd' = <[key := data]> vd.
Proof.
  unfold SetVoxelData. destruct (CheckSize vd key data); cbn [obind];
    congruence.
Qed.

Lemma SetVoxelCoords_Return (coords : Matrix R) (vd vd' : gmap string (Matrix R))
    (ext ext' : Extent) :
  SetVoxelCoords coords (vd, ext) = Return (vd', ext') ->
  vd' = <["coords" := coords]> vd
  /\ length (m_extent ext') <> 0%nat
  /\ (length (m_extent ext) <> 0%nat -> ext' = ext).
Proof.
  unfold SetVoxelCoords. cbn [fst snd].
  destruct ((0 <? Ncols coords)%nat && negb (Nrows coords =? 3)%nat);
    [discriminate|].
  destruct (SetVoxelData "coords" coords vd) as [vd1|e] eqn:Hset;
    [|discriminate].
  apply SetVoxelData_stores in Hset. cbn [obind].
  destruct (length (m_extent ext) =? 0)%nat eqn:E.
  - intros H. injection H as <- <-. apply Nat.eqb_eq in E.
    split; [exact Hset|]. split; [discriminate|]. intros Hne. contradiction.
  - intros H. injection H as <- <-. apply Nat.eqb_neq in E.
    split; [exact Hset|]. split; [exact E|]. reflexivity.
Qed.

(** X28.  The extent is set once.  [SetVoxelCoords] stores the coordinates
    under coords each time it returns, but works out the extent from them
    only while none is set: after a [SetExtent] that was accepted, which may
    hold extents of 0, the extent stays what [SetExtent] was given, and
    after a first [SetVoxelCoords] a second one with other coordinates
    leaves the extent of the first. *)
Theorem SetVoxelCoords_sets_extent_once :
  forall (coords : Matrix R) (vd vd' : gmap string (Matrix R))
         (ext ext' : Extent),
    SetVoxelCoords coords (vd, ext) = Return (vd', ext') ->
    vd' !! "coords" = Some coords
    /\ (forall (nx ny nz : Z) (sx sy sz : R),
           SetExtent nx ny nz sx sy sz = Return ext ->
           ext' = ext /\ m_extent ext' = [nx; ny; nz]
           /\ (0 <= nx)%Z /\ (0 <= ny)%Z /\ (0 <= nz)%Z)
    /\ (forall (coords2 : Matrix R) (vd2 : gmap string (Matrix R))
               (ext2 : Extent),
           SetVoxelCoords coords2 (vd', ext') = Return (vd2, ext2) ->
           ext2 = ext' /\ vd2 !! "coords" = Some coords2).
Proof.
  intros coords vd vd' ext ext' Hset.
  destruct (SetVoxelCoords_Return coords vd vd' ext ext' Hset)
    as (Hvd & Hlen & Hkeep).
  split; [rewrite Hvd; apply lookup_insert_eq|]. split.
  - intros nx ny nz sx sy sz Hext. unfold SetExtent in Hext.
    destruct (nx <? 0)%Z eqn:Ex; [discriminate|].
    destruct (ny <? 0)%Z eqn:Ey; [discriminate|].
    destruct (nz <? 0)%Z eqn:Ez; [discriminate|].
    cbn [orb] in Hext.
    destruct (Rleb sx 0 || Rleb sy 0 || Rleb sz 0); [discriminate|].
    injection Hext as <-. apply Z.ltb_ge in Ex, Ey, Ez.
    rewrite Hkeep by (cbn; discriminate). auto.
  - intros coords2 vd2 ext2 Hset2.
    destruct (SetVoxelCoords_Return coords2 vd' vd2 ext' ext2 Hset2)
      as (Hvd2 & _ & Hkeep2).
    split; [apply Hkeep2; exact Hlen|].
    rewrite Hvd2. apply lookup_insert_eq.
Qed.

Lemma SetVoxelCoords_sets_extent_once_witness :
  let ext := mkExtent [0; 0; 0]%Z [1; 1; 1]%R in
  let coords := mkMatrix 0 ([] : list (list R)) in
  (<["coords" := coords]> ∅ : gmap string (Matrix R)) !! "coords"
  = Some coords
  /\ forall (coords2 : Matrix R) (vd2 : gmap string (Matrix R))
            (ext2 : Extent),
      SetVoxelCoords coords2 (<["coords" := coords]> ∅, ext)
      = Return (vd2, ext2) ->
      ext2 = ext /\ vd2 !! "coords" = Some coords2.
Proof.
  intros ext coords.
  assert (SetVoxelCoords coords (∅, ext)
          = Return (<["coords" := coords]> ∅, ext)) as Hset.
  { unfold SetVoxelCoords, SetVoxelData, CheckSize. cbn [fst snd].
    rewrite map_begin_empty. reflexivity. }
  destruct (SetVoxelCoords_sets_extent_once coords ∅
              (<["coords" := coords]> ∅) ext ext Hset) as (H1 & _ & H3).
  split; [exact H1|exact H3].
Defined.
